(** * Mython: lexer and class runtime

    A shallow embedding of the Mython interpreter's lexer (lexer.h, lexer.cpp)
    and of its value model and class runtime (runtime.h, runtime.cpp), with
    the properties of the interpreter's specification stated and proved
    over it. *)

From Stdlib Require Import ZArith Ascii String List Bool Lia.
From stdpp Require Import base option list gmap strings pretty.
Import ListNotations.

Local Open Scope string_scope.
Local Open Scope list_scope.

(** ** Exceptions

    The exception classes the code throws.  [LexerError] and [ParsingError]
    are declared side by side in lexer.h, both deriving from
    [std::runtime_error]; [std::stoi] throws [std::out_of_range] and
    [std::invalid_argument], which derive from [std::logic_error]. *)

Inductive Exception : Type :=
| runtime_error (what : string)
| LexerError (what : string)
| ParsingError (what : string)
| out_of_range (what : string)
| invalid_argument (what : string).

(** [catch (const std::runtime_error&)] would catch it. *)
Definition is_runtime_error (e : Exception) : bool :=
  match e with
  | runtime_error _ | LexerError _ | ParsingError _ => true
  | out_of_range _ | invalid_argument _ => false
  end.

(** [catch (const LexerError&)] would catch it. *)
Definition is_LexerError (e : Exception) : bool :=
  match e with
  | LexerError _ => true
  | _ => false
  end.

(** [catch (const ParsingError&)] would catch it. *)
Definition is_ParsingError (e : Exception) : bool :=
  match e with
  | ParsingError _ => true
  | _ => false
  end.

(** ** The value model and class runtime (runtime.h, runtime.cpp) *)

Module Runtime.

(** How a call ends: with a value, with a C++ exception in flight, or in
    [assert(data_ != nullptr)] of [ObjectHolder::AssertIsValid]. *)
Inductive Outcome (A : Type) : Type :=
| Returned (a : A)
| Thrown (e : Exception)
| AssertFailed.
Arguments Returned {A} a.
Arguments Thrown {A} e.
Arguments AssertFailed {A}.

(** Addresses of heap objects. *)
Definition address := positive.

Section Model.

(** The bodies of methods are [Executable]s; their classes live in
    statement.cpp.  The runtime only stores them and calls [Execute]. *)
Context {Executable : Type}.

(** [struct Method]. *)
Record Method : Type := mkMethod {
  name : string;
  formal_params : list string;
  body : Executable
}.

(** [class Class]: [name_], [methods_] and the non-owning [parent_], which
    is [nullptr] for a base class.  A class is never modified after its
    construction, and its parent is constructed before it. *)
#[warnings="-register-all"]
Inductive Class : Type :=
| mkClass (name_ : string) (methods_ : list Method) (parent_ : option Class).

Definition name_ (c : Class) : string :=
  match c with mkClass n _ _ => n end.
Definition methods_ (c : Class) : list Method :=
  match c with mkClass _ ms _ => ms end.
Definition parent_ (c : Class) : option Class :=
  match c with mkClass _ _ p => p end.

(** The constructor's loop
    [for (const auto &method : methods_) metod_name_to_ptr_[method.name] = &method;]
    a later method of the same name replaces an earlier one. *)
Definition metod_name_to_ptr_ (c : Class) : gmap string Method :=
  foldl (fun index method => <[name method := method]> index) ∅ (methods_ c).

(** The dynamic type of a heap object together with the data that never
    changes after construction: [ValueObject::value_], and [class_] of a
    [ClassInstance].  The mutable [fields_] of an instance are kept in the
    heap, under the instance's address. *)
Inductive Object : Type :=
| ONumber (value_ : Z)
| OString (value_ : string)
| OBool (value_ : bool)
| OClass (cls : Class)
| OClassInstance (class_ : Class).

(** [class ObjectHolder], a [std::shared_ptr<Object>]: empty ([None()]),
    owning ([Own]) or pointing at an object it does not own ([Share], whose
    deleter does nothing). *)
Inductive ObjectHolder : Type :=
| HolderNone
| HolderOwn (p : address) (o : Object)
| HolderShare (p : address) (o : Object).

(** [using Closure = std::unordered_map<std::string, ObjectHolder>]. *)
Definition Closure : Type := gmap string ObjectHolder.

(** The [fields_] of every live instance. *)
Definition Heap : Type := gmap address Closure.

(** What a computation leaves behind: its outcome, the heap, and the bytes
    it appended to the context's output stream. *)
Record Run (A : Type) : Type := mkRun {
  outcome : Outcome A;
  heap_after : Heap;
  written : string
}.
Arguments mkRun {A} outcome heap_after written.
Arguments outcome {A} r.
Arguments heap_after {A} r.
Arguments written {A} r.

(** Computations over the heap and the context. *)
Definition M (A : Type) : Type := Heap -> Run A.

Definition ret {A} (a : A) : M A :=
  fun h => mkRun (Returned a) h "".

Definition throw {A} (e : Exception) : M A :=
  fun h => mkRun (Thrown e) h "".

Definition assert_fail {A} : M A :=
  fun h => mkRun AssertFailed h "".

Definition bind {A B} (m : M A) (k : A -> M B) : M B :=
  fun h =>
    let r := m h in
    match outcome r with
    | Returned a =>
        let r' := k a (heap_after r) in
        mkRun (outcome r') (heap_after r') (written r +:+ written r')
    | Thrown e => mkRun (Thrown e) (heap_after r) (written r)
    | AssertFailed => mkRun AssertFailed (heap_after r) (written r)
    end.

(** [Executable::Execute(Closure &closure, Context &context)]. *)
Variable Execute : Executable -> Closure -> M ObjectHolder.

(** [os << this], the [operator<<] of [std::ostream] for pointers: the
    text of a pointer is implementation defined. *)
Variable show_pointer : address -> string.

(** [ObjectHolder::Get]: the raw pointer, here with its pointee. *)
Definition Get (h : ObjectHolder) : option (address * Object) :=
  match h with
  | HolderNone => None
  | HolderOwn p o | HolderShare p o => Some (p, o)
  end.

(** [ObjectHolder::Share]. *)
Definition Share (p : address) (o : Object) : ObjectHolder := HolderShare p o.

(** [dynamic_cast<T *>(holder.Get())] for each [T] the runtime asks for. *)
Definition as_Bool (p : option (address * Object)) : option bool :=
  match p with Some (_, OBool b) => Some b | _ => None end.
Definition as_Number (p : option (address * Object)) : option Z :=
  match p with Some (_, ONumber n) => Some n | _ => None end.
Definition as_String (p : option (address * Object)) : option string :=
  match p with Some (_, OString s) => Some s | _ => None end.
Definition as_ClassInstance (p : option (address * Object))
  : option (address * Class) :=
  match p with Some (a, OClassInstance c) => Some (a, c) | _ => None end.

(** [std::string::empty]. *)
Definition empty (s : string) : bool :=
  match s with EmptyString => true | String _ _ => false end.

(** [bool IsTrue(const ObjectHolder &object)]; a [Number] converts to
    [bool] as any [int] does. *)
Definition IsTrue (object : ObjectHolder) : bool :=
  match as_Bool (Get object) with
  | Some b => b
  | None =>
      match as_Number (Get object) with
      | Some n => negb (n =? 0)%Z
      | None =>
          match as_String (Get object) with
          | Some s => negb (empty s)
          | None => false
          end
      end
  end.

(** [const Method *Class::GetMethod(const std::string &name) const]. *)
Fixpoint GetMethod (c : Class) (nm : string) : option Method :=
  match metod_name_to_ptr_ c !! nm with
  | Some method => Some method
  | None =>
      match c with
      | mkClass _ _ (Some parent) => GetMethod parent nm
      | mkClass _ _ None => None
      end
  end.

(** [bool ClassInstance::HasMethod(const std::string &, size_t) const]. *)
Definition HasMethod (class_ : Class) (method_name : string)
    (argument_count : nat) : bool :=
  match GetMethod class_ method_name with
  | Some method => Nat.eqb (length (formal_params method)) argument_count
  | None => false
  end.

(** The loop [args[method->formal_params[i]] = actual_args[i]] of [Call],
    which runs over the formal parameters; [Call] has checked that there
    are as many actual arguments. *)
Fixpoint bind_params (formals : list string) (actuals : list ObjectHolder)
    (args : Closure) : Closure :=
  match formals, actuals with
  | f :: formals', a :: actuals' => bind_params formals' actuals' (<[f := a]> args)
  | _, _ => args
  end.

(** The closure [Call] runs the body against. *)
Definition call_scope (this : address) (class_ : Class) (method : Method)
    (actual_args : list ObjectHolder) : Closure :=
  bind_params (formal_params method) actual_args
    (<["self" := Share this (OClassInstance class_)]> ∅).

(** [ObjectHolder ClassInstance::Call(method_name, actual_args, context)]
    on the instance at [this]. *)
Definition Call (this : address) (class_ : Class) (method_name : string)
    (actual_args : list ObjectHolder) : M ObjectHolder :=
  if negb (HasMethod class_ method_name (length actual_args))
  then throw (runtime_error "Cannot call method")
  else
    match GetMethod class_ method_name with
    | Some method => Execute (body method) (call_scope this class_ method actual_args)
    | None => assert_fail
    end.

(** The names of the special methods. *)
Definition STR_METHOD : string := "__str__".
Definition LESS_THAN_METHOD : string := "__lt__".
Definition EQUAL_METHOD : string := "__eq__".

(** [bool Equal(const ObjectHolder &lhs, const ObjectHolder &rhs, Context &)]. *)
Definition Equal (lhs rhs : ObjectHolder) : M bool :=
  match Get lhs, Get rhs with
  | None, None => ret true
  | _, _ =>
      match as_ClassInstance (Get lhs) with
      | Some (this, class_) =>
          if HasMethod class_ EQUAL_METHOD 1
          then bind (Call this class_ EQUAL_METHOD [rhs]) (fun r => ret (IsTrue r))
          else throw (runtime_error "Cannot compare objects for equality")
      | None =>
          match as_Bool (Get lhs), as_Bool (Get rhs) with
          | Some a, Some b => ret (Bool.eqb a b)
          | _, _ =>
              match as_Number (Get lhs), as_Number (Get rhs) with
              | Some a, Some b => ret (a =? b)%Z
              | _, _ =>
                  match as_String (Get lhs), as_String (Get rhs) with
                  | Some a, Some b => ret (String.eqb a b)
                  | _, _ => throw (runtime_error "Cannot compare objects for equality")
                  end
              end
          end
      end
  end.

(** [bool Less(const ObjectHolder &lhs, const ObjectHolder &rhs, Context &)];
    [bool]s compare as [false < true], strings byte by byte. *)
Definition Less (lhs rhs : ObjectHolder) : M bool :=
  match as_ClassInstance (Get lhs) with
  | Some (this, class_) =>
      if HasMethod class_ LESS_THAN_METHOD 1
      then bind (Call this class_ LESS_THAN_METHOD [rhs]) (fun r => ret (IsTrue r))
      else throw (runtime_error "Cannot compare objects for less")
  | None =>
      match as_Bool (Get lhs), as_Bool (Get rhs) with
      | Some a, Some b => ret (negb a && b)
      | _, _ =>
          match as_Number (Get lhs), as_Number (Get rhs) with
          | Some a, Some b => ret (a <? b)%Z
          | _, _ =>
              match as_String (Get lhs), as_String (Get rhs) with
              | Some a, Some b => ret (String.ltb a b)
              | _, _ => throw (runtime_error "Cannot compare objects for less")
              end
          end
      end
  end.

(** [return !Equal(lhs, rhs, context);] *)
Definition NotEqual (lhs rhs : ObjectHolder) : M bool :=
  bind (Equal lhs rhs) (fun e => ret (negb e)).

(** [return !(Less(lhs, rhs, context) || Equal(lhs, rhs, context));]
    where [||] does not evaluate its right operand when the left is true. *)
Definition Greater (lhs rhs : ObjectHolder) : M bool :=
  bind (Less lhs rhs) (fun l =>
    if l then ret (negb true)
    else bind (Equal lhs rhs) (fun e => ret (negb e))).

(** [return !(Greater(lhs, rhs, context));] *)
Definition LessOrEqual (lhs rhs : ObjectHolder) : M bool :=
  bind (Greater lhs rhs) (fun g => ret (negb g)).

(** [return !(Less(lhs, rhs, context));] *)
Definition GreaterOrEqual (lhs rhs : ObjectHolder) : M bool :=
  bind (Less lhs rhs) (fun l => ret (negb l)).

(** [Object::Print(std::ostream &os, Context &context)], dispatched on the
    dynamic type of the object at [this].  The value computed is the text
    written to [os].  [ClassInstance::Print] prints the result of [__str__]
    through its own [Print]; the chain of such calls is as long as the
    program makes it, so the model counts them down: [None] means the
    chain is longer than [fuel]. *)
Fixpoint Print (fuel : nat) (this : address) (o : Object) (h : Heap)
  : option (Run string) :=
  match o with
  | ONumber v => Some (ret (pretty v) h)
  | OString s => Some (ret s h)
  | OBool b => Some (ret (if b then "True" else "False") h)
  | OClass c => Some (ret ("Class " +:+ name_ c) h)
  | OClassInstance class_ =>
      if HasMethod class_ STR_METHOD 0
      then
        let r := Call this class_ STR_METHOD [] h in
        match outcome r with
        | Returned res =>
            match Get res with
            | Some (p, o') =>
                match fuel with
                | S fuel' =>
                    match Print fuel' p o' (heap_after r) with
                    | Some r' =>
                        Some (mkRun (outcome r') (heap_after r')
                                (written r +:+ written r'))
                    | None => None
                    end
                | O => None
                end
            | None => Some (mkRun AssertFailed (heap_after r) (written r))
            end
        | Thrown e => Some (mkRun (Thrown e) (heap_after r) (written r))
        | AssertFailed => Some (mkRun AssertFailed (heap_after r) (written r))
        end
      else Some (ret (show_pointer this) h)
  end.

(** *** Notions the specification speaks of *)

(** The outcome of a computation, with its result changed by [f]. *)
Definition fmap_run {A B} (f : A -> B) (r : Run A) : Run B :=
  mkRun
    match outcome r with
    | Returned a => Returned (f a)
    | Thrown e => Thrown e
    | AssertFailed => AssertFailed
    end
    (heap_after r) (written r).

(** A computation that did not return. *)
Definition fails {A} (r : Run A) : bool :=
  match outcome r with
  | Returned _ => false
  | _ => true
  end.

(** [m1 || m2] on computations: C++ evaluates [m2] only when [m1] returned
    [false]. *)
Definition or_else (m1 m2 : M bool) : M bool :=
  bind m1 (fun b => if b then ret true else m2).

(** The classes above [c] in the inheritance chain, nearest first. *)
Fixpoint ancestors (c : Class) : list Class :=
  match c with
  | mkClass _ _ (Some parent) => parent :: ancestors parent
  | mkClass _ _ None => []
  end.


(** The scalar kinds of the specification. *)
Inductive ScalarKind : Type := KBool | KNumber | KString.

Definition scalar_kind (h : ObjectHolder) : option ScalarKind :=
  match Get h with
  | Some (_, OBool _) => Some KBool
  | Some (_, ONumber _) => Some KNumber
  | Some (_, OString _) => Some KString
  | _ => None
  end.

(** Exactly one of three is true. *)
Definition exactly_one (a b c : bool) : bool :=
  (a && negb b && negb c) || (negb a && b && negb c) || (negb a && negb b && c).

(** The actual argument of the last formal parameter called [k], if a
    parameter is called [k]. *)
Fixpoint bound_argument (k : string) (formals : list string)
    (actuals : list ObjectHolder) : option ObjectHolder :=
  match formals, actuals with
  | f :: formals', a :: actuals' =>
      match bound_argument k formals' actuals' with
      | Some v => Some v
      | None => if String.eqb f k then Some a else None
      end
  | _, _ => None
  end.

End Model.

Arguments Method : clear implicits.
Arguments Class : clear implicits.
Arguments Object : clear implicits.
Arguments ObjectHolder : clear implicits.
Arguments Closure : clear implicits.
Arguments Heap : clear implicits.
Arguments Run : clear implicits.
Arguments M : clear implicits.
Arguments mkRun {Executable A} outcome heap_after written.
Arguments outcome {Executable A} r.
Arguments heap_after {Executable A} r.
Arguments written {Executable A} r.

(** *** Method bodies to run the model on

    A few method bodies as the parser builds them: [return None],
    [return self], [return <name>], [return <number>], [return <string>],
    [return True/False].  A name that is not in the closure is a runtime
    error. *)
Inductive Body : Type :=
| ReturnNone
| ReturnVariable (var_name : string)
| ReturnNumber (n : Z)
| ReturnString (s : string)
| ReturnBool (b : bool).

(** Where [ExecuteBody] puts the value objects it creates. *)
Definition literal_address : address := 1%positive.

Definition ExecuteBody (b : Body) (closure : Closure Body) : M Body (ObjectHolder Body) :=
  match b with
  | ReturnNone => ret HolderNone
  | ReturnVariable x =>
      match closure !! x with
      | Some v => ret v
      | None => throw (runtime_error "Variable not found")
      end
  | ReturnNumber n => ret (HolderOwn literal_address (ONumber n))
  | ReturnString s => ret (HolderOwn literal_address (OString s))
  | ReturnBool b => ret (HolderOwn literal_address (OBool b))
  end.

(** Pointers print as their number, in decimal. *)
Definition show_address (p : address) : string := pretty (Zpos p).

(** Classes to run the model on:
    [class A] with [__str__(self)], [f(self)], [g(self, x)],
    [__eq__(self, other)];
    [class B(A)] with [f(self)], [g(self)], [h(self, self)];
    [class C(A)] with [__str__(self, x)]. *)
Definition class_A : Class Body :=
  mkClass "A"
    [ mkMethod "__str__" [] (ReturnString "A!");
      mkMethod "f" [] (ReturnNumber 1);
      mkMethod "g" ["x"] (ReturnVariable "x");
      mkMethod "__eq__" ["other"] (ReturnBool true) ]
    None.

Definition class_B : Class Body :=
  mkClass "B"
    [ mkMethod "f" [] (ReturnNumber 2);
      mkMethod "g" [] (ReturnNone);
      mkMethod "h" ["self"] (ReturnVariable "self") ]
    (Some class_A).


(** Values to run the model on: the number 5, an instance of [A] and an
    instance of [B]. *)
Definition some_number : ObjectHolder Body := HolderOwn 9%positive (ONumber 5).
Definition an_instance_of_A : ObjectHolder Body :=
  HolderOwn 8%positive (OClassInstance class_A).
Definition an_instance_of_B : ObjectHolder Body :=
  HolderOwn 7%positive (OClassInstance class_B).

End Runtime.

(** ** The lexer (lexer.h, lexer.cpp) *)

Module Lexer.

(** *** Tokens: [namespace token_type] and [struct Token] *)

Module token_type.
Inductive Token : Type :=
| Number (value : Z)
| Id (value : string)
| Char (value : ascii)
| String (value : string)
| Class | Return | If | Else | Def
| Newline
| Print
| Indent | Dedent
| And | Or | Not
| Eq | NotEq | LessOrEq | GreaterOrEq
| None | True | False
| Eof.
End token_type.

Abbreviation Token := token_type.Token.

(** [tok.Is<token_type::Newline>()] and its like. *)
Definition Is_Newline (t : Token) : bool :=
  match t with token_type.Newline => true | _ => false end.
Definition Is_Dedent (t : Token) : bool :=
  match t with token_type.Dedent => true | _ => false end.
Definition Is_Indent (t : Token) : bool :=
  match t with token_type.Indent => true | _ => false end.
Definition Is_Eof (t : Token) : bool :=
  match t with token_type.Eof => true | _ => false end.

(** *** Characters

    [int_type], the result of [peek] and [get]: a character or
    [Traits::eof()]. *)
Definition int_type : Type := option ascii.

Definition LF : ascii := "010"%char.
Definition CR : ascii := "013"%char.
Definition TAB : ascii := "009"%char.
Definition SPACE : ascii := " "%char.
Definition BACKSLASH : ascii := "092"%char.
Definition DQUOTE : ascii := "034"%char.
Definition SQUOTE : ascii := "'"%char.

(** [static_cast<char>(i)]: the end-of-file value -1 becomes the byte 255. *)
Definition to_char (i : int_type) : ascii :=
  match i with
  | Some c => c
  | Datatypes.None => "255"%char
  end.

(** [i == c] for an [int_type] [i] and a character literal [c]. *)
Definition int_is (i : int_type) (c : ascii) : bool :=
  match i with
  | Some c' => Ascii.eqb c' c
  | Datatypes.None => false
  end.

(** [<cctype>] in the "C" locale, which is the one in force: the program
    never calls [setlocale].  Bytes above 127 and the end-of-file value
    belong to no class. *)
Definition isalpha (c : ascii) : bool :=
  let n := nat_of_ascii c in
  (Nat.leb 65 n && Nat.leb n 90) || (Nat.leb 97 n && Nat.leb n 122).

Definition isdigit (c : ascii) : bool :=
  let n := nat_of_ascii c in
  Nat.leb 48 n && Nat.leb n 57.

Definition ispunct (c : ascii) : bool :=
  let n := nat_of_ascii c in
  (Nat.leb 33 n && Nat.leb n 47) || (Nat.leb 58 n && Nat.leb n 64)
  || (Nat.leb 91 n && Nat.leb n 96) || (Nat.leb 123 n && Nat.leb n 126).

Definition isalpha_int (i : int_type) : bool :=
  match i with Some c => isalpha c | Datatypes.None => false end.
Definition isdigit_int (i : int_type) : bool :=
  match i with Some c => isdigit c | Datatypes.None => false end.

(** *** [std::istream]

    The stream buffer is the text, split at the read position: [consumed]
    holds what has been extracted, the most recent character first (it is
    what [unget] and [putback] give back), [remaining] what is still to
    come.  Then the three state bits. *)
Record istream : Type := mkIstream {
  consumed : list ascii;
  remaining : list ascii;
  eofbit : bool;
  failbit : bool;
  badbit : bool
}.

(** A stream over a text, as [std::istringstream] or a just opened
    [std::ifstream] is. *)
Definition istream_of (text : list ascii) : istream :=
  mkIstream [] text false false false.

Definition good (s : istream) : bool :=
  negb (eofbit s || failbit s || badbit s).
Definition eof (s : istream) : bool := eofbit s.
Definition fail (s : istream) : bool := failbit s || badbit s.

Definition set_eofbit (s : istream) : istream :=
  mkIstream (consumed s) (remaining s) true (failbit s) (badbit s).
Definition set_failbit (s : istream) : istream :=
  mkIstream (consumed s) (remaining s) (eofbit s) true (badbit s).
Definition set_badbit (s : istream) : istream :=
  mkIstream (consumed s) (remaining s) (eofbit s) (failbit s) true.
Definition clear_eofbit (s : istream) : istream :=
  mkIstream (consumed s) (remaining s) false (failbit s) (badbit s).

(** [rdbuf()->sgetc()]: the character at the read position. *)
Definition sgetc (s : istream) : int_type :=
  match remaining s with
  | c :: _ => Some c
  | [] => Datatypes.None
  end.

(** [rdbuf()->sbumpc()]: step over the character at the read position. *)
Definition sbumpc (s : istream) : istream :=
  match remaining s with
  | c :: rest => mkIstream (c :: consumed s) rest (eofbit s) (failbit s) (badbit s)
  | [] => s
  end.

(** [rdbuf()->sungetc()]: step back, if there is a character to step back
    over. *)
Definition sungetc (s : istream) : option istream :=
  match consumed s with
  | c :: before =>
      Some (mkIstream before (c :: remaining s) (eofbit s) (failbit s) (badbit s))
  | [] => Datatypes.None
  end.

(** [input.peek()].  An unformatted input function first builds a sentry,
    which sets [failbit] when the stream is not [good()]. *)
Definition peek (s : istream) : int_type * istream :=
  if good s then
    match sgetc s with
    | Some c => (Some c, s)
    | Datatypes.None => (Datatypes.None, set_eofbit s)
    end
  else (Datatypes.None, set_failbit s).

(** [input.get()]. *)
Definition get (s : istream) : int_type * istream :=
  if good s then
    match sgetc s with
    | Some c => (Some c, sbumpc s)
    | Datatypes.None => (Datatypes.None, set_failbit (set_eofbit s))
    end
  else (Datatypes.None, set_failbit s).

(** [input.unget()]: clears [eofbit], then, behind a sentry, steps back. *)
Definition unget (s : istream) : istream :=
  let s := clear_eofbit s in
  if good s then
    match sungetc s with
    | Some s' => s'
    | Datatypes.None => set_badbit s
    end
  else set_failbit s.

(** [input.putback(c)]: as [unget], and the character given back has to be
    the one that was read there. *)
Definition putback (c : ascii) (s : istream) : istream :=
  let s := clear_eofbit s in
  if good s then
    match consumed s with
    | c' :: _ =>
        if Ascii.eqb c' c
        then match sungetc s with Some s' => s' | Datatypes.None => set_badbit s end
        else set_badbit s
    | [] => set_badbit s
    end
  else set_failbit s.

(** The extraction loop of [input.ignore(n, delim)]: up to [n] characters
    are dropped; it stops early behind the first [delim], which it drops
    too, or at the end of the text, which sets [eofbit]. *)
Fixpoint ignore_loop (n : nat) (delim : ascii) (s : istream) : istream :=
  match n with
  | O => s
  | S n' =>
      match sgetc s with
      | Datatypes.None => set_eofbit s
      | Some c =>
          if Ascii.eqb c delim then sbumpc s
          else ignore_loop n' delim (sbumpc s)
      end
  end.

(** [input.ignore(n, delim)]. *)
Definition ignore (n : nat) (delim : ascii) (s : istream) : istream :=
  if good s then ignore_loop n delim s else set_failbit s.

(** *** [class Lexer] *)

Record Lexer : Type := mkLexer {
  tokens_ : list Token;
  prev_indent : nat;
  current_pos : nat
}.

(** How a member function ends: normally, with an exception, or, in the
    model only, with its loop counter used up. *)
Inductive Result (A : Type) : Type :=
| Ok (a : A)
| Throw (e : Exception)
| OutOfFuel.
Arguments Ok {A} a.
Arguments Throw {A} e.
Arguments OutOfFuel {A}.

(** [tokens_.push_back(t)]. *)
Definition push_back (t : Token) (lx : Lexer) : Lexer :=
  mkLexer (tokens_ lx ++ [t]) (prev_indent lx) (current_pos lx).

(** [tokens_.back()], when [tokens_] is not empty. *)
Definition back (lx : Lexer) : option Token := last (tokens_ lx).

Definition set_prev_indent (n : nat) (lx : Lexer) : Lexer :=
  mkLexer (tokens_ lx) n (current_pos lx).

(** [for (size_t i = 0; i < n; i++) tokens_.push_back(t);] *)
Fixpoint push_back_n (n : nat) (t : Token) (lx : Lexer) : Lexer :=
  match n with
  | O => lx
  | S n' => push_back_n n' t (push_back t lx)
  end.

(** The table of [ProcessKeyWord], a [std::map]. *)
Definition KEYWORD_TO_TOKEN : list (string * Token) :=
  [ ("class", token_type.Class); ("return", token_type.Return);
    ("if", token_type.If); ("else", token_type.Else);
    ("def", token_type.Def); ("print", token_type.Print);
    ("or", token_type.Or); ("None", token_type.None);
    ("not", token_type.Not); ("and", token_type.And);
    ("True", token_type.True); ("False", token_type.False) ].

(** [KEYWORD_TO_TOKEN.find(word)]. *)
Fixpoint find (table : list (string * Token)) (word : string) : option Token :=
  match table with
  | [] => Datatypes.None
  | (k, t) :: table' => if String.eqb k word then Some t else find table' word
  end.

(** [void Lexer::ProcessKeyWord(const std::string &word)].  When the word
    is not in the table the code builds a [std::runtime_error] and drops
    it: there is no [throw]. *)
Definition ProcessKeyWord (word : string) (lx : Lexer) : Lexer :=
  match find KEYWORD_TO_TOKEN word with
  | Some t => push_back t lx
  | Datatypes.None => lx
  end.

(** The set of [IsKeyWord]. *)
Definition USING_KEYWORDS : list string :=
  [ "class"; "return"; "if"; "else"; "def"; "print";
    "or"; "None"; "and"; "not"; "True"; "False" ].

(** [bool Lexer::IsKeyWord(const std::string &word) const]. *)
Definition IsKeyWord (word : string) : bool :=
  existsb (String.eqb word) USING_KEYWORDS.

(** The loop of [ProcessWord]:
    [while (isalpha(peek()) || isdigit(peek()) || peek() == '_') word.push_back(get());] *)
Fixpoint ProcessWord_loop (fuel : nat) (input : istream) (word : list ascii)
  : option (list ascii * istream) :=
  match fuel with
  | O => Datatypes.None
  | S fuel' =>
      let (c1, input1) := peek input in
      let '(continue, input') :=
        if isalpha_int c1 then (true, input1)
        else
          let (c2, input2) := peek input1 in
          if isdigit_int c2 then (true, input2)
          else
            let (c3, input3) := peek input2 in
            (int_is c3 "_"%char, input3) in
      if (continue : bool) then
        let (c, input'') := get input' in
        ProcessWord_loop fuel' input'' (word ++ [to_char c])
      else Some (word, input')
  end.

(** [void Lexer::ProcessWord(std::istream &input)]. *)
Definition ProcessWord (lx : Lexer) (input : istream) : Result (Lexer * istream) :=
  match ProcessWord_loop (S (length (remaining input))) input [] with
  | Datatypes.None => OutOfFuel
  | Some (word, input') =>
      let word := string_of_list_ascii word in
      if IsKeyWord word then Ok (ProcessKeyWord word lx, input')
      else Ok (push_back (token_type.Id word) lx, input')
  end.

(** The loop of [ProcessIndent]:
    [while (input && static_cast<char>(input.peek()) == ' ') { input.get(); space_count++; }] *)
Fixpoint ProcessIndent_loop (fuel : nat) (input : istream) (space_count : nat)
  : option (nat * istream) :=
  match fuel with
  | O => Datatypes.None
  | S fuel' =>
      if negb (fail input) then
        let (c, input1) := peek input in
        if Ascii.eqb (to_char c) SPACE then
          let (_, input2) := get input1 in
          ProcessIndent_loop fuel' input2 (S space_count)
        else Some (space_count, input1)
      else Some (space_count, input)
  end.

(** [void Lexer::ProcessIndent(std::istream &input)]. *)
Definition ProcessIndent (lx : Lexer) (input : istream) : Result (Lexer * istream) :=
  match ProcessIndent_loop (S (length (remaining input))) input 0 with
  | Datatypes.None => OutOfFuel
  | Some (space_count, input1) =>
      let (c, input2) := peek input1 in
      if int_is c LF then Ok (lx, input2)
      else
        let indent := (space_count / 2)%nat in
        if (prev_indent lx <? indent)%nat then
          Ok (set_prev_indent indent
                (push_back_n (indent - prev_indent lx) token_type.Indent lx),
              input2)
        else if (indent <? prev_indent lx)%nat then
          Ok (set_prev_indent indent
                (push_back_n (prev_indent lx - indent) token_type.Dedent lx),
              input2)
        else Ok (lx, input2)
  end.

(** [bool Lexer::IsComparisonOperator(char left, char right) const]. *)
Definition IsComparisonOperator (left right : ascii) : bool :=
  let oper := String left (String right EmptyString) in
  String.eqb oper ">=" || String.eqb oper "==" || String.eqb oper "<="
  || String.eqb oper "!=".

(** [void Lexer::ProcessComparisonOperator(char left, char right)]. *)
Definition ProcessComparisonOperator (left right : ascii) (lx : Lexer) : Lexer :=
  let oper := String left (String right EmptyString) in
  if String.eqb oper ">=" then push_back token_type.GreaterOrEq lx
  else if String.eqb oper "<=" then push_back token_type.LessOrEq lx
  else if String.eqb oper "==" then push_back token_type.Eq lx
  else if String.eqb oper "!=" then push_back token_type.NotEq lx
  else lx.

(** [void Lexer::ProcessSymbol(char c)]. *)
Definition ProcessSymbol (c : ascii) (lx : Lexer) : Lexer :=
  push_back (token_type.Char c) lx.

(** [void Lexer::ProcessNextLine()]. *)
Definition ProcessNextLine (lx : Lexer) : Lexer :=
  match back lx with
  | Some t => if negb (Is_Newline t) then push_back token_type.Newline lx else lx
  | Datatypes.None => lx
  end.

(** The loop of [ProcessNum]:
    [while (std::isdigit(input.peek())) num_str.push_back(input.get());] *)
Fixpoint ProcessNum_loop (fuel : nat) (input : istream) (num_str : list ascii)
  : option (list ascii * istream) :=
  match fuel with
  | O => Datatypes.None
  | S fuel' =>
      let (c, input1) := peek input in
      if isdigit_int c then
        let (c', input2) := get input1 in
        ProcessNum_loop fuel' input2 (num_str ++ [to_char c'])
      else Some (num_str, input1)
  end.

Definition INT_MAX : Z := 2147483647.

(** The value of a string of decimal digits. *)
Definition decimal (digits : list ascii) : Z :=
  fold_left (fun acc c => (acc * 10 + (Z.of_nat (nat_of_ascii c) - 48))%Z) digits 0%Z.

(** [std::stoi(str)] on a string of decimal digits: no digits at all is
    [std::invalid_argument], a value that does not fit an [int] is
    [std::out_of_range]. *)
Definition stoi (str : list ascii) : Result Z :=
  match str with
  | [] => Throw (invalid_argument "stoi")
  | _ :: _ =>
      if (decimal str <=? INT_MAX)%Z then Ok (decimal str)
      else Throw (out_of_range "stoi")
  end.

(** [void Lexer::ProcessNum(std::istream &input)]. *)
Definition ProcessNum (lx : Lexer) (input : istream) : Result (Lexer * istream) :=
  match ProcessNum_loop (S (length (remaining input))) input [] with
  | Datatypes.None => OutOfFuel
  | Some (num_str, input') =>
      match stoi num_str with
      | Ok result => Ok (push_back (token_type.Number result) lx, input')
      | Throw e => Throw e
      | OutOfFuel => OutOfFuel
      end
  end.

(** The [do ... while] of [IgnoreComment]:
    [do { input.ignore(1024, '\n'); if (!input.eof()) input.unget(); }
     while (input.peek() != '\n' && !input.eof());] *)
Fixpoint IgnoreComment_loop (fuel : nat) (input : istream) : option istream :=
  match fuel with
  | O => Datatypes.None
  | S fuel' =>
      let input1 := ignore 1024 LF input in
      let input2 := if negb (eof input1) then unget input1 else input1 in
      let (c, input3) := peek input2 in
      if negb (int_is c LF) && negb (eof input3)
      then IgnoreComment_loop fuel' input3
      else Some input3
  end.

(** [void Lexer::IgnoreComment(std::istream &input)]. *)
Definition IgnoreComment (lx : Lexer) (input : istream) : Result (Lexer * istream) :=
  match IgnoreComment_loop (S (length (remaining input))) input with
  | Datatypes.None => OutOfFuel
  | Some input' => Ok (lx, input')
  end.

(** The [switch (escaped_char)] of [ProcessString]. *)
Definition escape (escaped_char : ascii) : option ascii :=
  if Ascii.eqb escaped_char "n"%char then Some LF
  else if Ascii.eqb escaped_char "t"%char then Some TAB
  else if Ascii.eqb escaped_char "r"%char then Some CR
  else if Ascii.eqb escaped_char DQUOTE then Some DQUOTE
  else if Ascii.eqb escaped_char SQUOTE then Some SQUOTE
  else if Ascii.eqb escaped_char BACKSLASH then Some BACKSLASH
  else Datatypes.None.

(** The [while (true)] of [ProcessString].  Its [std::istreambuf_iterator]
    reads the stream buffer directly: [it == end] asks [sgetc] for the end
    of the text, [*it] is [sgetc], [++it] is [sbumpc]. *)
Fixpoint ProcessString_loop (fuel : nat) (delim : ascii) (input : istream)
    (s : list ascii) : Result (list ascii * istream) :=
  match fuel with
  | O => OutOfFuel
  | S fuel' =>
      match sgetc input with
      | Datatypes.None => Throw (ParsingError "String parsing error")
      | Some ch =>
          if Ascii.eqb ch delim then Ok (s, sbumpc input)
          else if Ascii.eqb ch BACKSLASH then
            let input1 := sbumpc input in
            match sgetc input1 with
            | Datatypes.None => Throw (ParsingError "String parsing error")
            | Some escaped_char =>
                match escape escaped_char with
                | Some c => ProcessString_loop fuel' delim (sbumpc input1) (s ++ [c])
                | Datatypes.None =>
                    Throw (ParsingError
                             ("Unrecognized escape sequence "
                              +:+ String BACKSLASH (String escaped_char EmptyString)))
                end
            end
          else if Ascii.eqb ch LF || Ascii.eqb ch CR then
            Throw (ParsingError "Unexpected end of line")
          else ProcessString_loop fuel' delim (sbumpc input) (s ++ [ch])
      end
  end.

(** [void Lexer::ProcessString(std::istream &input)]. *)
Definition ProcessString (lx : Lexer) (input : istream) : Result (Lexer * istream) :=
  let (d, input1) := get input in
  let delim := to_char d in
  match ProcessString_loop (S (length (remaining input1))) delim input1 [] with
  | Ok (s, input') =>
      Ok (push_back (token_type.String (string_of_list_ascii s)) lx, input')
  | Throw e => Throw e
  | OutOfFuel => OutOfFuel
  end.

(** [void Lexer::ProcessNextToken(std::istream &input)]. *)
Definition ProcessNextToken (lx : Lexer) (input : istream) : Result (Lexer * istream) :=
  let (i, input1) := get input in
  let c := to_char i in
  if Ascii.eqb c LF then ProcessIndent (ProcessNextLine lx) input1
  else if Ascii.eqb c DQUOTE || Ascii.eqb c SQUOTE then
    ProcessString lx (putback c input1)
  else if Ascii.eqb c "_"%char || isalpha c then
    ProcessWord lx (putback c input1)
  else if isdigit c then
    ProcessNum lx (putback c input1)
  else if Ascii.eqb c "#"%char then
    IgnoreComment lx input1
  else if ispunct c then
    let (i2, input2) := get input1 in
    let second_symbol := to_char i2 in
    if IsComparisonOperator c second_symbol
    then Ok (ProcessComparisonOperator c second_symbol lx, input2)
    else Ok (ProcessSymbol c lx, putback second_symbol input2)
  else Ok (lx, input1).

(** The loop of [ProcessAllTokens]:
    [while (input.good()) ProcessNextToken(input);] *)
Fixpoint ProcessAllTokens_loop (fuel : nat) (lx : Lexer) (input : istream)
  : Result (Lexer * istream) :=
  match fuel with
  | O => OutOfFuel
  | S fuel' =>
      if good input then
        match ProcessNextToken lx input with
        | Ok (lx', input') => ProcessAllTokens_loop fuel' lx' input'
        | Throw e => Throw e
        | OutOfFuel => OutOfFuel
        end
      else Ok (lx, input)
  end.

(** [void Lexer::ProcessAllTokens(std::istream &input)].  Every iteration
    of the loop takes a character, but for the one that meets the end of
    the text and the one that finds the stream no longer good. *)
Definition ProcessAllTokens (lx : Lexer) (input : istream) : Result (Lexer * istream) :=
  match ProcessIndent lx input with
  | Ok (lx1, input1) =>
      match ProcessAllTokens_loop (S (S (length (remaining input1)))) lx1 input1 with
      | Ok (lx2, input2) =>
          let lx3 :=
            match back lx2 with
            | Some t =>
                if negb (Is_Dedent t) && negb (Is_Newline t)
                then ProcessNextLine lx2 else lx2
            | Datatypes.None => lx2
            end in
          Ok (push_back token_type.Eof lx3, input2)
      | Throw e => Throw e
      | OutOfFuel => OutOfFuel
      end
  | Throw e => Throw e
  | OutOfFuel => OutOfFuel
  end.

(** [explicit Lexer::Lexer(std::istream &input)]; the members start as
    [tokens_ = {}], [prev_indent = 0], [current_pos = 0]. *)
Definition new_Lexer (input : istream) : Result Lexer :=
  match ProcessAllTokens (mkLexer [] 0 0) input with
  | Ok (lx, _) => Ok lx
  | Throw e => Throw e
  | OutOfFuel => OutOfFuel
  end.

(** The tokens the lexer makes of a program text. *)
Definition tokenize (text : string) : Result (list Token) :=
  match new_Lexer (istream_of (list_ascii_of_string text)) with
  | Ok lx => Ok (tokens_ lx)
  | Throw e => Throw e
  | OutOfFuel => OutOfFuel
  end.

(** [const Token &Lexer::CurrentToken() const]. *)
Definition CurrentToken (lx : Lexer) : Token :=
  match nth_error (tokens_ lx) (current_pos lx) with
  | Some t => t
  | Datatypes.None => token_type.Eof
  end.

(** [Token Lexer::NextToken()]. *)
Definition NextToken (lx : Lexer) : Token * Lexer :=
  if (current_pos lx <? length (tokens_ lx))%nat then
    let lx' := mkLexer (tokens_ lx) (prev_indent lx) (S (current_pos lx)) in
    (CurrentToken lx', lx')
  else (token_type.Eof, lx).

(** *** Notions the specification speaks of *)

(** The state of [ProcessAllTokens] between two tokens: the lexer and the
    stream. *)
Definition State : Type := (Lexer * istream)%type.

(** Where [ProcessAllTokens] enters its loop on a program text. *)
Definition start (text : string) : Result State :=
  ProcessIndent (mkLexer [] 0 0) (istream_of (list_ascii_of_string text)).

(** [reaches st st']: the loop of [ProcessAllTokens], entered in [st], is
    in [st'] at the top of a later iteration. *)
Inductive reaches : State -> State -> Prop :=
| reaches_here st : reaches st st
| reaches_next lx input st1 st' :
    good input = true ->
    ProcessNextToken lx input = Ok st1 ->
    reaches st1 st' ->
    reaches (lx, input) st'.

(** The two characters that open a string literal. *)
Definition is_quote (c : ascii) : bool := Ascii.eqb c DQUOTE || Ascii.eqb c SQUOTE.

(** [Malformed delim text]: a string literal opened by [delim] and going on
    with [text] is malformed.  Either the text ends before the closing
    delimiter, right away or behind a backslash; or a line feed or a
    carriage return stands in the literal; or a backslash is followed by a
    character other than n, t, r, a quote of either kind and the
    backslash. *)
Inductive Malformed (delim : ascii) : list ascii -> Prop :=
| Malformed_unterminated :
    Malformed delim []
| Malformed_backslash_at_end :
    Malformed delim [BACKSLASH]
| Malformed_end_of_line ch rest :
    ch <> delim -> ch = LF \/ ch = CR ->
    Malformed delim (ch :: rest)
| Malformed_escape e rest :
    escape e = Datatypes.None ->
    Malformed delim (BACKSLASH :: e :: rest)
| Malformed_after_char ch rest :
    ch <> delim -> ch <> BACKSLASH ->
    Malformed delim rest ->
    Malformed delim (ch :: rest)
| Malformed_after_escape e c rest :
    escape e = Some c ->
    Malformed delim rest ->
    Malformed delim (BACKSLASH :: e :: rest).

(** Two [Newline] tokens side by side. *)
Definition consecutive_newlines (ts : list Token) : Prop :=
  exists i, ts !! i = Some token_type.Newline /\ ts !! S i = Some token_type.Newline.

(** How many tokens of a kind a list holds. *)
Definition count (kind : Token -> bool) (ts : list Token) : nat :=
  length (filter (fun t => kind t = true) ts).

(** A line of spaces only. *)
Definition spaces (k : nat) : list ascii := repeat SPACE k.

(** What [ProcessIndent] does to the lexer on a line that is not blank and
    starts at indentation [indent]. *)
Definition adjust_indent (indent : nat) (lx : Lexer) : Lexer :=
  if (prev_indent lx <? indent)%nat then
    set_prev_indent indent (push_back_n (indent - prev_indent lx) token_type.Indent lx)
  else if (indent <? prev_indent lx)%nat then
    set_prev_indent indent (push_back_n (prev_indent lx - indent) token_type.Dedent lx)
  else lx.

(** The tokens that stand for text of the program, as opposed to the
    layout tokens [Newline], [Indent], [Dedent] and to [Eof]. *)
Definition lexeme (t : Token) : bool :=
  negb (Is_Newline t || Is_Indent t || Is_Dedent t || Is_Eof t).

(** The characters of identifiers and keywords. *)
Definition is_word_char (c : ascii) : bool :=
  isalpha c || isdigit c || Ascii.eqb c "_"%char.

(** [pushes_lexemes lx lx']: from [lx] to [lx'] only lexemes were pushed,
    and the indentation level is the same. *)
Definition pushes_lexemes (lx lx' : Lexer) : Prop :=
  exists new,
    tokens_ lx' = tokens_ lx ++ new
    /\ Forall (fun t => lexeme t = true) new
    /\ prev_indent lx' = prev_indent lx.

(** What one iteration of the loop of [ProcessAllTokens] can do to the
    lexer: push lexemes, or end a line and, unless the next line is blank,
    set the indentation of the next. *)
Definition iteration (lx lx' : Lexer) : Prop :=
  pushes_lexemes lx lx'
  \/ lx' = ProcessNextLine lx
  \/ exists indent, lx' = adjust_indent indent (ProcessNextLine lx).

(** A result that is there, and leaves no more text than there was. *)
Definition sound (input : istream) (P : Lexer -> Prop) (r : Result State) : Prop :=
  match r with
  | Ok (lx', input') =>
      P lx' /\ length (remaining input') <= length (remaining input)
  | Throw _ => True
  | OutOfFuel => False
  end.

(** [in_line st st']: the loop goes from [st] to [st'] without reading a
    line feed; the iterations between work on one line of the text. *)
Inductive in_line : State -> State -> Prop :=
| in_line_here st : in_line st st
| in_line_next lx input c st1 st' :
    good input = true ->
    hd_error (remaining input) = Some c -> c <> LF ->
    ProcessNextToken lx input = Ok st1 ->
    in_line st1 st' ->
    in_line (lx, input) st'.

(** The lexer is at the start of a line: behind a [Newline], or before
    any token. *)
Definition at_line_start (lx : Lexer) : Prop :=
  back lx = Datatypes.None \/ back lx = Some token_type.Newline.

(** The indentation a lexer has reached is the number of [Indent]s it has
    pushed less the number of [Dedent]s, and no prefix of its tokens has
    more [Dedent]s than [Indent]s. *)
Definition indentation_kept (lx : Lexer) : Prop :=
  (forall k, count Is_Dedent (take k (tokens_ lx))
             <= count Is_Indent (take k (tokens_ lx)))
  /\ count Is_Indent (tokens_ lx) = count Is_Dedent (tokens_ lx) + prev_indent lx.

(** Program texts to run the lexer on. *)
Definition nl : string := String LF EmptyString.

(** An [if] whose indented last line has no line feed behind it, and the
    same with the line feed. *)
Definition program_without_last_line_feed : string :=
  "if x:" +:+ nl +:+ "  y".
Definition program_with_last_line_feed : string :=
  "if x:" +:+ nl +:+ "  y" +:+ nl.

(** Literals that are malformed: no closing quote, a line feed inside, an
    escape sequence that does not exist. *)
Definition program_unterminated_string : string := "x = 'abc".
Definition program_line_feed_in_string : string := "x = 'ab" +:+ nl +:+ "c'".
Definition program_unknown_escape : string := "x = 'a\qc'".

(** Lines, blank lines and a comment. *)
Definition program_with_blank_lines : string :=
  "x = 1" +:+ nl +:+ nl +:+ "   " +:+ nl +:+ "# note" +:+ nl +:+ "print x" +:+ nl.

(** An [if] whose body is followed by a comment at the margin, which is
    the last line and has no line feed behind it. *)
Definition program_with_last_comment_line : string :=
  "if x:" +:+ nl +:+ "  y" +:+ nl +:+ "# c".

(** [ProcessNextLine], when a [Newline] is outstanding. *)
Definition ProcessNextLine_if (outstanding : bool) (lx : Lexer) : Lexer :=
  if outstanding then ProcessNextLine lx else lx.

(** [reads input input' chars]: [input'] is [input] with the characters
    [chars] read. *)
Definition reads (input input' : istream) (chars : list ascii) : Prop :=
  consumed input' = rev chars ++ consumed input
  /\ remaining input = chars ++ remaining input'.

(** A stream that is no longer good is at the end of its text. *)
Definition bad_at_end (input : istream) : Prop :=
  good input = false -> remaining input = [].

(** [closed_behind_line_feed st]: when the whole text is read and its last
    character is a line feed, the indentation is back at zero and the
    stream is no longer good. *)
Definition closed_behind_line_feed (st : State) : Prop :=
  remaining (snd st) = [] -> hd_error (consumed (snd st)) = Some LF ->
  prev_indent (fst st) = 0 /\ good (snd st) = false.

(** What holds between the iterations of the loop of [ProcessAllTokens]
    on [text]: the stream is the text, read up to some point; a stream
    that is not good is at its end; and behind a last line feed the
    indentation is closed. *)
Definition between_iterations (text : list ascii) (st : State) : Prop :=
  (exists chars, reads (istream_of text) (snd st) chars)
  /\ bad_at_end (snd st)
  /\ closed_behind_line_feed st.

(** *** [operator==], [operator!=] and [operator<<] on tokens *)

(** [std::variant::index()]: the place of the alternative held, in the
    order of [TokenBase]. *)
Definition index (t : Token) : nat :=
  match t with
  | token_type.Number _ => 0
  | token_type.Id _ => 1
  | token_type.Char _ => 2
  | token_type.String _ => 3
  | token_type.Class => 4
  | token_type.Return => 5
  | token_type.If => 6
  | token_type.Else => 7
  | token_type.Def => 8
  | token_type.Newline => 9
  | token_type.Print => 10
  | token_type.Indent => 11
  | token_type.Dedent => 12
  | token_type.And => 13
  | token_type.Or => 14
  | token_type.Not => 15
  | token_type.Eq => 16
  | token_type.NotEq => 17
  | token_type.LessOrEq => 18
  | token_type.GreaterOrEq => 19
  | token_type.None => 20
  | token_type.True => 21
  | token_type.False => 22
  | token_type.Eof => 23
  end.

(** [t.Is<T>()], which is [std::holds_alternative<T>(t)].  The type [T] is
    given by a token that holds it. *)
Definition Is (T t : Token) : bool := Nat.eqb (index t) (index T).

(** [t.TryAs<T>()] for the four alternatives that have a [value]: the
    value, when [t] holds a [T]. *)
Definition TryAs_Number (t : Token) : option Z :=
  match t with token_type.Number v => Some v | _ => Datatypes.None end.
Definition TryAs_Id (t : Token) : option string :=
  match t with token_type.Id v => Some v | _ => Datatypes.None end.
Definition TryAs_String (t : Token) : option string :=
  match t with token_type.String v => Some v | _ => Datatypes.None end.
Definition TryAs_Char (t : Token) : option ascii :=
  match t with token_type.Char v => Some v | _ => Datatypes.None end.

(** [bool operator==(const Token &lhs, const Token &rhs)]: the indices
    first, then [VALUED_COMPARE] for [Number], [Id], [String], [Char] in
    turn, then [return true]. *)
Definition operator_eq (lhs rhs : Token) : bool :=
  if negb (Nat.eqb (index lhs) (index rhs)) then false
  else
    match TryAs_Number lhs, TryAs_Number rhs with
    | Some l, Some r => (l =? r)%Z
    | _, _ =>
        match TryAs_Id lhs, TryAs_Id rhs with
        | Some l, Some r => String.eqb l r
        | _, _ =>
            match TryAs_String lhs, TryAs_String rhs with
            | Some l, Some r => String.eqb l r
            | _, _ =>
                match TryAs_Char lhs, TryAs_Char rhs with
                | Some l, Some r => Ascii.eqb l r
                | _, _ => true
                end
            end
        end
    end.

(** [bool operator!=(const Token &lhs, const Token &rhs)]. *)
Definition operator_ne (lhs rhs : Token) : bool := negb (operator_eq lhs rhs).

(** The names [UNVALUED_OUTPUT] is used with, in its order, each with a
    token of the type it names. *)
Definition UNVALUED_OUTPUT : list (Token * string) :=
  [ (token_type.Class, "Class"); (token_type.Return, "Return");
    (token_type.If, "If"); (token_type.Else, "Else"); (token_type.Def, "Def");
    (token_type.Newline, "Newline"); (token_type.Print, "Print");
    (token_type.Indent, "Indent"); (token_type.Dedent, "Dedent");
    (token_type.And, "And"); (token_type.Or, "Or"); (token_type.Not, "Not");
    (token_type.Eq, "Eq"); (token_type.NotEq, "NotEq");
    (token_type.LessOrEq, "LessOrEq"); (token_type.GreaterOrEq, "GreaterOrEq");
    (token_type.None, "None"); (token_type.True, "True");
    (token_type.False, "False"); (token_type.Eof, "Eof") ].

(** The chain of [if (rhs.Is<type>()) return os << #type;] and the
    [return os << "Unknown token :("] behind it. *)
Fixpoint unvalued_output (names : list (Token * string)) (rhs : Token) : string :=
  match names with
  | (T, type) :: names' => if Is T rhs then type else unvalued_output names' rhs
  | [] => "Unknown token :("
  end.

(** [std::ostream &operator<<(std::ostream &os, const Token &rhs)]: the
    text written to [os].  [VALUED_OUTPUT] writes the name of the type and
    the value in braces; an [int] is written in decimal, a [char] and a
    string as they are. *)
Definition operator_lshift (rhs : Token) : string :=
  match TryAs_Number rhs with
  | Some value => "Number" +:+ "{" +:+ pretty value +:+ "}"
  | Datatypes.None =>
      match TryAs_Id rhs with
      | Some value => "Id" +:+ "{" +:+ value +:+ "}"
      | Datatypes.None =>
          match TryAs_String rhs with
          | Some value => "String" +:+ "{" +:+ value +:+ "}"
          | Datatypes.None =>
              match TryAs_Char rhs with
              | Some value => "Char" +:+ "{" +:+ String value "}"
              | Datatypes.None => unvalued_output UNVALUED_OUTPUT rhs
              end
          end
      end
  end.

(** *** [Expect] and [ExpectNext] *)

(** [template <typename T> const T &Lexer::Expect() const]; the type [T]
    is given by a token that holds it. *)
Definition Expect (T : Token) (lx : Lexer) : Result Token :=
  if Is T (CurrentToken lx) then Ok (CurrentToken lx)
  else Throw (LexerError "Incorect type in lexer::Expect()").

(** [token->value == value], for a [token] that holds the type of
    [expected]; the type [T] and the [value] are given together, as the
    token [T{value}]. *)
Definition value_is (token expected : Token) : bool :=
  match token, expected with
  | token_type.Number v, token_type.Number value => (v =? value)%Z
  | token_type.Id v, token_type.Id value => String.eqb v value
  | token_type.Char v, token_type.Char value => Ascii.eqb v value
  | token_type.String v, token_type.String value => String.eqb v value
  | _, _ => false
  end.

(** [template <typename T, typename U> void Lexer::Expect(const U &value) const],
    which is there for the types [T] that have a [value]. *)
Definition Expect_value (expected : Token) (lx : Lexer) : Result unit :=
  if Is expected (CurrentToken lx) && value_is (CurrentToken lx) expected
  then Ok tt
  else Throw (LexerError "Incorect type or value in lexer::Expect(value)").

(** [template <typename T> const T &Lexer::ExpectNext()]: the result and
    the lexer, which has moved on in either case. *)
Definition ExpectNext (T : Token) (lx : Lexer) : Result Token * Lexer :=
  let (_, lx') := NextToken lx in
  (if Is T (CurrentToken lx') then Ok (CurrentToken lx')
   else Throw (LexerError "Incorect type in lexer::ExpectNext()"),
   lx').

(** [template <typename T, typename U> void Lexer::ExpectNext(const U &value)],
    which looks at the token [NextToken] returned. *)
Definition ExpectNext_value (expected : Token) (lx : Lexer) : Result unit * Lexer :=
  let (token, lx') := NextToken lx in
  (if Is expected token && value_is token expected then Ok tt
   else Throw (LexerError "Incorect type or value lexer::ExpectNext()"),
   lx').

(** *** Further notions for the properties of the lexer *)

(** The longest run of characters of a class at the head of a text, and
    the text behind it. *)
Fixpoint run (class : ascii -> bool) (text : list ascii) : list ascii * list ascii :=
  match text with
  | c :: text' =>
      if class c then let (w, rest) := run class text' in (c :: w, rest)
      else ([], text)
  | [] => ([], [])
  end.

(** A stream with nothing but the read position moved: [before] read,
    [rest] to come. *)
Definition at_position (before rest : list ascii) : istream :=
  mkIstream before rest false false false.

(** A stream that reached [rest] and looked at its first character: at
    the end of the text the first look sets [eofbit], and a second look,
    when there was one, [failbit]. *)
Definition looked_at (twice : bool) (before rest : list ascii) : istream :=
  match rest with
  | [] => mkIstream before [] true twice false
  | _ :: _ => at_position before rest
  end.

(** The token of a word: the keyword's, or an [Id]. *)
Definition word_token (word : string) : Token :=
  match find KEYWORD_TO_TOKEN word with
  | Some t => t
  | Datatypes.None => token_type.Id word
  end.

(** The tokens an indentation of [indent] levels pushes at the level
    [prev]: an [Indent] for each level up, a [Dedent] for each level
    down. *)
Definition indent_tokens (prev indent : nat) : list Token :=
  repeat token_type.Indent (indent - prev) ++ repeat token_type.Dedent (prev - indent).

(** The characters [ProcessNextToken] has no branch for: they are read and
    dropped. *)
Definition skipped (c : ascii) : bool :=
  negb (Ascii.eqb c LF || is_quote c || Ascii.eqb c "_"%char || isalpha c
        || isdigit c || Ascii.eqb c "#"%char || ispunct c).

(** The punctuation [ProcessNextToken] makes operators and [Char] tokens
    of: the quotes, the underscore and the hash have gone other ways. *)
Definition is_symbol (c : ascii) : bool :=
  ispunct c && negb (is_quote c || Ascii.eqb c "_"%char || Ascii.eqb c "#"%char).

(** The token of a comparison operator. *)
Definition comparison_token (left right : ascii) : option Token :=
  if Ascii.eqb right "="%char then
    if Ascii.eqb left ">"%char then Some token_type.GreaterOrEq
    else if Ascii.eqb left "<"%char then Some token_type.LessOrEq
    else if Ascii.eqb left "="%char then Some token_type.Eq
    else if Ascii.eqb left "!"%char then Some token_type.NotEq
    else Datatypes.None
  else Datatypes.None.

(** How a character of a string value is written in a literal: the line
    feed, the carriage return and the tab by their letters behind a
    backslash, the quotes and the backslash behind a backslash, any other
    character as it is. *)
Definition escaped (c : ascii) : list ascii :=
  if Ascii.eqb c LF then [BACKSLASH; "n"%char]
  else if Ascii.eqb c CR then [BACKSLASH; "r"%char]
  else if Ascii.eqb c TAB then [BACKSLASH; "t"%char]
  else if Ascii.eqb c DQUOTE || Ascii.eqb c SQUOTE || Ascii.eqb c BACKSLASH
  then [BACKSLASH; c]
  else [c].

(** The text of a literal between its quotes. *)
Definition literal (value : list ascii) : list ascii := flat_map escaped value.

(** A character that stands for itself in a literal opened by [delim]. *)
Definition plain (delim c : ascii) : bool :=
  negb (Ascii.eqb c delim || Ascii.eqb c BACKSLASH || Ascii.eqb c LF || Ascii.eqb c CR).

(** [encodes delim text value]: the text of a literal between its quotes
    [delim] stands for the string [value]: a plain character for itself, a
    backslash and a letter [escape] knows for the character of that
    letter. *)
Inductive encodes (delim : ascii) : list ascii -> list ascii -> Prop :=
| encodes_nil :
    encodes delim [] []
| encodes_plain c text value :
    plain delim c = true ->
    encodes delim text value ->
    encodes delim (c :: text) (c :: value)
| encodes_escape e c text value :
    escape e = Some c ->
    encodes delim text value ->
    encodes delim (BACKSLASH :: e :: text) (c :: value).

(** What the tokens of a lexer are made of: a [Number] is an [int] that
    is not negative; an [Id] is a word that does not start with a digit
    and is not a keyword; a [Char] is a symbol. *)
Definition well_formed (t : Token) : bool :=
  match t with
  | token_type.Number v => (0 <=? v)%Z && (v <=? INT_MAX)%Z
  | token_type.Id w =>
      match list_ascii_of_string w with
      | c :: chars =>
          negb (isdigit c) && forallb is_word_char (c :: chars) && negb (IsKeyWord w)
      | [] => false
      end
  | token_type.Char c => is_symbol c
  | _ => true
  end.

(** What holds of the lexer all through [ProcessAllTokens]: its tokens
    are well formed, none of them is [Eof], the first is no [Newline], and
    the reading position is at the start. *)
Definition under_construction (lx : Lexer) : Prop :=
  Forall (fun t => well_formed t = true /\ Is_Eof t = false) (tokens_ lx)
  /\ hd_error (tokens_ lx) <> Some token_type.Newline
  /\ current_pos lx = 0.

(** [k] calls of [NextToken]. *)
Fixpoint advance (k : nat) (lx : Lexer) : Lexer :=
  match k with
  | O => lx
  | S k' => advance k' (snd (NextToken lx))
  end.

End Lexer.

(** * Properties of the class runtime *)

Module RuntimeSpec.
Import Runtime.

Section Facts.

Context {Executable : Type}.
Variable Execute : Executable -> Closure Executable -> M Executable (ObjectHolder Executable).
Variable show_pointer : address -> string.

Implicit Types (c cls : Class Executable) (v lhs rhs : ObjectHolder Executable).
Implicit Types (h : Heap Executable) (m nm : string) (this : address).

(** ** Computations *)

Lemma append_empty_r (s : string) : s +:+ "" = s.
Proof.
  induction s as [|a s IH]; [reflexivity|].
  change (String a (s +:+ "") = String a s). now f_equal.
Qed.

Lemma append_assoc (s1 s2 s3 : string) : (s1 +:+ s2) +:+ s3 = s1 +:+ (s2 +:+ s3).
Proof.
  induction s1 as [|a s1 IH]; [reflexivity|].
  change (String a ((s1 +:+ s2) +:+ s3) = String a (s1 +:+ (s2 +:+ s3))). now f_equal.
Qed.

Lemma run_eta {A} (r : Run Executable A) :
  mkRun (outcome r) (heap_after r) (written r) = r.
Proof. now destruct r. Qed.

Lemma bind_ret_fmap {A B} (m : M Executable A) (f : A -> B) h :
  bind m (fun a => ret (f a)) h = fmap_run f (m h).
Proof.
  unfold bind, fmap_run, ret. destruct (m h) as [[a|e|] h' w]; simpl;
    [now rewrite append_empty_r | reflexivity | reflexivity].
Qed.

Lemma fmap_run_compose {A B C} (f : A -> B) (g : B -> C) (r : Run Executable A) :
  fmap_run g (fmap_run f r) = fmap_run (fun a => g (f a)) r.
Proof. unfold fmap_run. now destruct r as [[a|e|] h' w]. Qed.

Lemma fmap_run_id {A} (f : A -> A) (r : Run Executable A) :
  (forall a, f a = a) -> fmap_run f r = r.
Proof. intros Hf. unfold fmap_run. destruct r as [[a|e|] h' w]; simpl; now rewrite ?Hf. Qed.

Lemma fails_fmap_run {A B} (f : A -> B) (r : Run Executable A) :
  fails (fmap_run f r) = fails r.
Proof. unfold fails, fmap_run. now destruct r as [[a|e|] h' w]. Qed.

(** ** Method tables and resolution *)

(** Induction along the inheritance chain. *)
Lemma Class_chain_ind (P : Class Executable -> Prop) :
  (forall name_ methods_ parent_,
      (forall p, parent_ = Some p -> P p) -> P (mkClass name_ methods_ parent_)) ->
  forall c, P c.
Proof.
  intros Hstep.
  fix IH 1. intros [n ms [p|]].
  - apply Hstep. intros p' [= <-]. apply IH.
  - apply Hstep. intros p' [=].
Qed.


Lemma GetMethod_unfold c nm :
  GetMethod c nm =
  match metod_name_to_ptr_ c !! nm with
  | Some method => Some method
  | None =>
      match parent_ c with
      | Some parent => GetMethod parent nm
      | None => None
      end
  end.
Proof. destruct c as [n ms [p|]]; reflexivity. Qed.

Lemma GetMethod_own c nm method :
  metod_name_to_ptr_ c !! nm = Some method -> GetMethod c nm = Some method.
Proof. intros H. rewrite GetMethod_unfold, H. reflexivity. Qed.

Lemma GetMethod_inherited c parent nm :
  metod_name_to_ptr_ c !! nm = None -> parent_ c = Some parent ->
  GetMethod c nm = GetMethod parent nm.
Proof. intros H Hp. rewrite GetMethod_unfold, H, Hp. reflexivity. Qed.

Lemma HasMethod_spec cls nm n :
  HasMethod cls nm n = true <->
  exists method, GetMethod cls nm = Some method /\ length (formal_params method) = n.
Proof.
  unfold HasMethod. destruct (GetMethod cls nm) as [method|].
  - rewrite Nat.eqb_eq. split.
    + intros H. exists method. now split.
    + intros (method' & Heq & Hlen). now inversion Heq; subst.
  - split; [discriminate | intros (method & Heq & _); discriminate].
Qed.

Lemma Call_no_method this cls nm args h :
  HasMethod cls nm (length args) = false ->
  Call Execute this cls nm args h = throw (runtime_error "Cannot call method") h.
Proof. intros H. unfold Call. now rewrite H. Qed.

Lemma Call_dispatch this cls nm args method h :
  GetMethod cls nm = Some method ->
  length (formal_params method) = length args ->
  Call Execute this cls nm args h =
  Execute (body method) (call_scope this cls method args) h.
Proof.
  intros Hget Hlen. unfold Call, HasMethod. rewrite Hget.
  apply Nat.eqb_eq in Hlen. now rewrite Hlen.
Qed.


(** ** The scope of a call *)

Lemma bind_params_lookup (formals : list string)
    (actuals : list (ObjectHolder Executable)) (args : Closure Executable) (k : string) :
  bind_params formals actuals args !! k =
  match bound_argument k formals actuals with
  | Some a => Some a
  | None => args !! k
  end.
Proof.
  revert actuals args.
  induction formals as [|f formals IH]; intros [|a actuals] args; simpl; try reflexivity.
  rewrite IH. destruct (bound_argument k formals actuals) as [b|]; [reflexivity|].
  destruct (String.eqb_spec f k) as [->|Hne].
  - unfold Closure. now rewrite lookup_insert_eq.
  - unfold Closure. now rewrite lookup_insert_ne.
Qed.

Lemma bound_argument_not_formal (k : string) (formals : list string)
    (actuals : list (ObjectHolder Executable)) :
  k ∉ formals -> bound_argument k formals actuals = None.
Proof.
  revert actuals. induction formals as [|f formals IH]; intros [|a actuals] Hk;
    simpl; try reflexivity.
  apply not_elem_of_cons in Hk as [Hne Hk]. rewrite (IH _ Hk).
  destruct (String.eqb_spec f k); congruence.
Qed.

Lemma bound_argument_NoDup (formals : list string)
    (actuals : list (ObjectHolder Executable)) (i : nat) (f : string) :
  NoDup formals -> length formals = length actuals ->
  formals !! i = Some f -> bound_argument f formals actuals = actuals !! i.
Proof.
  revert actuals i.
  induction formals as [|g formals IH]; intros [|a actuals] i Hnd Hlen Hi;
    simpl in *; try discriminate.
  apply NoDup_cons in Hnd as [Hg Hnd]. destruct i as [|i]; simpl in *.
  - inversion Hi; subst. rewrite bound_argument_not_formal by assumption.
    now rewrite String.eqb_refl.
  - rewrite (IH actuals i) by (assumption || congruence).
    assert (Hin : f ∈ formals) by (eapply list_elem_of_lookup_2; eassumption).
    destruct (actuals !! i) as [b|] eqn:Hb; [reflexivity|].
    apply lookup_ge_None in Hb. apply lookup_lt_Some in Hi. lia.
Qed.

Lemma call_scope_lookup this cls (method : Method Executable)
    (args : list (ObjectHolder Executable)) (k : string) :
  call_scope this cls method args !! k =
  match bound_argument k (formal_params method) args with
  | Some a => Some a
  | None =>
      if String.eqb k "self" then Some (Share this (OClassInstance cls)) else None
  end.
Proof.
  unfold call_scope. rewrite bind_params_lookup.
  destruct (bound_argument k (formal_params method) args); [reflexivity|].
  unfold Closure. destruct (String.eqb_spec k "self") as [->|Hne].
  - now rewrite lookup_insert_eq.
  - rewrite lookup_insert_ne by congruence. apply lookup_empty.
Qed.

(** ** Truthiness *)

(** C4.  [IsTrue v] is true exactly for a [Number] other than 0, the [Bool]
    true and a non-empty [String]; for every instance, every class and the
    empty holder it is false.  [IsTrue] is a total function to [bool]: it
    cannot fail. *)
Theorem C4_IsTrue_truthiness v :
  (IsTrue v = true <->
     (exists p n, Get v = Some (p, ONumber n) /\ n <> 0%Z)
     \/ (exists p, Get v = Some (p, OBool true))
     \/ (exists p s, Get v = Some (p, OString s) /\ s <> ""))
  /\ (forall p c, Get v = Some (p, OClassInstance c) -> IsTrue v = false)
  /\ (forall p c, Get v = Some (p, OClass c) -> IsTrue v = false)
  /\ (Get v = None -> IsTrue v = false).
Proof.
  unfold IsTrue. repeat split.
  - destruct (Get v) as [[p [n|s|b|c|c]]|]; simpl; intros H; try discriminate.
    + left. exists p, n. split; [reflexivity|].
      apply negb_true_iff, Z.eqb_neq in H. exact H.
    + right; right. exists p, s. split; [reflexivity|].
      destruct s; [discriminate | congruence].
    + right; left. exists p. now subst b.
  - intros [(p & n & -> & Hn) | [(p & ->) | (p & s & -> & Hs)]]; simpl.
    + apply negb_true_iff, Z.eqb_neq. exact Hn.
    + reflexivity.
    + destruct s; [congruence | reflexivity].
  - intros p c ->. reflexivity.
  - intros p c ->. reflexivity.
  - intros ->. reflexivity.
Qed.

(** ** Method resolution and dispatch *)

(** C5.  [GetMethod] looks in the class's own method table first, on a
    miss asks the parent, and gives nothing at the root.  So for [B]
    deriving from [A]: when [B]'s table has [m] with the arity of the
    call, a call of [m] on an instance of [B] runs the body of [B]'s [m];
    when only [A]'s table has it, the call runs the body of [A]'s [m]. *)
Theorem C5_method_resolution_and_dispatch (B A : Class Executable) m
    this (args : list (ObjectHolder Executable)) h :
  parent_ B = Some A ->
  (GetMethod B m =
     match metod_name_to_ptr_ B !! m with
     | Some method => Some method
     | None => GetMethod A m
     end)
  /\ (parent_ A = None -> GetMethod A m = metod_name_to_ptr_ A !! m)
  /\ (forall mB mA,
        metod_name_to_ptr_ B !! m = Some mB ->
        metod_name_to_ptr_ A !! m = Some mA ->
        length (formal_params mB) = length args ->
        GetMethod B m = Some mB
        /\ Call Execute this B m args h =
           Execute (body mB) (call_scope this B mB args) h)
  /\ (forall mA,
        metod_name_to_ptr_ B !! m = None ->
        metod_name_to_ptr_ A !! m = Some mA ->
        length (formal_params mA) = length args ->
        GetMethod B m = Some mA
        /\ Call Execute this B m args h =
           Execute (body mA) (call_scope this B mA args) h).
Proof.
  intros Hparent. repeat split.
  - rewrite GetMethod_unfold, Hparent. reflexivity.
  - intros Hroot. rewrite GetMethod_unfold, Hroot.
    now destruct (metod_name_to_ptr_ A !! m).
  - now apply GetMethod_own.
  - apply Call_dispatch; [now apply GetMethod_own | assumption].
  - rewrite (GetMethod_inherited B A) by assumption. now apply GetMethod_own.
  - apply Call_dispatch; [|assumption].
    rewrite (GetMethod_inherited B A) by assumption. now apply GetMethod_own.
Qed.

(** C10.  A method of [B]'s own table hides every method of the same name
    further up, whatever their arities: when [B]'s [m] takes [j]
    parameters and an ancestor's [m] takes [k <> j], an instance of [B]
    has no method [m] of arity [k], and calling [m] with [k] arguments is
    the runtime error of [Call]; nothing is executed. *)
Theorem C10_name_shadowing_precedes_arity (B A : Class Executable) m
    (mB mA : Method Executable) (j k : nat) this
    (args : list (ObjectHolder Executable)) h :
  metod_name_to_ptr_ B !! m = Some mB ->
  length (formal_params mB) = j ->
  A ∈ ancestors B ->
  metod_name_to_ptr_ A !! m = Some mA ->
  length (formal_params mA) = k ->
  k <> j ->
  length args = k ->
  HasMethod B m k = false
  /\ GetMethod B m = Some mB
  /\ Call Execute this B m args h = throw (runtime_error "Cannot call method") h.
Proof.
  intros HB Hj _ _ _ Hkj Hargs.
  assert (Hget : GetMethod B m = Some mB) by now apply GetMethod_own.
  assert (Hhas : HasMethod B m k = false).
  { unfold HasMethod. rewrite Hget, Hj. apply Nat.eqb_neq. congruence. }
  repeat split; [exact Hhas | exact Hget |].
  apply Call_no_method. now rewrite Hargs.
Qed.

(** C6, as the code has it.  [Call] ends in its runtime error "Cannot call
    method", having run nothing, exactly when [HasMethod(name, |args|)] is
    false.  Otherwise its outcome is that of the body of the resolved
    method, run against a scope made by binding [self] to a non-owning
    handle to the instance and then each formal parameter, in order, to
    its actual argument.  A later binding replaces an earlier one of the
    same name: a name denotes the argument of the last parameter called
    so; [self] denotes the instance unless a parameter is called [self];
    no other name is bound. *)
Theorem C6_Call_scope this cls nm (args : list (ObjectHolder Executable)) h :
  (HasMethod cls nm (length args) = false ->
     Call Execute this cls nm args h = throw (runtime_error "Cannot call method") h)
  /\ (HasMethod cls nm (length args) = true ->
      exists method,
        GetMethod cls nm = Some method
        /\ length (formal_params method) = length args
        /\ Call Execute this cls nm args h =
           Execute (body method) (call_scope this cls method args) h
        /\ (forall k : string,
              call_scope this cls method args !! k =
              match bound_argument k (formal_params method) args with
              | Some a => Some a
              | None =>
                  if String.eqb k "self"
                  then Some (Share this (OClassInstance cls)) else None
              end)
        /\ ("self" ∉ formal_params method ->
            call_scope this cls method args !! "self" =
            Some (Share this (OClassInstance cls)))
        /\ (NoDup (formal_params method) ->
            forall i f, formal_params method !! i = Some f ->
                        call_scope this cls method args !! f = args !! i
                        /\ is_Some (args !! i))).
Proof.
  split; [apply Call_no_method|].
  intros Hhas. apply HasMethod_spec in Hhas as (method & Hget & Hlen).
  exists method.
  split; [assumption|]. split; [assumption|].
  split; [now apply Call_dispatch|].
  split; [apply call_scope_lookup|].
  split; [|intros Hnd i f Hi; split].
  - intros Hself. rewrite call_scope_lookup.
    now rewrite bound_argument_not_formal.
  - rewrite call_scope_lookup.
    rewrite (bound_argument_NoDup _ _ i) by assumption.
    destruct (args !! i) as [a|] eqn:Ha; [reflexivity|].
    apply lookup_ge_None in Ha. apply lookup_lt_Some in Hi. lia.
  - apply lookup_lt_is_Some. apply lookup_lt_Some in Hi. lia.
Qed.

(** ** Equality and the comparisons *)

(** C1.  [Equal] decides in this order: both sides empty, true; else a
    left side that is an instance answers with [IsTrue] of its [__eq__]
    called on the right side when it has [__eq__] of arity 1, and is a
    runtime error when it has not; else two [Bool]s, two [Number]s or two
    [String]s are compared by value; anything else is a runtime error. *)
Theorem C1_Equal_rule_order lhs rhs h :
  (Get lhs = None -> Get rhs = None -> Equal Execute lhs rhs h = ret true h)
  /\ (forall this cls,
        Get lhs = Some (this, OClassInstance cls) ->
        (HasMethod cls EQUAL_METHOD 1 = true ->
           Equal Execute lhs rhs h =
           fmap_run IsTrue (Call Execute this cls EQUAL_METHOD [rhs] h))
        /\ (HasMethod cls EQUAL_METHOD 1 = false ->
            Equal Execute lhs rhs h =
            throw (runtime_error "Cannot compare objects for equality") h))
  /\ (forall p q (a b : bool),
        Get lhs = Some (p, OBool a) -> Get rhs = Some (q, OBool b) ->
        Equal Execute lhs rhs h = ret (bool_decide (a = b)) h)
  /\ (forall p q (a b : Z),
        Get lhs = Some (p, ONumber a) -> Get rhs = Some (q, ONumber b) ->
        Equal Execute lhs rhs h = ret (bool_decide (a = b)) h)
  /\ (forall p q (a b : string),
        Get lhs = Some (p, OString a) -> Get rhs = Some (q, OString b) ->
        Equal Execute lhs rhs h = ret (bool_decide (a = b)) h)
  /\ (~ (Get lhs = None /\ Get rhs = None) ->
      as_ClassInstance (Get lhs) = None ->
      scalar_kind lhs = None \/ scalar_kind lhs <> scalar_kind rhs ->
      Equal Execute lhs rhs h =
      throw (runtime_error "Cannot compare objects for equality") h).
Proof.
  unfold Equal, scalar_kind.
  split; [intros -> ->; reflexivity|].
  split.
  { intros this cls ->. simpl. split; intros ->.
    - destruct (Get rhs); apply bind_ret_fmap.
    - now destruct (Get rhs). }
  split.
  { intros p q a b -> ->. simpl. f_equal.
    destruct a, b; reflexivity. }
  split.
  { intros p q a b -> ->. simpl. f_equal.
    destruct (Z.eqb_spec a b) as [->|Hne].
    - now rewrite bool_decide_eq_true_2.
    - now rewrite bool_decide_eq_false_2. }
  split.
  { intros p q a b -> ->. simpl. f_equal.
    destruct (String.eqb_spec a b) as [->|Hne].
    - now rewrite bool_decide_eq_true_2.
    - now rewrite bool_decide_eq_false_2. }
  intros Hnone Hinst Hkind.
  destruct (Get lhs) as [[p [a|a|a|c|c]]|], (Get rhs) as [[q [b|b|b|d|d]]|];
    simpl in *; try reflexivity; try discriminate;
    try (destruct Hkind; congruence).
  exfalso. now apply Hnone.
Qed.

Lemma or_else_returned_true (m1 m2 : M Executable bool) h :
  outcome (m1 h) = Returned true ->
  or_else m1 m2 h = m1 h.
Proof.
  intros H. unfold or_else, bind, ret. rewrite H. simpl.
  rewrite append_empty_r, <- H. apply run_eta.
Qed.

Lemma or_else_returned_false (m1 m2 : M Executable bool) h :
  outcome (m1 h) = Returned false ->
  or_else m1 m2 h =
  mkRun (outcome (m2 (heap_after (m1 h)))) (heap_after (m2 (heap_after (m1 h))))
        (written (m1 h) +:+ written (m2 (heap_after (m1 h)))).
Proof. intros H. unfold or_else, bind. now rewrite H. Qed.

Lemma or_else_fails (m1 m2 : M Executable bool) h :
  fails (or_else m1 m2 h) = true <->
  fails (m1 h) = true
  \/ (outcome (m1 h) = Returned false /\ fails (m2 (heap_after (m1 h))) = true).
Proof.
  unfold or_else, bind, fails, ret.
  destruct (m1 h) as [[[|]|e|] h1 w1]; simpl.
  - split; [discriminate | intros [?|[? _]]; discriminate].
  - destruct (m2 h1) as [[b|e|] h2 w2]; simpl.
    + split; [discriminate | intros [?|[_ ?]]; discriminate].
    + split; [now right | reflexivity].
    + split; [now right | reflexivity].
  - split; [now left | reflexivity].
  - split; [now left | reflexivity].
Qed.

Lemma Greater_or_else lhs rhs h :
  Greater Execute lhs rhs h =
  fmap_run negb (or_else (Less Execute lhs rhs) (Equal Execute lhs rhs) h).
Proof.
  unfold Greater, or_else, bind, fmap_run, ret.
  destruct (Less Execute lhs rhs h) as [[[|]|e|] h1 w1]; simpl; try reflexivity.
  destruct (Equal Execute lhs rhs h1) as [[b|e|] h2 w2]; simpl;
    rewrite ?append_empty_r; reflexivity.
Qed.

(** C7.  [NotEqual] is [Equal] negated, and fails when [Equal] does;
    [GreaterOrEqual] is [Less] negated; [Greater] is the negation of
    "[Less] or else [Equal]" and [LessOrEqual] is "[Less] or else [Equal]"
    itself, where [Equal] is called only when [Less] returned false, on
    the heap [Less] left.  So [Greater] is true iff neither holds,
    [LessOrEqual] iff one does, and each fails exactly when a call to
    [Less] or [Equal] it makes fails. *)
Theorem C7_comparisons_from_Equal_and_Less lhs rhs h :
  let less := Less Execute lhs rhs h in
  let equal_after := Equal Execute lhs rhs (heap_after less) in
  NotEqual Execute lhs rhs h = fmap_run negb (Equal Execute lhs rhs h)
  /\ GreaterOrEqual Execute lhs rhs h = fmap_run negb less
  /\ Greater Execute lhs rhs h =
     fmap_run negb (or_else (Less Execute lhs rhs) (Equal Execute lhs rhs) h)
  /\ LessOrEqual Execute lhs rhs h =
     or_else (Less Execute lhs rhs) (Equal Execute lhs rhs) h
  /\ (outcome less = Returned true ->
      outcome (Greater Execute lhs rhs h) = Returned false
      /\ outcome (LessOrEqual Execute lhs rhs h) = Returned true)
  /\ (forall e, outcome less = Returned false ->
                outcome equal_after = Returned e ->
                outcome (Greater Execute lhs rhs h) = Returned (negb e)
                /\ outcome (LessOrEqual Execute lhs rhs h) = Returned e)
  /\ fails (NotEqual Execute lhs rhs h) = fails (Equal Execute lhs rhs h)
  /\ fails (GreaterOrEqual Execute lhs rhs h) = fails less
  /\ (fails (Greater Execute lhs rhs h) = true <->
      fails less = true \/ (outcome less = Returned false /\ fails equal_after = true))
  /\ (fails (LessOrEqual Execute lhs rhs h) = true <->
      fails less = true \/ (outcome less = Returned false /\ fails equal_after = true)).
Proof.
  intros less equal_after.
  assert (HLE : LessOrEqual Execute lhs rhs h =
                or_else (Less Execute lhs rhs) (Equal Execute lhs rhs) h).
  { unfold LessOrEqual. rewrite bind_ret_fmap, Greater_or_else, fmap_run_compose.
    apply fmap_run_id. apply negb_involutive. }
  split; [apply bind_ret_fmap|].
  split; [apply bind_ret_fmap|].
  split; [apply Greater_or_else|].
  split; [exact HLE|].
  split.
  { intros Hl. rewrite HLE, Greater_or_else.
    rewrite or_else_returned_true by exact Hl.
    unfold fmap_run; simpl. fold less. now rewrite Hl. }
  split.
  { intros e Hl He. rewrite HLE, Greater_or_else.
    rewrite or_else_returned_false by exact Hl.
    unfold fmap_run; simpl. fold less. fold equal_after. now rewrite He. }
  split; [unfold NotEqual; rewrite bind_ret_fmap; apply fails_fmap_run|].
  split; [unfold GreaterOrEqual; rewrite bind_ret_fmap; apply fails_fmap_run|].
  split.
  - rewrite Greater_or_else, fails_fmap_run. apply or_else_fails.
  - rewrite HLE. apply or_else_fails.
Qed.

(** ** Printing *)




End Facts.

(** ** The theorems at work on [class A] and [class B(A)] *)

Lemma C4_witness :
  IsTrue some_number = true
  /\ IsTrue an_instance_of_B = false
  /\ IsTrue (HolderNone : ObjectHolder Body) = false.
Proof.
  destruct (C4_IsTrue_truthiness some_number) as [Hiff _].
  destruct (C4_IsTrue_truthiness an_instance_of_B) as (_ & Hinst & _ & _).
  destruct (C4_IsTrue_truthiness (HolderNone : ObjectHolder Body)) as (_ & _ & _ & Hnone).
  split; [|split].
  - apply Hiff. left. exists 9%positive, 5%Z. split; [reflexivity | discriminate].
  - apply (Hinst 7%positive class_B). reflexivity.
  - apply Hnone. reflexivity.
Defined.

Lemma C5_witness :
  outcome (Call ExecuteBody 7%positive class_B "f" [] ∅)
  = Returned (HolderOwn literal_address (ONumber 2))
  /\ outcome (Call ExecuteBody 7%positive class_B "__str__" [] ∅)
     = Returned (HolderOwn literal_address (OString "A!")).
Proof.
  destruct (C5_method_resolution_and_dispatch ExecuteBody class_B class_A "f"
              7%positive [] ∅ eq_refl) as (_ & _ & Hboth & _).
  destruct (C5_method_resolution_and_dispatch ExecuteBody class_B class_A "__str__"
              7%positive [] ∅ eq_refl) as (_ & _ & _ & HonlyA).
  split.
  - destruct (Hboth (mkMethod "f" [] (ReturnNumber 2)) (mkMethod "f" [] (ReturnNumber 1))
                eq_refl eq_refl eq_refl) as [_ ->].
    reflexivity.
  - destruct (HonlyA (mkMethod "__str__" [] (ReturnString "A!"))
                eq_refl eq_refl eq_refl) as [_ ->].
    reflexivity.
Defined.

Lemma C10_witness :
  HasMethod class_B "g" 1 = false
  /\ GetMethod class_B "g" = Some (mkMethod "g" [] ReturnNone)
  /\ Call ExecuteBody 7%positive class_B "g" [some_number] ∅
     = throw (runtime_error "Cannot call method") ∅.
Proof.
  apply (C10_name_shadowing_precedes_arity ExecuteBody class_B class_A "g"
           (mkMethod "g" [] ReturnNone) (mkMethod "g" ["x"] (ReturnVariable "x"))
           0 1 7%positive [some_number] ∅).
  - reflexivity.
  - reflexivity.
  - simpl. apply list_elem_of_here.
  - reflexivity.
  - reflexivity.
  - lia.
  - reflexivity.
Defined.

(** C6 as first stated does not hold: [h(self, self)] of [class B] has one
    formal parameter beside the receiver, called [self]; the scope of the
    call [b.h(5)] binds [self] to the argument 5, not to the instance, and
    the body [return self] returns 5. *)
Lemma C6_counterexample :
  HasMethod class_B "h" 1 = true
  /\ GetMethod class_B "h" = Some (mkMethod "h" ["self"] (ReturnVariable "self"))
  /\ call_scope 7%positive class_B (mkMethod "h" ["self"] (ReturnVariable "self"))
       [some_number] !! "self" = Some some_number
  /\ some_number <> Share 7%positive (OClassInstance class_B)
  /\ Call ExecuteBody 7%positive class_B "h" [some_number] ∅ = ret some_number ∅.
Proof.
  split; [reflexivity|]. split; [reflexivity|]. split; [reflexivity|].
  split; [discriminate | reflexivity].
Qed.

Lemma C6_witness :
  Call ExecuteBody 7%positive class_B "nope" [] ∅
  = throw (runtime_error "Cannot call method") ∅
  /\ Call ExecuteBody 7%positive class_A "g" [some_number] ∅ = ret some_number ∅.
Proof.
  split.
  - apply (C6_Call_scope ExecuteBody 7%positive class_B "nope" [] ∅). reflexivity.
  - destruct (C6_Call_scope ExecuteBody 7%positive class_A "g" [some_number] ∅)
      as [_ Hyes].
    destruct (Hyes eq_refl) as (method & Hget & _ & -> & _ & _ & Hparams).
    vm_compute in Hget. injection Hget as <-.
    destruct (Hparams (NoDup_singleton "x") 0 "x" eq_refl) as [Hx _].
    simpl body. unfold ExecuteBody. now rewrite Hx.
Defined.

Lemma C1_witness :
  Equal ExecuteBody an_instance_of_A some_number ∅ = ret true ∅
  /\ Equal ExecuteBody an_instance_of_B some_number ∅ = ret true ∅
  /\ Equal ExecuteBody some_number some_number ∅ = ret true ∅
  /\ Equal ExecuteBody HolderNone HolderNone ∅ = ret true ∅
  /\ Equal ExecuteBody some_number HolderNone ∅
     = throw (runtime_error "Cannot compare objects for equality") ∅.
Proof.
  split; [|split; [|split; [|split]]].
  - destruct (C1_Equal_rule_order ExecuteBody an_instance_of_A some_number ∅)
      as (_ & Hinst & _).
    destruct (Hinst 8%positive class_A eq_refl) as [-> _]; reflexivity.
  - destruct (C1_Equal_rule_order ExecuteBody an_instance_of_B some_number ∅)
      as (_ & Hinst & _).
    destruct (Hinst 7%positive class_B eq_refl) as [-> _]; reflexivity.
  - destruct (C1_Equal_rule_order ExecuteBody some_number some_number ∅)
      as (_ & _ & _ & Hnum & _).
    rewrite (Hnum 9%positive 9%positive 5%Z 5%Z eq_refl eq_refl). reflexivity.
  - destruct (C1_Equal_rule_order ExecuteBody HolderNone HolderNone ∅)
      as (Hnone & _).
    apply Hnone; reflexivity.
  - destruct (C1_Equal_rule_order ExecuteBody some_number HolderNone ∅)
      as (_ & _ & _ & _ & _ & Hother).
    apply Hother.
    + intros [Habs _]. discriminate Habs.
    + reflexivity.
    + right. discriminate.
Defined.

Lemma C7_witness :
  outcome (Greater ExecuteBody some_number some_number ∅) = Returned false
  /\ outcome (LessOrEqual ExecuteBody some_number some_number ∅) = Returned true
  /\ (fails (Greater ExecuteBody an_instance_of_A some_number ∅) = true).
Proof.
  pose proof (C7_comparisons_from_Equal_and_Less ExecuteBody some_number some_number ∅)
    as (_ & _ & _ & _ & _ & Hfalse & _).
  pose proof (C7_comparisons_from_Equal_and_Less ExecuteBody an_instance_of_A
                some_number ∅) as (_ & _ & _ & _ & _ & _ & _ & _ & Hfails & _).
  split; [|split].
  - apply (Hfalse true); reflexivity.
  - apply (Hfalse true); reflexivity.
  - apply Hfails. left. reflexivity.
Defined.


End RuntimeSpec.

(** * Properties of the lexer *)

Module LexerSpec.
Import Lexer.

(** ** The stream *)

Lemma good_true s :
  good s = true <-> eofbit s = false /\ failbit s = false /\ badbit s = false.
Proof.
  unfold good. destruct (eofbit s), (failbit s), (badbit s); simpl; intuition discriminate.
Qed.

(** A stream in good state is its two halves. *)
Lemma good_eta s :
  good s = true -> s = mkIstream (consumed s) (remaining s) false false false.
Proof.
  intros H. apply good_true in H as (He & Hf & Hb).
  destruct s; simpl in *; subst; reflexivity.
Qed.

(** ** The loops end within their bounds *)

Lemma ProcessIndent_loop_total fuel : forall input n,
  length (remaining input) < fuel ->
  exists n' input',
    ProcessIndent_loop fuel input n = Some (n', input')
    /\ length (remaining input') <= length (remaining input).
Proof.
  induction fuel as [|fuel IH]; intros input n Hlen; [lia|].
  destruct input as [before text e f b]. simpl in Hlen.
  cbn [ProcessIndent_loop]. unfold fail, peek, get, good, sgetc; simpl.
  destruct f, b; simpl; try (eexists _, _; split; [reflexivity | simpl; lia]).
  destruct e; simpl; [eexists _, _; split; [reflexivity | simpl; lia]|].
  destruct text as [|c text]; simpl; [eexists _, _; split; [reflexivity | simpl; lia]|].
  destruct (Ascii.eqb c SPACE); [|eexists _, _; split; [reflexivity | simpl; lia]].
  unfold sbumpc; simpl.
  destruct (IH (mkIstream (c :: before) text false false false) (S n))
    as (n' & input' & -> & Hle); [simpl in *; lia|].
  eexists _, _; split; [reflexivity | simpl in *; lia].
Qed.

Lemma ProcessWord_loop_total fuel : forall input word,
  length (remaining input) < fuel ->
  exists word' input',
    ProcessWord_loop fuel input word = Some (word', input')
    /\ length (remaining input') <= length (remaining input).
Proof.
  induction fuel as [|fuel IH]; intros input word Hlen; [lia|].
  destruct input as [before text e f b]. simpl in Hlen.
  cbn [ProcessWord_loop]. unfold peek, get, good, sgetc; simpl.
  destruct e, f, b; simpl; try (eexists _, _; split; [reflexivity | simpl; lia]).
  destruct text as [|c text]; simpl; [eexists _, _; split; [reflexivity | simpl; lia]|].
  assert (Hnext : exists word' input',
             ProcessWord_loop fuel (mkIstream (c :: before) text false false false)
               (word ++ [c]) = Some (word', input')
             /\ length (remaining input') <= length (c :: text)).
  { destruct (IH (mkIstream (c :: before) text false false false) (word ++ [c]))
      as (w' & i' & Hw & Hle); [simpl in *; lia|].
    exists w', i'. split; [exact Hw | simpl in *; lia]. }
  destruct (isalpha c); simpl; [exact Hnext|].
  destruct (isdigit c); simpl; [exact Hnext|].
  destruct (Ascii.eqb c "_"); simpl; [exact Hnext|].
  eexists _, _; split; [reflexivity | simpl; lia].
Qed.

Lemma ProcessWord_loop_first fuel before c text word :
  is_word_char c = true ->
  ProcessWord_loop (S fuel) (mkIstream before (c :: text) false false false) word
  = ProcessWord_loop fuel (mkIstream (c :: before) text false false false) (word ++ [c]).
Proof.
  unfold is_word_char. intros Hc.
  cbn [ProcessWord_loop]. unfold peek, get, good, sgetc; simpl.
  destruct (isalpha c); simpl; [reflexivity|].
  destruct (isdigit c); simpl; [reflexivity|].
  simpl in Hc. now rewrite Hc.
Qed.

Lemma ProcessNum_loop_total fuel : forall input num_str,
  length (remaining input) < fuel ->
  exists num_str' input',
    ProcessNum_loop fuel input num_str = Some (num_str', input')
    /\ length (remaining input') <= length (remaining input).
Proof.
  induction fuel as [|fuel IH]; intros input num_str Hlen; [lia|].
  destruct input as [before text e f b]. simpl in Hlen.
  cbn [ProcessNum_loop]. unfold peek, get, good, sgetc, sbumpc; simpl.
  destruct e, f, b; simpl; try (eexists _, _; split; [reflexivity | simpl; lia]).
  destruct text as [|c text]; simpl; [eexists _, _; split; [reflexivity | simpl; lia]|].
  destruct (isdigit c); simpl; [|eexists _, _; split; [reflexivity | simpl; lia]].
  destruct (IH (mkIstream (c :: before) text false false false) (num_str ++ [c]))
    as (w' & i' & -> & Hle); [simpl in *; lia|].
  eexists _, _. split; [reflexivity | simpl in *; lia].
Qed.

Lemma ProcessNum_loop_first fuel before c text num_str :
  isdigit c = true ->
  ProcessNum_loop (S fuel) (mkIstream before (c :: text) false false false) num_str
  = ProcessNum_loop fuel (mkIstream (c :: before) text false false false) (num_str ++ [c]).
Proof.
  intros Hc. cbn [ProcessNum_loop]. unfold peek, get, good, sgetc, sbumpc; simpl.
  now rewrite Hc.
Qed.

(** The loop of [ProcessString] ends behind the closing delimiter, or in
    a [ParsingError]. *)
Lemma ProcessString_loop_total fuel : forall delim input s,
  length (remaining input) < fuel ->
  match ProcessString_loop fuel delim input s with
  | Ok (_, input') => length (remaining input') < length (remaining input)
  | Throw e => is_ParsingError e = true
  | OutOfFuel => False
  end.
Proof.
  induction fuel as [|fuel IH]; intros delim input s Hlen; [lia|].
  destruct input as [before text e f b]. simpl in Hlen.
  cbn [ProcessString_loop]. unfold sgetc, sbumpc; simpl.
  destruct text as [|ch text]; simpl; [reflexivity|].
  destruct (Ascii.eqb ch delim); simpl; [lia|].
  destruct (Ascii.eqb ch BACKSLASH); simpl.
  - destruct text as [|esc text]; simpl; [reflexivity|].
    destruct (escape esc) as [c|]; [|reflexivity].
    assert (Hl : length text < fuel) by (simpl in Hlen; lia).
    specialize (IH delim (mkIstream (esc :: ch :: before) text e f b) (s ++ [c]) Hl).
    destruct (ProcessString_loop fuel delim _ _) as [[s' input']|e'|];
      simpl in *; [lia | exact IH | exact IH].
  - destruct (Ascii.eqb ch LF || Ascii.eqb ch CR); [reflexivity|].
    assert (Hl : length text < fuel) by (simpl in Hlen; lia).
    specialize (IH delim (mkIstream (ch :: before) text e f b) (s ++ [ch]) Hl).
    destruct (ProcessString_loop fuel delim _ _) as [[s' input']|e'|];
      simpl in *; [lia | exact IH | exact IH].
Qed.

(** [ignore(n, '\n')] with [n > 0] on a good stream: it ends at the end
    of the text, with [eofbit]; or behind a line feed; or with [n]
    characters dropped.  In the last two cases there is a character to
    [unget]. *)
Lemma ignore_loop_S n : forall before text,
  let s' := ignore_loop (S n) LF (mkIstream before text false false false) in
  length (remaining s') <= length text
  /\ (eofbit s' = true
      \/ (good s' = true
          /\ exists c before',
               consumed s' = c :: before'
               /\ length (remaining s') < length text
               /\ (c = LF \/ length (remaining s') + S n = length text))).
Proof.
  induction n as [|n IH]; intros before text.
  - cbn [ignore_loop]. unfold sgetc, sbumpc; simpl.
    destruct text as [|c text]; simpl; [split; [lia | now left]|].
    destruct (Ascii.eqb_spec c LF) as [->|Hne]; simpl.
    + split; [lia|]. right. split; [reflexivity|].
      exists LF, before. repeat split; [lia | now left].
    + split; [lia|]. right. split; [reflexivity|].
      exists c, before. repeat split; [lia | right; lia].
  - remember (S n) as n1 eqn:Hn1. cbn [ignore_loop]. unfold sgetc, sbumpc; cbn.
    destruct text as [|c text]; cbn; [split; [lia | now left]|].
    destruct (Ascii.eqb_spec c LF) as [->|Hne]; cbn.
    + split; [lia|]. right. split; [reflexivity|].
      exists LF, before. repeat split; [lia | now left].
    + specialize (IH (c :: before) text). cbn zeta in IH.
      destruct IH as [Hle [Heof | (Hgood & c' & before' & Hcons & Hlt & Hc)]].
      * split; [lia | now left].
      * split; [lia|]. right. split; [exact Hgood|].
        exists c', before'. repeat split; [exact Hcons | lia |].
        destruct Hc as [->|Hc]; [now left | right; lia].
Qed.

Lemma IgnoreComment_loop_total fuel : forall before text,
  length text < fuel ->
  exists input',
    IgnoreComment_loop fuel (mkIstream before text false false false) = Some input'
    /\ length (remaining input') <= length text.
Proof.
  induction fuel as [|fuel IH]; intros before text Hlen; [lia|].
  cbn [IgnoreComment_loop].
  change (ignore 1024 LF (mkIstream before text false false false))
    with (ignore_loop 1024 LF (mkIstream before text false false false)).
  destruct (ignore_loop_S 1023 before text)
    as [Hle [Heof | (Hgood & c & before' & Hcons & Hlt & Hc)]];
    change (S 1023) with 1024 in *;
    set (s1 := ignore_loop 1024 LF (mkIstream before text false false false)) in *;
    clearbody s1.
  - unfold eof at 1. rewrite Heof. cbn [negb].
    unfold peek, good. rewrite Heof. cbn [orb negb].
    unfold eof, set_failbit. cbn [eofbit]. rewrite Heof.
    cbn [int_is negb andb]. eexists. split; [reflexivity | exact Hle].
  - destruct s1 as [before1 text1 e1 f1 b1].
    apply good_true in Hgood as (He & Hf & Hb).
    cbn in He, Hf, Hb, Hcons, Hlt, Hc, Hle. subst e1 f1 b1 before1.
    unfold eof at 1. cbn [eofbit negb].
    unfold unget, clear_eofbit, good, sungetc. cbn.
    destruct (Ascii.eqb_spec c LF) as [->|Hne]; cbn.
    + eexists. split; [reflexivity | cbn; lia].
    + destruct Hc as [->|Hc]; [congruence|].
      destruct (IH before' (c :: text1)) as (input' & -> & Hle');
        [cbn; lia|].
      eexists. split; [reflexivity | cbn in Hle'; lia].
Qed.

(** ** What the member functions do to the lexer *)

Lemma pushes_lexemes_refl lx : pushes_lexemes lx lx.
Proof. exists []. rewrite app_nil_r. repeat split. constructor. Qed.

Lemma pushes_lexemes_push_back t lx :
  lexeme t = true -> pushes_lexemes lx (push_back t lx).
Proof. intros Ht. exists [t]. repeat split. now constructor. Qed.

Lemma find_keyword_lexeme word t :
  find KEYWORD_TO_TOKEN word = Some t -> lexeme t = true.
Proof.
  unfold KEYWORD_TO_TOKEN. cbn [find].
  repeat (destruct (String.eqb _ word); [intros [= <-]; reflexivity|]).
  discriminate.
Qed.

Lemma ProcessKeyWord_pushes word lx : pushes_lexemes lx (ProcessKeyWord word lx).
Proof.
  unfold ProcessKeyWord. destruct (find KEYWORD_TO_TOKEN word) as [t|] eqn:Hfind.
  - apply pushes_lexemes_push_back. eapply find_keyword_lexeme; eassumption.
  - apply pushes_lexemes_refl.
Qed.

Create HintDb lexer.
#[local] Hint Resolve pushes_lexemes_refl pushes_lexemes_push_back
  ProcessKeyWord_pushes : lexer.

Lemma ProcessWord_sound lx before c text :
  is_word_char c = true ->
  sound (mkIstream (c :: before) text false false false) (pushes_lexemes lx)
        (ProcessWord lx (mkIstream before (c :: text) false false false)).
Proof.
  intros Hc. unfold ProcessWord. cbn [remaining length].
  rewrite ProcessWord_loop_first by exact Hc.
  destruct (ProcessWord_loop_total (S (length text))
              (mkIstream (c :: before) text false false false) ([] ++ [c]))
    as (word & input' & -> & Hle); [cbn; lia|].
  destruct (IsKeyWord _); cbn; split; auto with lexer.
Qed.

Lemma ProcessNum_sound lx before c text :
  isdigit c = true ->
  sound (mkIstream (c :: before) text false false false) (pushes_lexemes lx)
        (ProcessNum lx (mkIstream before (c :: text) false false false)).
Proof.
  intros Hc. unfold ProcessNum. cbn [remaining length].
  rewrite ProcessNum_loop_first by exact Hc.
  destruct (ProcessNum_loop_total (S (length text))
              (mkIstream (c :: before) text false false false) ([] ++ [c]))
    as (num_str & input' & -> & Hle); [cbn; lia|].
  unfold stoi. destruct num_str as [|d ds]; [exact I|].
  destruct (_ <=? INT_MAX)%Z; cbn; [|exact I].
  split; auto with lexer.
Qed.

Lemma ProcessString_sound lx before c text :
  sound (mkIstream (c :: before) text false false false) (pushes_lexemes lx)
        (ProcessString lx (mkIstream before (c :: text) false false false)).
Proof.
  unfold ProcessString.
  change (get (mkIstream before (c :: text) false false false))
    with (Some c, mkIstream (c :: before) text false false false).
  cbn [to_char remaining].
  pose proof (ProcessString_loop_total (S (length text)) c
                (mkIstream (c :: before) text false false false) []) as Hloop.
  cbn [remaining] in Hloop.
  destruct (ProcessString_loop _ _ _ _) as [[s input']|e|]; cbn.
  - split; [now apply pushes_lexemes_push_back | specialize (Hloop ltac:(lia)); lia].
  - exact I.
  - apply Hloop. lia.
Qed.

Lemma IgnoreComment_sound lx before text :
  sound (mkIstream before text false false false) (pushes_lexemes lx)
        (IgnoreComment lx (mkIstream before text false false false)).
Proof.
  unfold IgnoreComment. cbn [remaining].
  destruct (IgnoreComment_loop_total (S (length text)) before text)
    as (input' & -> & Hle); [lia|].
  cbn. split; auto with lexer.
Qed.

Lemma ProcessIndent_sound lx before text :
  sound (mkIstream before text false false false)
        (fun lx' => lx' = lx \/ exists indent, lx' = adjust_indent indent lx)
        (ProcessIndent lx (mkIstream before text false false false)).
Proof.
  unfold ProcessIndent. cbn [remaining].
  destruct (ProcessIndent_loop_total (S (length text))
              (mkIstream before text false false false) 0)
    as (n & input1 & -> & Hle); [cbn; lia|].
  assert (Hpeek : length (remaining (snd (peek input1))) = length (remaining input1)).
  { unfold peek. destruct (good input1); [destruct (sgetc input1)|]; reflexivity. }
  destruct (peek input1) as [c input2]. cbn [snd] in Hpeek. cbn [remaining] in Hle.
  unfold sound. cbn [remaining].
  destruct (int_is c LF); [split; [now left | lia]|].
  destruct (prev_indent lx <? n / 2)%nat eqn:H1.
  { split; [|lia]. right. exists (n / 2)%nat. unfold adjust_indent. now rewrite H1. }
  destruct (n / 2 <? prev_indent lx)%nat eqn:H2.
  { split; [|lia]. right. exists (n / 2)%nat. unfold adjust_indent. now rewrite H1, H2. }
  split; [now left | lia].
Qed.

Lemma putback_last c before text :
  putback c (mkIstream (c :: before) text false false false)
  = mkIstream before (c :: text) false false false.
Proof. unfold putback, clear_eofbit, good, sungetc. cbn. now rewrite Ascii.eqb_refl. Qed.

Lemma ProcessComparisonOperator_pushes left right lx :
  pushes_lexemes lx (ProcessComparisonOperator left right lx).
Proof.
  unfold ProcessComparisonOperator.
  repeat (destruct (String.eqb _ _); [now apply pushes_lexemes_push_back|]).
  apply pushes_lexemes_refl.
Qed.

#[local] Hint Resolve ProcessComparisonOperator_pushes : lexer.

Lemma ProcessNextToken_at_end lx before :
  ProcessNextToken lx (mkIstream before [] false false false)
  = Ok (lx, mkIstream before [] true true false).
Proof. reflexivity. Qed.

(** The iteration that reads a line feed ends the line and looks at the
    indentation of the next. *)
Lemma ProcessNextToken_LF lx before text :
  ProcessNextToken lx (mkIstream before (LF :: text) false false false)
  = ProcessIndent (ProcessNextLine lx) (mkIstream (LF :: before) text false false false).
Proof. reflexivity. Qed.

(** An iteration that reads another character pushes lexemes only. *)
Lemma ProcessNextToken_not_LF lx before c text :
  c <> LF ->
  sound (mkIstream (c :: before) text false false false) (pushes_lexemes lx)
        (ProcessNextToken lx (mkIstream before (c :: text) false false false)).
Proof.
  intros Hc. unfold ProcessNextToken.
  change (get (mkIstream before (c :: text) false false false))
    with (Some c, mkIstream (c :: before) text false false false).
  cbn [to_char]. rewrite putback_last.
  destruct (Ascii.eqb_spec c LF) as [->|_]; [congruence|].
  destruct (Ascii.eqb c DQUOTE || Ascii.eqb c SQUOTE); [apply ProcessString_sound|].
  destruct (Ascii.eqb c "_" || isalpha c) eqn:Hword.
  { apply ProcessWord_sound. unfold is_word_char.
    destruct (isalpha c), (isdigit c), (Ascii.eqb c "_"); cbn in *; congruence. }
  destruct (isdigit c) eqn:Hdigit; [now apply ProcessNum_sound|].
  destruct (Ascii.eqb c "#").
  { pose proof (IgnoreComment_sound lx (c :: before) text) as H.
    destruct (IgnoreComment _ _) as [[lx' input']|e|]; cbn in *; exact H. }
  destruct (ispunct c).
  { destruct text as [|d text].
    - change (get (mkIstream (c :: before) [] false false false))
        with (@Datatypes.None ascii, mkIstream (c :: before) [] true true false).
      cbn [to_char].
      destruct (IsComparisonOperator _ _); cbn;
        (split; [auto with lexer; now apply pushes_lexemes_push_back | lia]).
    - change (get (mkIstream (c :: before) (d :: text) false false false))
        with (Some d, mkIstream (d :: c :: before) text false false false).
      cbn [to_char]. rewrite putback_last.
      destruct (IsComparisonOperator _ _); cbn;
        (split; [auto with lexer; now apply pushes_lexemes_push_back | lia]). }
  cbn. split; [auto with lexer | lia].
Qed.

(** One iteration on a good stream that has a character left: it uses up
    that character at least. *)
Lemma ProcessNextToken_sound lx before c text :
  sound (mkIstream (c :: before) text false false false) (iteration lx)
        (ProcessNextToken lx (mkIstream before (c :: text) false false false)).
Proof.
  destruct (Ascii.eqb_spec c LF) as [->|Hc].
  - rewrite ProcessNextToken_LF.
    pose proof (ProcessIndent_sound (ProcessNextLine lx) (LF :: before) text) as H.
    destruct (ProcessIndent _ _) as [[lx' input']|e|]; cbn in *; [|exact I|exact H].
    destruct H as [[->|[n ->]] Hle]; (split; [|exact Hle]).
    + right; now left.
    + right; right. now exists n.
  - pose proof (ProcessNextToken_not_LF lx before c text Hc) as H.
    destruct (ProcessNextToken _ _) as [[lx' input']|e|]; cbn in *; [|exact I|exact H].
    destruct H as [H Hle]. split; [now left | exact Hle].
Qed.

(** [ProcessNextLine] pushes one [Newline] behind a token that is not a
    [Newline], and nothing otherwise. *)
Lemma ProcessNextLine_tokens lx :
  (forall t, back lx = Some t -> Is_Newline t = false ->
             tokens_ (ProcessNextLine lx) = tokens_ lx ++ [token_type.Newline])
  /\ (back lx = Some token_type.Newline -> ProcessNextLine lx = lx)
  /\ (tokens_ lx = [] -> ProcessNextLine lx = lx)
  /\ prev_indent (ProcessNextLine lx) = prev_indent lx.
Proof.
  unfold ProcessNextLine. repeat split.
  - intros t -> ->. reflexivity.
  - intros ->. reflexivity.
  - unfold back. intros ->. reflexivity.
  - destruct (back lx) as [t|]; [destruct (negb (Is_Newline t))|]; reflexivity.
Qed.

(** ** The loop of [ProcessAllTokens] *)

Section Invariant.

(** A property of the lexer that every iteration keeps. *)
Variable Inv : Lexer -> Prop.
Hypothesis Inv_iteration : forall lx lx', Inv lx -> iteration lx lx' -> Inv lx'.

Lemma ProcessAllTokens_loop_sound fuel : forall lx input,
  (good input = true -> S (length (remaining input)) < fuel) ->
  0 < fuel ->
  Inv lx ->
  match ProcessAllTokens_loop fuel lx input with
  | Ok (lx', input') => Inv lx' /\ good input' = false
  | Throw _ => True
  | OutOfFuel => False
  end.
Proof.
  induction fuel as [|fuel IH]; intros lx input Hfuel Hpos HInv; [lia|].
  cbn [ProcessAllTokens_loop].
  destruct (good input) eqn:Hgood; [|now split].
  specialize (Hfuel eq_refl). rewrite (good_eta input Hgood).
  destruct (remaining input) as [|c text]; cbn [length] in Hfuel.
  - rewrite ProcessNextToken_at_end. apply IH; [discriminate | lia | exact HInv].
  - pose proof (ProcessNextToken_sound lx (consumed input) c text) as Hstep.
    destruct (ProcessNextToken _ _) as [[lx' input']|e|]; cbn in Hstep;
      [|exact I|exact Hstep].
    destruct Hstep as [Hiter Hle].
    apply IH; [intros _; lia | lia | now apply (Inv_iteration lx)].
Qed.

Lemma ProcessAllTokens_sound lx text :
  tokens_ lx = [] -> Inv lx ->
  match ProcessAllTokens lx (istream_of text) with
  | Ok (lx', _) =>
      exists lx3,
        Inv lx3 /\ lx' = push_back token_type.Eof lx3
        /\ (back lx3 = Datatypes.None \/ back lx3 = Some token_type.Newline
            \/ back lx3 = Some token_type.Dedent)
  | Throw _ => True
  | OutOfFuel => False
  end.
Proof.
  intros Hempty HInv. unfold ProcessAllTokens, istream_of.
  pose proof (ProcessIndent_sound lx [] text) as Hind.
  destruct (ProcessIndent _ _) as [[lx1 input1]|e|]; cbn in Hind; [|exact I|exact Hind].
  destruct Hind as [Hlx1 _].
  assert (HInv1 : Inv lx1).
  { apply (Inv_iteration lx); [exact HInv|].
    assert (Hline : ProcessNextLine lx = lx).
    { unfold ProcessNextLine, back. now rewrite Hempty. }
    destruct Hlx1 as [->|[n ->]].
    - left. apply pushes_lexemes_refl.
    - right; right. exists n. now rewrite Hline. }
  pose proof (ProcessAllTokens_loop_sound (S (S (length (remaining input1)))) lx1 input1)
    as Hloop.
  destruct (ProcessAllTokens_loop _ _ _) as [[lx2 input2]|e|];
    [|exact I|apply Hloop; [intros _; lia | lia | exact HInv1]].
  destruct Hloop as [HInv2 _]; [intros _; lia | lia | exact HInv1|].
  destruct (back lx2) as [t|] eqn:Hback.
  - destruct (Is_Dedent t) eqn:Hd; [|destruct (Is_Newline t) eqn:Hn]; cbn.
    + exists lx2. repeat split; [exact HInv2|].
      right; right. rewrite Hback. now destruct t.
    + exists lx2. repeat split; [exact HInv2|].
      right; left. rewrite Hback. now destruct t.
    + exists (ProcessNextLine lx2). split; [|split; [reflexivity|]].
      * apply (Inv_iteration lx2); [exact HInv2 | right; now left].
      * right; left. unfold back.
        rewrite (proj1 (ProcessNextLine_tokens lx2) t Hback Hn).
        apply last_snoc.
  - exists lx2. repeat split; [exact HInv2 | now left].
Qed.

End Invariant.

(** The lexer always ends: with its tokens, or with an exception. *)
Lemma tokenize_total text :
  (exists ts, tokenize text = Ok ts) \/ (exists e, tokenize text = Throw e).
Proof.
  unfold tokenize, new_Lexer.
  pose proof (ProcessAllTokens_sound (fun _ => True) (fun _ _ _ _ => I)
                (mkLexer [] 0 0) (list_ascii_of_string text) eq_refl I) as H.
  destruct (ProcessAllTokens _ _) as [[lx input]|e|]; [left|right|destruct H]; eauto.
Qed.

(** ** Newlines *)

Lemma consecutive_newlines_app ts new :
  consecutive_newlines (ts ++ new) ->
  consecutive_newlines ts
  \/ (last ts = Some token_type.Newline /\ head new = Some token_type.Newline)
  \/ consecutive_newlines new.
Proof.
  intros (i & H1 & H2).
  destruct (decide (S i < length ts)) as [Hlt|Hge].
  - left. exists i. rewrite lookup_app_l in H1, H2 by lia. now split.
  - destruct (decide (i < length ts)) as [Hi|Hi].
    + right; left. rewrite lookup_app_l in H1 by lia.
      rewrite lookup_app_r in H2 by lia.
      replace (S i - length ts) with 0 in H2 by lia.
      replace i with (pred (length ts)) in H1 by lia.
      rewrite last_lookup, head_lookup. now split.
    + right; right. exists (i - length ts).
      rewrite lookup_app_r in H1, H2 by lia.
      replace (S i - length ts) with (S (i - length ts)) in H2 by lia. now split.
Qed.

Lemma no_newline_lookup (new : list Token) i t :
  Forall (fun t => Is_Newline t = false) new -> new !! i = Some t ->
  t <> token_type.Newline.
Proof.
  intros Hall Hi ->. rewrite Forall_forall in Hall.
  apply list_elem_of_lookup_2, Hall in Hi. discriminate.
Qed.

Lemma no_consecutive_newlines_app ts new :
  ~ consecutive_newlines ts ->
  Forall (fun t => Is_Newline t = false) new ->
  ~ consecutive_newlines (ts ++ new).
Proof.
  intros Hts Hnew H.
  apply consecutive_newlines_app in H as [H | [[_ H] | (i & H & _)]].
  - now apply Hts.
  - rewrite head_lookup in H. now apply (no_newline_lookup new 0 _ Hnew H).
  - now apply (no_newline_lookup new i _ Hnew H).
Qed.

Lemma lexeme_not_Newline t : lexeme t = true -> Is_Newline t = false.
Proof. now destruct t. Qed.

Lemma tokens_push_back_n n t lx :
  tokens_ (push_back_n n t lx) = tokens_ lx ++ repeat t n
  /\ prev_indent (push_back_n n t lx) = prev_indent lx.
Proof.
  revert lx. induction n as [|n IH]; intros lx; cbn.
  - now rewrite app_nil_r.
  - destruct (IH (push_back t lx)) as [-> ->]. cbn.
    now rewrite <- app_assoc.
Qed.


Lemma ProcessNextLine_no_consecutive_newlines lx :
  ~ consecutive_newlines (tokens_ lx) ->
  ~ consecutive_newlines (tokens_ (ProcessNextLine lx)).
Proof.
  intros Hts. unfold ProcessNextLine.
  destruct (back lx) as [t|] eqn:Hback; [|exact Hts].
  destruct (Is_Newline t) eqn:Ht; cbn; [exact Hts|].
  intros H. apply consecutive_newlines_app in H as [H | [[H _] | (i & _ & H)]].
  - now apply Hts.
  - unfold back in Hback. rewrite Hback in H. injection H as ->. discriminate.
  - destruct i; discriminate.
Qed.

Lemma adjust_indent_no_consecutive_newlines indent lx :
  ~ consecutive_newlines (tokens_ lx) ->
  ~ consecutive_newlines (tokens_ (adjust_indent indent lx)).
Proof.
  intros Hts. unfold adjust_indent.
  destruct (prev_indent lx <? indent)%nat;
    [|destruct (indent <? prev_indent lx)%nat; [|exact Hts]];
    cbn; rewrite (proj1 (tokens_push_back_n _ _ _));
    (apply no_consecutive_newlines_app; [exact Hts|]);
    apply Forall_forall; intros t Ht; apply list_elem_of_In, repeat_spec in Ht;
    now subst t.
Qed.

Lemma iteration_no_consecutive_newlines lx lx' :
  ~ consecutive_newlines (tokens_ lx) -> iteration lx lx' ->
  ~ consecutive_newlines (tokens_ lx').
Proof.
  intros Hts [(new & -> & Hnew & _) | [-> | [indent ->]]].
  - apply no_consecutive_newlines_app; [exact Hts|].
    eapply Forall_impl; [exact Hnew|]. apply lexeme_not_Newline.
  - now apply ProcessNextLine_no_consecutive_newlines.
  - now apply adjust_indent_no_consecutive_newlines,
      ProcessNextLine_no_consecutive_newlines.
Qed.

(** No token sequence of the lexer has two [Newline]s side by side. *)
Lemma tokenize_no_consecutive_newlines text ts :
  tokenize text = Ok ts -> ~ consecutive_newlines ts.
Proof.
  unfold tokenize, new_Lexer.
  pose proof (ProcessAllTokens_sound
                (fun lx => ~ consecutive_newlines (tokens_ lx))
                iteration_no_consecutive_newlines
                (mkLexer [] 0 0) (list_ascii_of_string text) eq_refl) as H.
  destruct (ProcessAllTokens _ _) as [[lx input]|e|]; [|discriminate|discriminate].
  intros [= <-]. destruct H as (lx3 & Hlx3 & -> & _).
  - intros (i & Hi & _). destruct i; discriminate.
  - cbn. apply no_consecutive_newlines_app; [exact Hlx3|].
    constructor; [reflexivity | constructor].
Qed.

(** ** Lines *)

Lemma pushes_lexemes_trans lx1 lx2 lx3 :
  pushes_lexemes lx1 lx2 -> pushes_lexemes lx2 lx3 -> pushes_lexemes lx1 lx3.
Proof.
  intros (new1 & H1 & Hall1 & Hp1) (new2 & H2 & Hall2 & Hp2).
  exists (new1 ++ new2). rewrite H2, H1, <- app_assoc.
  repeat split; [now apply Forall_app | congruence].
Qed.

(** Between two line feeds the lexer pushes lexemes only. *)
Lemma in_line_pushes st st' :
  in_line st st' -> pushes_lexemes (fst st) (fst st').
Proof.
  induction 1 as [st | lx input c [lx1 input1] st' Hgood Hhd Hc Hstep _ IH].
  - apply pushes_lexemes_refl.
  - cbn [fst] in *. apply (pushes_lexemes_trans lx lx1); [|exact IH].
    rewrite (good_eta input Hgood) in Hstep.
    destruct (remaining input) as [|c' text]; [discriminate|]. injection Hhd as ->.
    pose proof (ProcessNextToken_not_LF lx (consumed input) c text Hc) as H.
    rewrite Hstep in H. apply H.
Qed.

Lemma spaces_cons k (l : list ascii) : spaces k ++ SPACE :: l = SPACE :: spaces k ++ l.
Proof. unfold spaces. induction k as [|k IH]; cbn; [reflexivity | now rewrite IH]. Qed.

(** The loop of [ProcessIndent] on [k] spaces before another character. *)
Lemma ProcessIndent_loop_spaces k : forall fuel before c rest n,
  k < fuel -> c <> SPACE ->
  ProcessIndent_loop fuel (mkIstream before (spaces k ++ c :: rest) false false false) n
  = Some (n + k, mkIstream (spaces k ++ before) (c :: rest) false false false).
Proof.
  induction k as [|k IH]; intros fuel before c rest n Hfuel Hc;
    (destruct fuel as [|fuel]; [lia|]); cbn [ProcessIndent_loop spaces repeat app].
  - unfold fail, peek, good, sgetc. cbn.
    destruct (Ascii.eqb_spec c SPACE) as [->|_]; [congruence|].
    now rewrite Nat.add_0_r.
  - unfold fail, peek, get, good, sgetc, sbumpc. cbn.
    fold (spaces k). rewrite IH by (lia || assumption).
    rewrite spaces_cons. do 2 f_equal. lia.
Qed.

(** A blank line, spaces up to a line feed, leaves the lexer as it is. *)
Lemma ProcessIndent_blank_line lx before k rest :
  ProcessIndent lx (mkIstream before (spaces k ++ LF :: rest) false false false)
  = Ok (lx, mkIstream (spaces k ++ before) (LF :: rest) false false false).
Proof.
  unfold ProcessIndent. cbn [remaining].
  rewrite ProcessIndent_loop_spaces; [reflexivity | | discriminate].
  rewrite length_app. unfold spaces. rewrite repeat_length. lia.
Qed.

Lemma ProcessIndent_tokens lx input lx' input' :
  good input = true ->
  ProcessIndent lx input = Ok (lx', input') ->
  exists new, tokens_ lx' = tokens_ lx ++ new
              /\ Forall (fun t => Is_Newline t = false) new.
Proof.
  intros Hgood Hind. rewrite (good_eta input Hgood) in Hind.
  pose proof (ProcessIndent_sound lx (consumed input) (remaining input)) as H.
  rewrite Hind in H. destruct H as [[->|[indent ->]] _].
  - exists []. rewrite app_nil_r. split; [reflexivity | constructor].
  - unfold adjust_indent.
    destruct (prev_indent lx <? indent)%nat;
      [|destruct (indent <? prev_indent lx)%nat];
      cbn; rewrite ?(proj1 (tokens_push_back_n _ _ _)).
    + eexists. split; [reflexivity|].
      apply Forall_forall; intros t Ht; apply list_elem_of_In, repeat_spec in Ht;
        now subst t.
    + eexists. split; [reflexivity|].
      apply Forall_forall; intros t Ht; apply list_elem_of_In, repeat_spec in Ht;
        now subst t.
    + exists []. rewrite app_nil_r. split; [reflexivity | constructor].
Qed.

Lemma at_line_start_ProcessNextLine lx :
  at_line_start (ProcessNextLine lx).
Proof.
  unfold at_line_start, ProcessNextLine.
  destruct (back lx) as [t|] eqn:Hback; [|now left].
  destruct (Is_Newline t) eqn:Ht; cbn.
  - right. rewrite Hback. now destruct t.
  - right. unfold back, push_back. cbn. apply last_snoc.
Qed.

(** A line that ends in a line feed: its tokens, none of them a
    [Newline], are followed by one [Newline] if there are any, and by
    nothing if there are none. *)
Lemma one_Newline_per_line lx0 input0 lx1 input1 lx2 before rest :
  at_line_start lx0 ->
  good input0 = true ->
  ProcessIndent lx0 input0 = Ok (lx1, input1) ->
  in_line (lx1, input1) (lx2, mkIstream before (LF :: rest) false false false) ->
  exists line_tokens,
    tokens_ lx2 = tokens_ lx0 ++ line_tokens
    /\ Forall (fun t => Is_Newline t = false) line_tokens
    /\ ProcessNextToken lx2 (mkIstream before (LF :: rest) false false false)
       = ProcessIndent (ProcessNextLine lx2)
           (mkIstream (LF :: before) rest false false false)
    /\ tokens_ (ProcessNextLine lx2)
       = tokens_ lx0 ++ line_tokens
         ++ match line_tokens with [] => [] | _ :: _ => [token_type.Newline] end
    /\ at_line_start (ProcessNextLine lx2).
Proof.
  intros Hstart Hgood Hind Hline.
  destruct (ProcessIndent_tokens _ _ _ _ Hgood Hind) as (ind & Hind_tokens & Hind_all).
  apply in_line_pushes in Hline as (new & Hnew & Hnew_all & _). cbn [fst] in Hnew.
  exists (ind ++ new).
  assert (Htokens : tokens_ lx2 = tokens_ lx0 ++ ind ++ new).
  { rewrite Hnew, Hind_tokens. now rewrite <- app_assoc. }
  assert (Hall : Forall (fun t => Is_Newline t = false) (ind ++ new)).
  { apply Forall_app. split; [exact Hind_all|].
    eapply Forall_impl; [exact Hnew_all | apply lexeme_not_Newline]. }
  split; [exact Htokens|]. split; [exact Hall|].
  split; [apply ProcessNextToken_LF|]. split; [|apply at_line_start_ProcessNextLine].
  destruct (ind ++ new) as [|t line] eqn:Hline_tokens.
  - rewrite app_nil_r in *.
    assert (Hback : back lx2 = back lx0) by (unfold back; now rewrite Htokens).
    unfold ProcessNextLine. rewrite Hback.
    destruct Hstart as [H|H]; rewrite H; cbn; rewrite ?app_nil_r; exact Htokens.
  - assert (Hlast : exists t', back lx2 = Some t' /\ Is_Newline t' = false).
    { unfold back. rewrite Htokens.
      destruct (last (t :: line)) as [t'|] eqn:Hl.
      - exists t'. split.
        + rewrite last_app, Hl. reflexivity.
        + rewrite Forall_forall in Hall. apply Hall.
          rewrite last_lookup in Hl. eapply list_elem_of_lookup_2; eassumption.
      - apply last_None in Hl. discriminate. }
    destruct Hlast as (t' & Hback & Ht').
    rewrite (proj1 (ProcessNextLine_tokens lx2) t' Hback Ht'), Htokens.
    now rewrite <- !app_assoc.
Qed.

(** At the end of the text [ProcessAllTokens] pushes the [Newline] that
    is outstanding, and then [Eof]. *)
Lemma ProcessAllTokens_end lx input lx1 input1 lx2 input2 :
  ProcessIndent lx input = Ok (lx1, input1) ->
  ProcessAllTokens_loop (S (S (length (remaining input1)))) lx1 input1
  = Ok (lx2, input2) ->
  exists outstanding,
    ProcessAllTokens lx input
    = Ok (push_back token_type.Eof (ProcessNextLine_if outstanding lx2), input2)
    /\ (outstanding = true <->
        exists t, back lx2 = Some t /\ (lexeme t || Is_Indent t || Is_Eof t) = true).
Proof.
  intros Hind Hloop. unfold ProcessAllTokens. rewrite Hind, Hloop.
  destruct (back lx2) as [t|] eqn:Hback.
  - exists (negb (Is_Dedent t) && negb (Is_Newline t)). split.
    + unfold ProcessNextLine_if.
      destruct (negb (Is_Dedent t) && negb (Is_Newline t)); reflexivity.
    + split.
      * intros Ht. exists t. split; [reflexivity | now destruct t].
      * intros (t' & [= <-] & Ht). now destruct t.
  - exists false. split; [reflexivity|].
    split; [discriminate | intros (t & Habs & _); discriminate].
Qed.

(** What [ProcessIndent] pushes on a line that is not blank: [Indent]s or
    [Dedent]s. *)
Lemma adjust_indent_pushes indent lx :
  exists n t,
    tokens_ (adjust_indent indent lx) = tokens_ lx ++ repeat t n
    /\ (t = token_type.Indent \/ t = token_type.Dedent).
Proof.
  unfold adjust_indent.
  destruct (prev_indent lx <? indent)%nat.
  - exists (indent - prev_indent lx), token_type.Indent. split; [|now left].
    cbn [tokens_ set_prev_indent]. apply tokens_push_back_n.
  - destruct (indent <? prev_indent lx)%nat.
    + exists (prev_indent lx - indent), token_type.Dedent. split; [|now right].
      cbn [tokens_ set_prev_indent]. apply tokens_push_back_n.
    + exists 0, token_type.Indent. split; [|now left]. cbn [repeat]. now rewrite app_nil_r.
Qed.

Lemma last_repeat (t : Token) n : last (repeat t (S n)) = Some t.
Proof. cbn [repeat]. rewrite repeat_cons. apply last_snoc. Qed.

(** At the end of the text the loop of [ProcessAllTokens] is over, with
    the lexer as it is. *)
Lemma ProcessAllTokens_loop_at_end fuel lx input :
  1 < fuel -> remaining input = [] ->
  exists input', ProcessAllTokens_loop fuel lx input = Ok (lx, input').
Proof.
  intros Hfuel Hrem. destruct fuel as [|[|fuel]]; try lia.
  cbn [ProcessAllTokens_loop]. destruct (good input) eqn:Hgood; [|eauto].
  rewrite (good_eta input Hgood), Hrem, ProcessNextToken_at_end. cbn. eauto.
Qed.

(** The [Newline] of a last line that no line feed ends. *)
Lemma last_line_Newline lx0 input0 lx1 input1 lx2 input2 outstanding :
  at_line_start lx0 ->
  good input0 = true ->
  ProcessIndent lx0 input0 = Ok (lx1, input1) ->
  in_line (lx1, input1) (lx2, input2) ->
  (outstanding = true <->
   exists t, back lx2 = Some t /\ (lexeme t || Is_Indent t || Is_Eof t) = true) ->
  exists line_tokens,
    tokens_ lx2 = tokens_ lx0 ++ line_tokens
    /\ Forall (fun t => Is_Newline t = false) line_tokens
    /\ tokens_ (ProcessNextLine_if outstanding lx2)
       = tokens_ lx0 ++ line_tokens
         ++ (if outstanding then [token_type.Newline] else [])
    /\ (outstanding = false <->
        line_tokens = [] \/ last line_tokens = Some token_type.Dedent).
Proof.
  intros Hstart Hgood Hindent Hline Hout.
  assert (Hind : exists n t, tokens_ lx1 = tokens_ lx0 ++ repeat t n
                             /\ (t = token_type.Indent \/ t = token_type.Dedent)).
  { pose proof (ProcessIndent_sound lx0 (consumed input0) (remaining input0)) as Hs.
    rewrite <- (good_eta input0 Hgood), Hindent in Hs. destruct Hs as [[->|[indent ->]] _].
    - exists 0, token_type.Indent. split; [|now left]. cbn [repeat]. now rewrite app_nil_r.
    - apply adjust_indent_pushes. }
  destruct Hind as (n & ti & Htok1 & Hti).
  destruct (in_line_pushes _ _ Hline) as (new & Htok2 & Hnew & _). cbn [fst] in Htok2.
  rewrite Htok1, <- app_assoc in Htok2.
  exists (repeat ti n ++ new). split; [exact Htok2|].
  assert (Hnonl : Forall (fun t => Is_Newline t = false) (repeat ti n ++ new)).
  { apply Forall_app. split.
    - apply Forall_forall. intros t Ht. apply list_elem_of_In, repeat_spec in Ht. subst t.
      now destruct Hti as [->| ->].
    - eapply Forall_impl; [exact Hnew|]. intros t. apply lexeme_not_Newline. }
  split; [exact Hnonl|].
  assert (Hback : back lx2 = last (tokens_ lx0 ++ repeat ti n ++ new))
    by (unfold back; now rewrite Htok2).
  assert (Hcases :
            (exists t, last (repeat ti n ++ new) = Some t /\ lexeme t = true)
            \/ (last (repeat ti n ++ new) = Some token_type.Indent)
            \/ (last (repeat ti n ++ new) = Some token_type.Dedent)
            \/ repeat ti n ++ new = []).
  { destruct new as [|t0 new0] using rev_ind.
    - rewrite app_nil_r. destruct n as [|n]; [now right; right; right|].
      rewrite last_repeat. destruct Hti as [->| ->]; [right; now left|right; right; now left].
    - left. exists t0. rewrite app_assoc, last_snoc. split; [reflexivity|].
      apply Forall_app in Hnew as [_ Hnew]. now apply Forall_inv in Hnew. }
  assert (Hlast : forall t, last (repeat ti n ++ new) = Some t -> back lx2 = Some t).
  { intros t Ht. rewrite Hback.
    destruct (repeat ti n ++ new) as [|a l] eqn:Hl; [discriminate|].
    now rewrite last_app_cons. }
  split.
  - destruct outstanding; cbn [ProcessNextLine_if].
    + destruct (proj1 Hout eq_refl) as (t & Hbt & Ht).
      destruct (ProcessNextLine_tokens lx2) as (Hpush & _).
      rewrite (Hpush t Hbt) by now destruct t.
      rewrite Htok2. now rewrite <- !app_assoc.
    + rewrite Htok2. now rewrite app_nil_r.
  - destruct Hcases as [(t & Ht & Hlex)|[Ht|[Ht|Hnil]]].
    + assert (outstanding = true)
        by (apply Hout; exists t; split; [now apply Hlast|now rewrite Hlex]).
      subst. split; [discriminate|]. intros [Hnil|Hd].
      * rewrite Hnil in Ht. discriminate.
      * rewrite Hd in Ht. injection Ht as <-. discriminate.
    + assert (outstanding = true)
        by (apply Hout; exists token_type.Indent; split; [now apply Hlast|reflexivity]).
      subst. split; [discriminate|]. intros [Hnil|Hd].
      * rewrite Hnil in Ht. discriminate.
      * rewrite Hd in Ht. discriminate.
    + split; [auto|]. intros _. destruct outstanding; [|reflexivity].
      destruct (proj1 Hout eq_refl) as (t & Hbt & Hkind).
      rewrite (Hlast _ Ht) in Hbt. injection Hbt as <-. discriminate.
    + split; [auto|]. intros _. destruct outstanding; [|reflexivity].
      destruct (proj1 Hout eq_refl) as (t & Hbt & Hkind).
      rewrite Hback, Hnil, app_nil_r in Hbt.
      destruct Hstart as [Hs|Hs]; unfold back in Hs; rewrite Hs in Hbt;
        [discriminate|]. injection Hbt as <-. discriminate.
Qed.

(** C9, as the code has it.  The tokens of the lexer never hold two
    [Newline]s side by side.  A line that ends in a line feed gives its
    tokens, none of them a [Newline], and then exactly one [Newline] if it
    gave any token and none if it gave none, which leaves the lexer at the
    start of the next line.  A blank line gives no token and does not
    touch the indentation, so the line behind it starts as the blank line
    did: blank lines in a row collapse.  A last line that no line feed
    ends gives its tokens, and at the end of the text one [Newline] is
    pushed behind them unless the line gave no token or its last token is
    a [Dedent]: a last line that gave [Dedent]s only, as a comment at a
    lower indentation does, gets no [Newline]. *)
Theorem C9_no_consecutive_newlines :
  (forall text ts, tokenize text = Ok ts -> ~ consecutive_newlines ts)
  /\ (forall lx0 input0 lx1 input1 lx2 before rest,
        at_line_start lx0 ->
        good input0 = true ->
        ProcessIndent lx0 input0 = Ok (lx1, input1) ->
        in_line (lx1, input1) (lx2, mkIstream before (LF :: rest) false false false) ->
        exists line_tokens,
          tokens_ lx2 = tokens_ lx0 ++ line_tokens
          /\ Forall (fun t => Is_Newline t = false) line_tokens
          /\ ProcessNextToken lx2 (mkIstream before (LF :: rest) false false false)
             = ProcessIndent (ProcessNextLine lx2)
                 (mkIstream (LF :: before) rest false false false)
          /\ tokens_ (ProcessNextLine lx2)
             = tokens_ lx0 ++ line_tokens
               ++ match line_tokens with
                  | [] => []
                  | _ :: _ => [token_type.Newline]
                  end
          /\ at_line_start (ProcessNextLine lx2))
  /\ (forall lx before k rest,
        at_line_start lx ->
        ProcessIndent lx (mkIstream before (spaces k ++ LF :: rest) false false false)
        = Ok (lx, mkIstream (spaces k ++ before) (LF :: rest) false false false)
        /\ ProcessNextToken lx
             (mkIstream (spaces k ++ before) (LF :: rest) false false false)
           = ProcessIndent lx
               (mkIstream (LF :: spaces k ++ before) rest false false false))
  /\ (forall lx input lx1 input1 lx2 input2,
        ProcessIndent lx input = Ok (lx1, input1) ->
        ProcessAllTokens_loop (S (S (length (remaining input1)))) lx1 input1
        = Ok (lx2, input2) ->
        exists outstanding,
          ProcessAllTokens lx input
          = Ok (push_back token_type.Eof (ProcessNextLine_if outstanding lx2), input2)
          /\ (outstanding = true <->
              exists t, back lx2 = Some t
                        /\ (lexeme t || Is_Indent t || Is_Eof t) = true))
  /\ (forall lx0 input0 lx1 input1 lx2 input2 outstanding,
        at_line_start lx0 ->
        good input0 = true ->
        ProcessIndent lx0 input0 = Ok (lx1, input1) ->
        in_line (lx1, input1) (lx2, input2) ->
        remaining input2 = [] ->
        (outstanding = true <->
         exists t, back lx2 = Some t
                   /\ (lexeme t || Is_Indent t || Is_Eof t) = true) ->
        (forall fuel, 1 < fuel ->
                      exists input3,
                        ProcessAllTokens_loop fuel lx2 input2 = Ok (lx2, input3))
        /\ exists line_tokens,
             tokens_ lx2 = tokens_ lx0 ++ line_tokens
             /\ Forall (fun t => Is_Newline t = false) line_tokens
             /\ tokens_ (push_back token_type.Eof (ProcessNextLine_if outstanding lx2))
                = tokens_ lx0 ++ line_tokens
                  ++ (if outstanding then [token_type.Newline] else [])
                  ++ [token_type.Eof]
             /\ (outstanding = false <->
                 line_tokens = [] \/ last line_tokens = Some token_type.Dedent)).
Proof.
  split; [exact tokenize_no_consecutive_newlines|].
  split; [exact one_Newline_per_line|].
  split; [|split; [exact ProcessAllTokens_end|]].
  - intros lx before k rest Hstart. split; [apply ProcessIndent_blank_line|].
    rewrite ProcessNextToken_LF. f_equal.
    destruct (ProcessNextLine_tokens lx) as (_ & Hnewline & Hempty & _).
    destruct Hstart as [H|H]; [|exact (Hnewline H)].
    apply Hempty. apply last_None. exact H.
  - intros lx0 input0 lx1 input1 lx2 input2 outstanding
      Hstart Hgood Hindent Hline Hend Hout.
    split; [intros fuel Hfuel; now apply ProcessAllTokens_loop_at_end|].
    destruct (last_line_Newline lx0 input0 lx1 input1 lx2 input2 outstanding
                Hstart Hgood Hindent Hline Hout)
      as (line_tokens & Htok & Hnonl & Hnewline & Hdedent).
    exists line_tokens. split; [exact Htok|]. split; [exact Hnonl|].
    split; [|exact Hdedent].
    cbn [push_back tokens_]. rewrite Hnewline. now rewrite <- !app_assoc.
Qed.

(** ** String literals *)

Lemma is_quote_not_BACKSLASH q : is_quote q = true -> Ascii.eqb BACKSLASH q = false.
Proof.
  unfold is_quote. intros H. apply orb_true_iff in H as [H|H];
    apply Ascii.eqb_eq in H; subst q; reflexivity.
Qed.

(** On a malformed literal the loop of [ProcessString] ends in a
    [ParsingError]. *)
Lemma ProcessString_loop_Malformed delim text :
  Malformed delim text -> is_quote delim = true ->
  forall fuel before e f b s,
    length text < fuel ->
    exists what,
      ProcessString_loop fuel delim (mkIstream before text e f b) s
      = Throw (ParsingError what).
Proof.
  intros Hmal Hq. pose proof (is_quote_not_BACKSLASH delim Hq) as Hbs.
  induction Hmal as [ | | ch rest Hch Heol | esc rest Hesc
                      | ch rest Hch Hnb _ IH | esc c rest Hesc _ IH ];
    intros fuel before e f b s Hfuel;
    (destruct fuel as [|fuel]; [cbn in Hfuel; lia|]);
    cbn [ProcessString_loop]; unfold sgetc, sbumpc;
    cbn -[BACKSLASH LF CR Ascii.eqb escape].
  - eauto.
  - rewrite Hbs, Ascii.eqb_refl. eauto.
  - apply Ascii.eqb_neq in Hch. rewrite Hch.
    destruct Heol as [->| ->]; cbn; eauto.
  - rewrite Hbs, Ascii.eqb_refl, Hesc. eauto.
  - apply Ascii.eqb_neq in Hch, Hnb. rewrite Hch, Hnb.
    destruct (Ascii.eqb ch LF || Ascii.eqb ch CR); [eauto|].
    apply IH. cbn in Hfuel. lia.
  - rewrite Hbs, Ascii.eqb_refl, Hesc. apply IH. cbn in Hfuel. lia.
Qed.

(** And only on a malformed literal does it end in an exception. *)
Lemma ProcessString_loop_Throw fuel : forall delim input s e,
  ProcessString_loop fuel delim input s = Throw e ->
  Malformed delim (remaining input) /\ is_ParsingError e = true.
Proof.
  induction fuel as [|fuel IH]; intros delim input s e; [discriminate|].
  destruct input as [before text ef ff bf].
  cbn [ProcessString_loop]. unfold sgetc, sbumpc. cbn.
  destruct text as [|ch text]; cbn; [intros [= <-]; split; [constructor | reflexivity]|].
  destruct (Ascii.eqb_spec ch delim) as [->|Hch]; [discriminate|].
  destruct (Ascii.eqb_spec ch BACKSLASH) as [->|Hnb].
  - destruct text as [|esc text]; cbn;
      [intros [= <-]; split; [constructor | reflexivity]|].
    destruct (escape esc) as [c|] eqn:Hesc.
    + intros H. apply IH in H as [H ?]. cbn in H. split; [|assumption].
      eapply Malformed_after_escape; eassumption.
    + intros [= <-]. split; [now apply Malformed_escape | reflexivity].
  - destruct (Ascii.eqb_spec ch LF) as [->|Hlf]; cbn.
    { intros [= <-]. split; [|reflexivity]. apply Malformed_end_of_line; auto. }
    destruct (Ascii.eqb_spec ch CR) as [->|Hcr]; cbn.
    { intros [= <-]. split; [|reflexivity]. apply Malformed_end_of_line; auto. }
    intros H. apply IH in H as [H ?]. cbn in H. split; [|assumption].
    now apply Malformed_after_char.
Qed.

Lemma ProcessNextToken_quote lx before q body :
  is_quote q = true ->
  ProcessNextToken lx (mkIstream before (q :: body) false false false)
  = ProcessString lx (mkIstream before (q :: body) false false false).
Proof.
  intros Hq. unfold ProcessNextToken.
  change (get (mkIstream before (q :: body) false false false))
    with (Some q, mkIstream (q :: before) body false false false).
  cbn [to_char]. rewrite putback_last.
  assert (Hlf : Ascii.eqb q LF = false).
  { unfold is_quote in Hq. apply orb_true_iff in Hq as [H|H];
      apply Ascii.eqb_eq in H; subst q; reflexivity. }
  rewrite Hlf. unfold is_quote in Hq. now rewrite Hq.
Qed.

Lemma ProcessString_Malformed lx before q body :
  is_quote q = true -> Malformed q body ->
  exists what,
    ProcessString lx (mkIstream before (q :: body) false false false)
    = Throw (ParsingError what).
Proof.
  intros Hq Hmal. unfold ProcessString.
  change (get (mkIstream before (q :: body) false false false))
    with (Some q, mkIstream (q :: before) body false false false).
  cbn [to_char remaining].
  destruct (ProcessString_loop_Malformed q body Hmal Hq (S (length body))
              (q :: before) false false false []) as [what ->]; [lia|].
  now exists what.
Qed.

Lemma ProcessString_Throw lx before q body e :
  ProcessString lx (mkIstream before (q :: body) false false false) = Throw e ->
  Malformed q body /\ is_ParsingError e = true.
Proof.
  unfold ProcessString.
  change (get (mkIstream before (q :: body) false false false))
    with (Some q, mkIstream (q :: before) body false false false).
  cbn [to_char remaining].
  destruct (ProcessString_loop _ _ _ _) as [[s input']|e'|] eqn:Hloop; try discriminate.
  intros [= <-]. now apply ProcessString_loop_Throw in Hloop.
Qed.

(** The loop, entered with enough iterations to spare, comes by every
    state it reaches. *)
Lemma reaches_loop st st' :
  reaches st st' -> good (snd st') = true ->
  forall fuel, S (length (remaining (snd st))) < fuel ->
  exists fuel',
    S (length (remaining (snd st'))) < fuel'
    /\ ProcessAllTokens_loop fuel (fst st) (snd st)
       = ProcessAllTokens_loop fuel' (fst st') (snd st').
Proof.
  induction 1 as [st | lx input [lx1 input1] st' Hgood Hstep Hreach IH];
    intros Hgood' fuel Hfuel.
  - now exists fuel.
  - cbn [fst snd] in *. destruct fuel as [|fuel]; [lia|].
    cbn [ProcessAllTokens_loop]. rewrite Hgood, Hstep.
    rewrite (good_eta input Hgood) in Hstep.
    destruct (remaining input) as [|c text] eqn:Htext.
    + rewrite ProcessNextToken_at_end in Hstep. injection Hstep as <- <-.
      exfalso. inversion Hreach as [st Hst | lx2 input2 st2 st3 Hg2 _ _ Hst]; subst.
      * cbn in Hgood'. discriminate.
      * cbn in Hg2. discriminate.
    + pose proof (ProcessNextToken_sound lx (consumed input) c text) as Hsound.
      rewrite Hstep in Hsound. destruct Hsound as [_ Hle].
      apply IH; [exact Hgood'|]. cbn in Hfuel, Hle. lia.
Qed.

(** C2, as the code has it.  A string literal is malformed when its
    closing delimiter is missing at the end of the text, or a line feed
    or a carriage return stands in it, or it holds an escape sequence
    that is not recognised.  At such a literal, and at no other,
    [ProcessString] throws; what it throws is a [ParsingError], the class
    declared beside [LexerError] in lexer.h, not a [LexerError]; and the
    exception leaves the constructor of the lexer, so that there are no
    tokens at all. *)
Theorem C2_malformed_string_is_ParsingError :
  (forall lx before q body,
      is_quote q = true ->
      (Malformed q body <->
       exists e,
         ProcessNextToken lx (mkIstream before (q :: body) false false false)
         = Throw e)
      /\ (forall e,
            ProcessNextToken lx (mkIstream before (q :: body) false false false)
            = Throw e ->
            is_ParsingError e = true /\ is_LexerError e = false))
  /\ (forall text st0 lx input q body,
        start text = Ok st0 ->
        reaches st0 (lx, input) ->
        good input = true ->
        remaining input = q :: body ->
        is_quote q = true ->
        Malformed q body ->
        exists what, tokenize text = Throw (ParsingError what)).
Proof.
  split.
  - intros lx before q body Hq. rewrite ProcessNextToken_quote by exact Hq. split.
    + split.
      * intros Hmal.
        destruct (ProcessString_Malformed lx before q body Hq Hmal) as [what ->].
        eauto.
      * intros [e He]. now apply ProcessString_Throw in He.
    + intros e He. apply ProcessString_Throw in He as [_ He].
      split; [exact He | now destruct e].
  - intros text [lx0 input0] lx input q body Hstart Hreach Hgood Hrem Hq Hmal.
    unfold tokenize, new_Lexer, ProcessAllTokens.
    unfold start in Hstart. rewrite Hstart.
    destruct (reaches_loop _ _ Hreach Hgood (S (S (length (remaining input0)))))
      as (fuel' & Hfuel' & Hloop); [cbn; lia|].
    cbn [fst snd] in Hloop, Hfuel'. rewrite Hloop.
    destruct fuel' as [|fuel']; [lia|]. cbn [ProcessAllTokens_loop].
    rewrite Hgood. rewrite (good_eta input Hgood), Hrem.
    rewrite ProcessNextToken_quote by exact Hq.
    destruct (ProcessString_Malformed lx (consumed input) q body Hq Hmal) as [what ->].
    now exists what.
Qed.

(** C2 as first stated does not hold: the lexer does not throw a
    [LexerError] at a malformed literal.  At each of the three kinds it
    throws a [ParsingError]. *)
Lemma C2_counterexample :
  tokenize program_unterminated_string
  = Throw (ParsingError "String parsing error")
  /\ tokenize program_line_feed_in_string
     = Throw (ParsingError "Unexpected end of line")
  /\ tokenize program_unknown_escape
     = Throw (ParsingError "Unrecognized escape sequence \q")
  /\ ~ (exists what, tokenize program_unterminated_string = Throw (LexerError what))
  /\ ~ (exists what, tokenize program_line_feed_in_string = Throw (LexerError what))
  /\ ~ (exists what, tokenize program_unknown_escape = Throw (LexerError what)).
Proof.
  assert (H1 : tokenize program_unterminated_string
               = Throw (ParsingError "String parsing error")) by reflexivity.
  assert (H2 : tokenize program_line_feed_in_string
               = Throw (ParsingError "Unexpected end of line")) by reflexivity.
  assert (H3 : tokenize program_unknown_escape
               = Throw (ParsingError "Unrecognized escape sequence \q")) by reflexivity.
  repeat split; try assumption; intros [what H]; congruence.
Qed.

Lemma C2_witness :
  exists what, tokenize program_unterminated_string = Throw (ParsingError what).
Proof.
  destruct C2_malformed_string_is_ParsingError as [_ Hthrows].
  eapply (Hthrows program_unterminated_string _ _ _ SQUOTE (list_ascii_of_string "abc")).
  - reflexivity.
  - eapply reaches_next; [reflexivity | vm_compute; reflexivity |].
    eapply reaches_next; [reflexivity | vm_compute; reflexivity |].
    eapply reaches_next; [reflexivity | vm_compute; reflexivity |].
    eapply reaches_next; [reflexivity | vm_compute; reflexivity |].
    apply reaches_here.
  - reflexivity.
  - reflexivity.
  - reflexivity.
  - cbn. repeat (apply Malformed_after_char; [discriminate | discriminate |]).
    apply Malformed_unterminated.
Defined.

Lemma C9_witness :
  ~ consecutive_newlines
      [token_type.Id "x"; token_type.Char "="; token_type.Number 1;
       token_type.Newline; token_type.Print; token_type.Id "x";
       token_type.Newline; token_type.Eof].
Proof.
  destruct C9_no_consecutive_newlines as [Hno _].
  apply (Hno program_with_blank_lines). reflexivity.
Defined.

(** C9 as first stated does not hold of a last line that no line feed
    ends: in this program the third line, a comment at the margin behind
    an indented line, gives a token, the [Dedent] that [ProcessIndent]
    pushes at its start, and no [Newline] is pushed behind it; the tokens
    end with [Dedent], [Eof].  Three lines gave tokens and there are two
    [Newline]s. *)
Lemma C9_counterexample :
  tokenize program_with_last_comment_line
  = Ok [token_type.If; token_type.Id "x"; token_type.Char ":"; token_type.Newline;
        token_type.Indent; token_type.Id "y"; token_type.Newline;
        token_type.Dedent; token_type.Eof]
  /\ ProcessIndent
       (mkLexer [token_type.If; token_type.Id "x"; token_type.Char ":";
                 token_type.Newline; token_type.Indent; token_type.Id "y";
                 token_type.Newline] 1 0)
       (mkIstream (rev (list_ascii_of_string ("if x:" +:+ nl +:+ "  y" +:+ nl)))
          (list_ascii_of_string "# c") false false false)
     = Ok (mkLexer [token_type.If; token_type.Id "x"; token_type.Char ":";
                    token_type.Newline; token_type.Indent; token_type.Id "y";
                    token_type.Newline; token_type.Dedent] 0 0,
           mkIstream (rev (list_ascii_of_string ("if x:" +:+ nl +:+ "  y" +:+ nl)))
             (list_ascii_of_string "# c") false false false)
  /\ count Is_Newline
       [token_type.If; token_type.Id "x"; token_type.Char ":"; token_type.Newline;
        token_type.Indent; token_type.Id "y"; token_type.Newline;
        token_type.Dedent; token_type.Eof] = 2.
Proof. repeat split. Qed.

(** ** Indentation *)

Lemma count_app kind ts1 ts2 :
  count kind (ts1 ++ ts2) = count kind ts1 + count kind ts2.
Proof. unfold count. now rewrite filter_app, length_app. Qed.

Lemma count_none kind ts :
  Forall (fun t => kind t = false) ts -> count kind ts = 0.
Proof.
  unfold count. induction 1 as [|t ts Ht _ IH]; [reflexivity|].
  rewrite filter_cons_False by congruence. exact IH.
Qed.

Lemma count_repeat kind t n :
  count kind (repeat t n) = if kind t then n else 0.
Proof.
  unfold count. induction n as [|n IH]; cbn [repeat]; [now destruct (kind t)|].
  destruct (kind t) eqn:Ht.
  - rewrite filter_cons_True by exact Ht. cbn. now rewrite IH.
  - rewrite filter_cons_False by congruence. exact IH.
Qed.

Lemma count_take_le kind k ts : count kind (take k ts) <= count kind ts.
Proof.
  rewrite <- (take_drop k ts) at 2. rewrite count_app. lia.
Qed.

(** Pushing tokens that are neither [Indent] nor [Dedent] keeps the
    indentation. *)
Lemma indentation_kept_app lx lx' new :
  tokens_ lx' = tokens_ lx ++ new ->
  prev_indent lx' = prev_indent lx ->
  Forall (fun t => Is_Indent t = false) new ->
  Forall (fun t => Is_Dedent t = false) new ->
  indentation_kept lx -> indentation_kept lx'.
Proof.
  intros Htok Hprev Hi Hd [Hprefix Htotal]. unfold indentation_kept.
  rewrite Htok, Hprev. split.
  - intros k. rewrite take_app, !count_app.
    rewrite (count_none Is_Dedent (take _ new)) by now apply Forall_take.
    specialize (Hprefix k). lia.
  - rewrite !count_app, (count_none _ _ Hi), (count_none _ _ Hd). lia.
Qed.

Lemma indentation_kept_ProcessNextLine lx :
  indentation_kept lx -> indentation_kept (ProcessNextLine lx).
Proof.
  intros H. unfold ProcessNextLine.
  destruct (back lx) as [t|]; [|exact H].
  destruct (negb (Is_Newline t)); [|exact H].
  apply (indentation_kept_app lx _ [token_type.Newline]);
    (reflexivity || assumption || (constructor; [reflexivity | constructor])).
Qed.

Lemma indentation_kept_adjust_indent indent lx :
  indentation_kept lx -> indentation_kept (adjust_indent indent lx).
Proof.
  intros [Hprefix Htotal]. unfold adjust_indent.
  destruct (Nat.ltb_spec (prev_indent lx) indent) as [Hlt|Hge].
  - unfold indentation_kept. cbn [tokens_ prev_indent set_prev_indent].
    destruct (tokens_push_back_n (indent - prev_indent lx) token_type.Indent lx)
      as [-> _].
    split.
    + intros k. rewrite take_app, !count_app.
      rewrite (count_none Is_Dedent (take _ (repeat _ _))).
      * specialize (Hprefix k). lia.
      * apply Forall_take, Forall_forall. intros t Ht.
        apply list_elem_of_In, repeat_spec in Ht. now subst t.
    + rewrite !count_app, !count_repeat. cbn. lia.
  - destruct (Nat.ltb_spec indent (prev_indent lx)) as [Hlt|Hge'];
      [|split; assumption].
    unfold indentation_kept. cbn [tokens_ prev_indent set_prev_indent].
    destruct (tokens_push_back_n (prev_indent lx - indent) token_type.Dedent lx)
      as [-> _].
    split.
    + intros k. rewrite take_app, !count_app.
      pose proof (count_take_le Is_Dedent (k - length (tokens_ lx))
                    (repeat token_type.Dedent (prev_indent lx - indent))) as Hle.
      rewrite count_repeat in Hle. cbn in Hle.
      destruct (Nat.le_gt_cases k (length (tokens_ lx))) as [Hk|Hk].
      * replace (k - length (tokens_ lx)) with 0 by lia. rewrite take_0.
        specialize (Hprefix k). change (count _ []) with 0.
        change (count Is_Indent []) with 0. lia.
      * rewrite (take_ge (tokens_ lx)) by lia. lia.
    + rewrite !count_app, !count_repeat. cbn. lia.
Qed.

Lemma lexeme_not_Indent_Dedent t :
  lexeme t = true -> Is_Indent t = false /\ Is_Dedent t = false.
Proof. now destruct t. Qed.

Lemma iteration_indentation_kept lx lx' :
  indentation_kept lx -> iteration lx lx' -> indentation_kept lx'.
Proof.
  intros H [(new & Htok & Hnew & Hprev) | [-> | [indent ->]]].
  - apply (indentation_kept_app lx lx' new); try assumption;
      (eapply Forall_impl; [exact Hnew|]); intros t Ht;
      now apply lexeme_not_Indent_Dedent in Ht.
  - now apply indentation_kept_ProcessNextLine.
  - now apply indentation_kept_adjust_indent, indentation_kept_ProcessNextLine.
Qed.

(** The part of the indentation balance that every token sequence of
    the lexer has: no prefix holds more [Dedent]s than [Indent]s, and
    the [Indent]s outnumber the [Dedent]s by the indentation the lexer
    ended at. *)
Lemma new_Lexer_indentation_kept text lx :
  new_Lexer (istream_of text) = Ok lx -> indentation_kept lx.
Proof.
  unfold new_Lexer.
  pose proof (ProcessAllTokens_sound indentation_kept iteration_indentation_kept
                (mkLexer [] 0 0) text eq_refl) as H.
  destruct (ProcessAllTokens _ _) as [[lx' input]|e|]; [|discriminate|discriminate].
  intros [= <-]. destruct H as (lx3 & Hlx3 & -> & _).
  - split; [intros k; destruct k; cbn; lia | reflexivity].
  - apply (indentation_kept_app lx3 _ [token_type.Eof]);
      (reflexivity || assumption || (constructor; [reflexivity | constructor])).
Qed.

End LexerSpec.

(** * The lexer on a text that ends in a line feed *)

Module LexerLineFeed.
Import Lexer LexerSpec.

Lemma reads_nil input : reads input input [].
Proof. now split. Qed.

Lemma reads_app input1 input2 input3 chars1 chars2 :
  reads input1 input2 chars1 -> reads input2 input3 chars2 ->
  reads input1 input3 (chars1 ++ chars2).
Proof.
  intros [Hc1 Hr1] [Hc2 Hr2]. split.
  - rewrite Hc2, Hc1, rev_app_distr. now rewrite app_assoc.
  - rewrite Hr1, Hr2. now rewrite app_assoc.
Qed.

Lemma reads_one before c text e f b :
  reads (mkIstream before (c :: text) e f b) (mkIstream (c :: before) text e f b) [c].
Proof. now split. Qed.

(** The loop of [ProcessIndent] reads spaces, and stops in a good stream
    before a character, or at the end of the text. *)
Lemma ProcessIndent_loop_reads fuel : forall before text n n' input',
  ProcessIndent_loop fuel (mkIstream before text false false false) n = Some (n', input') ->
  exists k,
    n' = n + k
    /\ reads (mkIstream before text false false false) input' (spaces k)
    /\ (remaining input' = [] <-> good input' = false).
Proof.
  induction fuel as [|fuel IH]; intros before text n n' input'; [discriminate|].
  cbn [ProcessIndent_loop]. unfold fail, peek, get, good, sgetc, sbumpc. cbn.
  destruct text as [|c text]; cbn.
  - intros [= <- <-]. exists 0. rewrite Nat.add_0_r. repeat split; reflexivity.
  - destruct (Ascii.eqb_spec c SPACE) as [->|Hc].
    + intros H. apply IH in H as (k & -> & Hreads & Hend).
      exists (S k). split; [lia|]. split; [|exact Hend].
      apply (reads_app _ _ _ [SPACE] (spaces k) (reads_one _ _ _ _ _ _) Hreads).
    + intros [= <- <-]. exists 0. rewrite Nat.add_0_r.
      repeat split; try reflexivity; discriminate.
Qed.

Lemma ProcessIndent_reads lx before text lx' input' :
  ProcessIndent lx (mkIstream before text false false false) = Ok (lx', input') ->
  exists k,
    reads (mkIstream before text false false false) input' (spaces k)
    /\ (remaining input' = [] <-> good input' = false)
    /\ (remaining input' = [] -> lx' = adjust_indent (k / 2) lx).
Proof.
  unfold ProcessIndent. cbn [remaining].
  destruct (ProcessIndent_loop _ _ _) as [[n input1]|] eqn:Hloop; [|discriminate].
  apply ProcessIndent_loop_reads in Hloop as (k & -> & Hreads & Hend).
  cbn [Nat.add]. unfold peek.
  destruct (good input1) eqn:Hgood.
  - destruct (sgetc input1) as [c|] eqn:Hc.
    + assert (Hrem : remaining input1 <> []).
      { intros H. apply Hend in H. congruence. }
      intros H. exists k.
      assert (Hin : input' = input1).
      { destruct (int_is (Some c) LF); [now injection H|].
        destruct (prev_indent lx <? k / 2)%nat; [now injection H|].
        destruct (k / 2 <? prev_indent lx)%nat; now injection H. }
      subst input'. split; [exact Hreads|].
      split; [rewrite Hgood; exact Hend | congruence].
    + unfold sgetc in Hc. destruct (remaining input1) eqn:Hrem; [|discriminate].
      destruct Hend as [Hend _]. specialize (Hend eq_refl). congruence.
  - cbn [int_is]. intros H. exists k.
    assert (Hin : input' = set_failbit input1
                  /\ lx' = adjust_indent (k / 2) lx).
    { unfold adjust_indent.
      destruct (prev_indent lx <? k / 2)%nat; [now injection H|].
      destruct (k / 2 <? prev_indent lx)%nat; now injection H. }
    destruct Hin as [-> ->]. split; [exact Hreads|]. split; [|reflexivity].
    cbn [remaining set_failbit]. split; [intros _ | intros _; now apply Hend].
    unfold good. cbn. now destruct (eofbit input1).
Qed.

Lemma ProcessWord_loop_reads fuel : forall before text word word' input',
  ProcessWord_loop fuel (mkIstream before text false false false) word
  = Some (word', input') ->
  exists chars,
    reads (mkIstream before text false false false) input' chars
    /\ Forall (fun c => is_word_char c = true) chars
    /\ bad_at_end input'.
Proof.
  induction fuel as [|fuel IH]; intros before text word word' input'; [discriminate|].
  cbn [ProcessWord_loop]. unfold peek, get, good, sgetc, sbumpc. cbn.
  destruct text as [|c text]; cbn.
  - intros [= <- <-]. exists [].
    split; [now split|]. split; [constructor | now intros _].
  - assert (Hnext : is_word_char c = true ->
                    ProcessWord_loop fuel (mkIstream (c :: before) text false false false)
                      (word ++ [c]) = Some (word', input') ->
                    exists chars,
                      reads (mkIstream before (c :: text) false false false) input' chars
                      /\ Forall (fun c => is_word_char c = true) chars
                      /\ bad_at_end input').
    { intros Hc H. apply IH in H as (chars & Hreads & Hall & Hend).
      exists (c :: chars). split; [|split; [now constructor | exact Hend]].
      apply (reads_app _ _ _ [c] chars (reads_one _ _ _ _ _ _) Hreads). }
    unfold is_word_char in Hnext.
    destruct (isalpha c); cbn; [now apply Hnext|].
    destruct (isdigit c); cbn; [now apply Hnext|].
    destruct (Ascii.eqb c "_"); cbn; [now apply Hnext|].
    intros [= <- <-]. exists [].
    split; [now split|]. split; [constructor | discriminate].
Qed.

Lemma ProcessNum_loop_reads fuel : forall before text num_str num_str' input',
  ProcessNum_loop fuel (mkIstream before text false false false) num_str
  = Some (num_str', input') ->
  exists chars,
    reads (mkIstream before text false false false) input' chars
    /\ Forall (fun c => isdigit c = true) chars
    /\ bad_at_end input'.
Proof.
  induction fuel as [|fuel IH]; intros before text num_str num_str' input';
    [discriminate|].
  cbn [ProcessNum_loop]. unfold peek, get, good, sgetc, sbumpc. cbn.
  destruct text as [|c text]; cbn.
  - intros [= <- <-]. exists [].
    split; [now split|]. split; [constructor | now intros _].
  - destruct (isdigit c) eqn:Hc; cbn.
    + intros H. apply IH in H as (chars & Hreads & Hall & Hend).
      exists (c :: chars). split; [|split; [now constructor | exact Hend]].
      apply (reads_app _ _ _ [c] chars (reads_one _ _ _ _ _ _) Hreads).
    + intros [= <- <-]. exists [].
      split; [now split|]. split; [constructor | discriminate].
Qed.

(** The loop of [ProcessString] ends behind the closing delimiter, and
    leaves the state bits alone. *)
Lemma ProcessString_loop_reads fuel : forall delim before text e f b s s' input',
  ProcessString_loop fuel delim (mkIstream before text e f b) s = Ok (s', input') ->
  exists chars,
    reads (mkIstream before text e f b) input' (chars ++ [delim])
    /\ good input' = good (mkIstream before text e f b).
Proof.
  induction fuel as [|fuel IH]; intros delim before text e f b s s' input';
    [discriminate|].
  cbn [ProcessString_loop]. unfold sgetc, sbumpc.
  destruct text as [|ch text]; cbn -[BACKSLASH LF CR escape]; [discriminate|].
  destruct (Ascii.eqb_spec ch delim) as [->|Hch].
  - intros [= <- <-]. exists []. split; [now split | reflexivity].
  - destruct (Ascii.eqb ch BACKSLASH).
    + destruct text as [|esc text]; cbn -[BACKSLASH LF CR escape]; [discriminate|].
      destruct (escape esc) as [c|]; [|discriminate].
      intros H. apply IH in H as (chars & Hreads & Hgood).
      exists (ch :: esc :: chars). split; [|exact Hgood].
      apply (reads_app _ (mkIstream (esc :: ch :: before) text e f b) _
               [ch; esc] (chars ++ [delim])); [now split | exact Hreads].
    + destruct (Ascii.eqb ch LF || Ascii.eqb ch CR); [discriminate|].
      intros H. apply IH in H as (chars & Hreads & Hgood).
      exists (ch :: chars). split; [|exact Hgood].
      apply (reads_app _ _ _ [ch] (chars ++ [delim]) (reads_one _ _ _ _ _ _) Hreads).
Qed.

(** [ignore(n, '\n')] reads up to the end of the text, or up to a line
    feed and that line feed too, or [n] characters. *)
Lemma ignore_loop_reads n : forall before text,
  let s' := ignore_loop n LF (mkIstream before text false false false) in
  exists chars,
    reads (mkIstream before text false false false) s' chars
    /\ ((eofbit s' = true /\ remaining s' = [] /\ Forall (fun c => c <> LF) chars)
        \/ (good s' = true
            /\ exists chars', chars = chars' ++ [LF] /\ Forall (fun c => c <> LF) chars')
        \/ (good s' = true /\ Forall (fun c => c <> LF) chars /\ length chars = n)).
Proof.
  induction n as [|n IH]; intros before text; cbn zeta.
  - exists []. split; [now split|]. right; right. repeat split. constructor.
  - cbn [ignore_loop]. unfold sgetc, sbumpc. cbn [remaining consumed eofbit failbit badbit].
    destruct text as [|c text].
    + exists []. split; [now split|]. left. repeat split. constructor.
    + destruct (Ascii.eqb_spec c LF) as [->|Hc].
      * exists [LF]. split; [now split|]. right; left. split; [reflexivity|].
        exists []. split; [reflexivity | constructor].
      * destruct (IH (c :: before) text) as (chars & Hreads & Hcases).
        exists (c :: chars). split.
        { apply (reads_app _ _ _ [c] chars (reads_one _ _ _ _ _ _) Hreads). }
        destruct Hcases as [(He & Hr & Hall) | [(Hg & chars' & -> & Hall) | (Hg & Hall & Hlen)]].
        -- left. repeat split; try assumption. now constructor.
        -- right; left. split; [exact Hg|]. exists (c :: chars').
           split; [reflexivity | now constructor].
        -- right; right. repeat split; try assumption; [now constructor | cbn; lia].
Qed.

(** [IgnoreComment] reads up to the next line feed, or up to the end of
    the text. *)
Lemma IgnoreComment_loop_reads fuel : forall before text input',
  IgnoreComment_loop fuel (mkIstream before text false false false) = Some input' ->
  exists chars,
    reads (mkIstream before text false false false) input' chars
    /\ Forall (fun c => c <> LF) chars
    /\ bad_at_end input'.
Proof.
  induction fuel as [|fuel IH]; intros before text input'; [discriminate|].
  cbn [IgnoreComment_loop].
  change (ignore 1024 LF (mkIstream before text false false false))
    with (ignore_loop 1024 LF (mkIstream before text false false false)).
  destruct (ignore_loop_reads 1024 before text) as (chars & Hreads & Hcases).
  set (s1 := ignore_loop 1024 LF (mkIstream before text false false false)) in *.
  clearbody s1. destruct s1 as [before1 text1 e1 f1 b1].
  destruct Hreads as [Hcons Hrem]. cbn in Hcons, Hrem.
  destruct Hcases as [(He & Hr & Hall) | [(Hg & chars' & -> & Hall) | (Hg & Hall & Hlen)]].
  - cbn in He, Hr. subst e1 text1.
    unfold eof, peek, good. cbn.
    intros [= <-]. exists chars. split; [now split|]. split; [exact Hall | now intros _].
  - apply good_true in Hg as (He & Hf & Hb). cbn in He, Hf, Hb. subst e1 f1 b1.
    rewrite rev_app_distr in Hcons. cbn in Hcons. subst before1.
    unfold eof, unget, clear_eofbit, good, sungetc, peek, sgetc. cbn.
    intros [= <-]. exists chars'. split; [|split; [exact Hall | discriminate]].
    split; [reflexivity|]. cbn. rewrite Hrem. now rewrite <- app_assoc.
  - apply good_true in Hg as (He & Hf & Hb). cbn in He, Hf, Hb. subst e1 f1 b1.
    destruct chars as [|c0 chars0] using rev_ind; [discriminate|]. clear IHchars0.
    rewrite rev_app_distr in Hcons. cbn in Hcons. subst before1.
    apply Forall_app in Hall as [Hall Hc0]. apply Forall_inv in Hc0.
    unfold eof, unget, clear_eofbit, good, sungetc, peek, sgetc. cbn.
    apply Ascii.eqb_neq in Hc0. rewrite Hc0. cbn.
    intros H. apply IH in H as (chars2 & [Hcons2 Hrem2] & Hall2 & Hend).
    cbn in Hcons2, Hrem2.
    exists (chars0 ++ chars2). split; [|split; [now apply Forall_app | exact Hend]].
    split.
    + cbn. now rewrite Hcons2, rev_app_distr, app_assoc.
    + cbn. rewrite Hrem, <- !app_assoc. f_equal. exact Hrem2.
Qed.

Lemma word_char_not_LF c : is_word_char c = true -> c <> LF.
Proof. intros H ->. discriminate H. Qed.

Lemma digit_not_LF c : isdigit c = true -> c <> LF.
Proof. intros H ->. discriminate H. Qed.

Lemma IsComparisonOperator_not_LF c d : IsComparisonOperator c d = true -> d <> LF.
Proof.
  intros H ->. revert H. unfold IsComparisonOperator. cbn.
  destruct (Ascii.eqb c ">"), (Ascii.eqb c "="), (Ascii.eqb c "<"), (Ascii.eqb c "!");
    discriminate.
Qed.

Lemma last_of_all (P : ascii -> Prop) c chars :
  Forall P (c :: chars) -> exists init d, c :: chars = init ++ [d] /\ P d.
Proof.
  intros Hall. destruct (exists_last (l := c :: chars)) as (init & d & Heq);
    [discriminate|].
  exists init, d. split; [exact Heq|].
  rewrite Heq in Hall. apply Forall_app in Hall as [_ Hd]. now apply Forall_inv in Hd.
Qed.

(** An iteration that does not read a line feed reads at least one
    character, and the last character it reads is not a line feed. *)
Lemma ProcessNextToken_reads lx before c text lx' input' :
  c <> LF ->
  ProcessNextToken lx (mkIstream before (c :: text) false false false)
  = Ok (lx', input') ->
  exists chars d,
    reads (mkIstream before (c :: text) false false false) input' (chars ++ [d])
    /\ d <> LF
    /\ bad_at_end input'.
Proof.
  intros Hc. unfold ProcessNextToken.
  change (get (mkIstream before (c :: text) false false false))
    with (Some c, mkIstream (c :: before) text false false false).
  cbn [to_char]. rewrite putback_last.
  pose proof (reads_one before c text false false false) as Hone.
  destruct (Ascii.eqb_spec c LF) as [->|_]; [congruence|].
  destruct (Ascii.eqb c DQUOTE || Ascii.eqb c SQUOTE).
  { unfold ProcessString.
    change (get (mkIstream before (c :: text) false false false))
      with (Some c, mkIstream (c :: before) text false false false).
    cbn [to_char remaining].
    destruct (ProcessString_loop _ _ _ _) as [[s input1]|e|] eqn:Hloop; try discriminate.
    intros [= <- <-].
    apply ProcessString_loop_reads in Hloop as (chars & Hreads & Hgood).
    exists (c :: chars), c. split; [|split; [exact Hc|]].
    - apply (reads_app _ _ _ [c] (chars ++ [c]) Hone Hreads).
    - intros H. rewrite Hgood in H. discriminate H. }
  destruct (Ascii.eqb c "_" || isalpha c) eqn:Hword.
  { assert (Hwc : is_word_char c = true).
    { unfold is_word_char.
      destruct (isalpha c), (isdigit c), (Ascii.eqb c "_"); cbn in *; congruence. }
    unfold ProcessWord. cbn [remaining length].
    rewrite ProcessWord_loop_first by exact Hwc.
    destruct (ProcessWord_loop _ _ _) as [[word input1]|] eqn:Hloop; [|discriminate].
    apply ProcessWord_loop_reads in Hloop as (chars & Hreads & Hall & Hend).
    intros H.
    assert (Hin : input' = input1) by (destruct (IsKeyWord _); now injection H).
    subst input'.
    destruct (last_of_all (fun c => is_word_char c = true) c chars)
      as (init & d & Heq & Hd); [now constructor|].
    exists init, d. rewrite <- Heq. split; [|split; [now apply word_char_not_LF | exact Hend]].
    apply (reads_app _ _ _ [c] chars Hone Hreads). }
  destruct (isdigit c) eqn:Hdigit.
  { unfold ProcessNum. cbn [remaining length].
    rewrite ProcessNum_loop_first by exact Hdigit.
    destruct (ProcessNum_loop _ _ _) as [[num_str input1]|] eqn:Hloop; [|discriminate].
    apply ProcessNum_loop_reads in Hloop as (chars & Hreads & Hall & Hend).
    intros H.
    assert (Hin : input' = input1) by (destruct (stoi num_str); congruence).
    subst input'.
    destruct (last_of_all (fun c => isdigit c = true) c chars)
      as (init & d & Heq & Hd); [now constructor|].
    exists init, d. rewrite <- Heq. split; [|split; [now apply digit_not_LF | exact Hend]].
    apply (reads_app _ _ _ [c] chars Hone Hreads). }
  destruct (Ascii.eqb c "#").
  { unfold IgnoreComment. cbn [remaining].
    destruct (IgnoreComment_loop _ _) as [input1|] eqn:Hloop; [|discriminate].
    apply IgnoreComment_loop_reads in Hloop as (chars & Hreads & Hall & Hend).
    intros [= <- <-].
    destruct (last_of_all (fun c => c <> LF) c chars)
      as (init & d & Heq & Hd); [now constructor|].
    exists init, d. rewrite <- Heq. split; [|split; [exact Hd | exact Hend]].
    apply (reads_app _ _ _ [c] chars Hone Hreads). }
  destruct (ispunct c).
  { destruct text as [|d text].
    - change (get (mkIstream (c :: before) [] false false false))
        with (@Datatypes.None ascii, mkIstream (c :: before) [] true true false).
      cbn [to_char].
      intros H. exists [], c.
      assert (Hin : consumed input' = c :: before /\ remaining input' = []).
      { destruct (IsComparisonOperator _ _); injection H as _ <-; now split. }
      destruct Hin as [Hcons Hrem].
      split; [split; [exact Hcons | now rewrite Hrem]|]. split; [exact Hc | now intros _].
    - change (get (mkIstream (c :: before) (d :: text) false false false))
        with (Some d, mkIstream (d :: c :: before) text false false false).
      cbn [to_char]. rewrite putback_last.
      destruct (IsComparisonOperator c d) eqn:Hop; intros [= <- <-].
      + exists [c], d. split; [now split|].
        split; [now apply (IsComparisonOperator_not_LF c) | discriminate].
      + exists [], c. split; [now split|]. split; [exact Hc | discriminate]. }
  intros [= <- <-]. exists [], c. split; [now split|]. split; [exact Hc | discriminate].
Qed.

Lemma prev_indent_adjust_indent_0 lx : prev_indent (adjust_indent 0 lx) = 0.
Proof.
  unfold adjust_indent. cbn.
  destruct (prev_indent lx) as [|n] eqn:Hn; cbn; [exact Hn | reflexivity].
Qed.

Lemma hd_spaces k (l : list ascii) :
  hd_error (rev (spaces k) ++ LF :: l) = Some LF -> k = 0.
Proof.
  destruct k as [|k]; [reflexivity|].
  unfold spaces. cbn [repeat rev]. rewrite <- !app_assoc.
  destruct (rev (repeat SPACE k)) as [|c l'] eqn:Hrev; cbn; [discriminate|].
  intros [= ->].
  assert (Hin : In LF (rev (repeat SPACE k))) by (rewrite Hrev; now left).
  apply in_rev, repeat_spec in Hin. discriminate Hin.
Qed.

Section Text.

(** The text the lexer is given. *)
Variable text : list ascii.

Lemma between_iterations_next lx input lx' input' :
  good input = true ->
  between_iterations text (lx, input) ->
  ProcessNextToken lx input = Ok (lx', input') ->
  between_iterations text (lx', input').
Proof.
  intros Hgood ((chars & Hread) & _ & Hclosed) Hstep.
  rewrite (good_eta input Hgood) in Hstep, Hread.
  unfold closed_behind_line_feed in Hclosed. cbn [fst snd] in *.
  destruct (remaining input) as [|c rest] eqn:Hrem.
  - rewrite ProcessNextToken_at_end in Hstep. injection Hstep as <- <-.
    split; [|split].
    + exists chars. destruct Hread as [H1 H2]. now split.
    + now intros _.
    + intros _ Hhd. cbn in Hhd.
      destruct (Hclosed eq_refl Hhd) as [_ Hbad]. congruence.
  - destruct (Ascii.eqb_spec c LF) as [->|Hc].
    + rewrite ProcessNextToken_LF in Hstep.
      apply ProcessIndent_reads in Hstep as (k & Hreads & Hend & Hlx).
      split; [|split].
      * exists ((chars ++ [LF]) ++ spaces k).
        apply (reads_app _ _ _ _ _ (reads_app _ _ _ _ _ Hread
                 (reads_one (consumed input) LF rest false false false)) Hreads).
      * intros Hbad. now apply Hend.
      * intros Hrem' Hhd. cbn [fst snd] in *.
        destruct Hreads as [Hcons _]. cbn in Hcons. rewrite Hcons in Hhd.
        apply hd_spaces in Hhd. subst k.
        rewrite (Hlx Hrem'). split; [apply prev_indent_adjust_indent_0 | now apply Hend].
    + destruct (ProcessNextToken_reads lx (consumed input) c rest lx' input' Hc Hstep)
        as (chars' & d & Hreads & Hd & Hend).
      split; [|split].
      * exists (chars ++ chars' ++ [d]). apply (reads_app _ _ _ _ _ Hread Hreads).
      * exact Hend.
      * intros _ Hhd. cbn [fst snd] in *.
        destruct Hreads as [Hcons _]. rewrite Hcons, rev_app_distr in Hhd.
        cbn in Hhd. congruence.
Qed.

Lemma between_iterations_loop fuel : forall lx input lx' input',
  between_iterations text (lx, input) ->
  ProcessAllTokens_loop fuel lx input = Ok (lx', input') ->
  between_iterations text (lx', input') /\ good input' = false.
Proof.
  induction fuel as [|fuel IH]; intros lx input lx' input' Hinv; [discriminate|].
  cbn [ProcessAllTokens_loop].
  destruct (good input) eqn:Hgood; [|intros [= <- <-]; now split].
  destruct (ProcessNextToken lx input) as [[lx1 input1]|e|] eqn:Hstep; try discriminate.
  apply IH. now apply (between_iterations_next lx input).
Qed.

Lemma between_iterations_start lx lx1 input1 :
  ProcessIndent lx (istream_of text) = Ok (lx1, input1) ->
  between_iterations text (lx1, input1).
Proof.
  intros Hind. apply ProcessIndent_reads in Hind as (k & Hreads & Hend & _).
  split; [now exists (spaces k)|]. split; [intros Hbad; now apply Hend|].
  intros _ Hhd. cbn [fst snd] in *. destruct Hreads as [Hcons _].
  cbn in Hcons. rewrite Hcons, app_nil_r in Hhd.
  destruct (rev (spaces k)) as [|c l] eqn:Hrev; [discriminate|].
  injection Hhd as ->.
  assert (Hin : In LF (rev (spaces k))) by (rewrite Hrev; now left).
  apply in_rev, repeat_spec in Hin. discriminate Hin.
Qed.

End Text.

(** Behind a text that ends in a line feed the lexer is back at
    indentation zero: its tokens hold as many [Dedent]s as [Indent]s. *)
Theorem last_line_feed_closes_indentation body lx :
  new_Lexer (istream_of (body ++ [LF])) = Ok lx ->
  prev_indent lx = 0
  /\ count Is_Indent (tokens_ lx) = count Is_Dedent (tokens_ lx).
Proof.
  intros Hnew.
  assert (Hzero : prev_indent lx = 0).
  { revert Hnew. unfold new_Lexer, ProcessAllTokens.
    destruct (ProcessIndent _ _) as [[lx1 input1]|e|] eqn:Hind; try discriminate.
    destruct (ProcessAllTokens_loop _ _ _) as [[lx2 input2]|e|] eqn:Hloop;
      try discriminate.
    apply between_iterations_start in Hind.
    destruct (between_iterations_loop _ _ _ _ _ _ Hind Hloop)
      as [((chars & Hcons & Hrem) & Hend & Hclosed) Hbad].
    unfold closed_behind_line_feed in Hclosed.
    cbn [fst snd] in *. specialize (Hend Hbad).
    cbn in Hcons, Hrem. rewrite Hend, app_nil_r in Hrem. subst chars.
    rewrite rev_app_distr, app_nil_r in Hcons. cbn in Hcons.
    destruct (Hclosed Hend) as [Hzero _]; [now rewrite Hcons|].
    intros [= <-]. cbn [prev_indent push_back].
    destruct (back lx2) as [t|]; [|exact Hzero].
    destruct (negb (Is_Dedent t) && negb (Is_Newline t)); [|exact Hzero].
    now rewrite (proj2 (proj2 (proj2 (ProcessNextLine_tokens lx2)))). }
  split; [exact Hzero|].
  destruct (new_Lexer_indentation_kept _ _ Hnew) as [_ Htotal]. lia.
Qed.

(** C3, where the code departs from it.  The last line of the program is
    indented and no line feed follows it: the lexer pushes the
    outstanding [Newline] and [Eof], but no [Dedent]; the tokens hold
    one [Indent] and no [Dedent].  With the line feed the [Dedent] is
    there, as it is behind every text that ends in a line feed: there
    the [Indent]s and the [Dedent]s are as many.  And what every token
    sequence of the lexer has: no prefix holds more [Dedent]s than
    [Indent]s, and the [Indent]s outnumber the [Dedent]s by the
    indentation the lexer ended at. *)
Theorem C3_no_Dedent_without_last_line_feed :
  tokenize program_without_last_line_feed
  = Ok [token_type.If; token_type.Id "x"; token_type.Char ":"; token_type.Newline;
        token_type.Indent; token_type.Id "y"; token_type.Newline; token_type.Eof]
  /\ (forall ts, tokenize program_without_last_line_feed = Ok ts ->
                 count Is_Indent ts = 1 /\ count Is_Dedent ts = 0)
  /\ tokenize program_with_last_line_feed
     = Ok [token_type.If; token_type.Id "x"; token_type.Char ":"; token_type.Newline;
           token_type.Indent; token_type.Id "y"; token_type.Newline;
           token_type.Dedent; token_type.Eof]
  /\ (forall body lx,
        new_Lexer (istream_of (body ++ [LF])) = Ok lx ->
        prev_indent lx = 0
        /\ count Is_Indent (tokens_ lx) = count Is_Dedent (tokens_ lx))
  /\ (forall text lx,
        new_Lexer (istream_of text) = Ok lx ->
        (forall k, count Is_Dedent (take k (tokens_ lx))
                   <= count Is_Indent (take k (tokens_ lx)))
        /\ count Is_Indent (tokens_ lx) = count Is_Dedent (tokens_ lx) + prev_indent lx).
Proof.
  assert (H : tokenize program_without_last_line_feed
              = Ok [token_type.If; token_type.Id "x"; token_type.Char ":";
                    token_type.Newline; token_type.Indent; token_type.Id "y";
                    token_type.Newline; token_type.Eof]) by reflexivity.
  split; [exact H|].
  split; [|split; [reflexivity|split;
    [exact last_line_feed_closes_indentation | exact new_Lexer_indentation_kept]]].
  intros ts Hts. rewrite H in Hts. injection Hts as <-. split; reflexivity.
Qed.

Lemma C3_witness :
  count Is_Indent
    [token_type.If; token_type.Id "x"; token_type.Char ":"; token_type.Newline;
     token_type.Indent; token_type.Id "y"; token_type.Newline; token_type.Eof] = 1
  /\ count Is_Dedent
       [token_type.If; token_type.Id "x"; token_type.Char ":"; token_type.Newline;
        token_type.Indent; token_type.Id "y"; token_type.Newline; token_type.Eof] = 0.
Proof.
  destruct C3_no_Dedent_without_last_line_feed as (_ & Hcount & _).
  apply Hcount. reflexivity.
Defined.

End LexerLineFeed.

(** * More of the class runtime

    The method tables of classes and the comparisons of scalars, as
    runtime.cpp has them. *)

Module RuntimeMore.
Import Runtime RuntimeSpec.

Section Facts.

Context {Executable : Type}.
Variable Execute : Executable -> Closure Executable -> M Executable (ObjectHolder Executable).

(** ** The method table of a class *)

Lemma index_of_methods (methods : list (Method Executable)) :
  forall (index : gmap string (Method Executable)) nm,
  foldl (fun index method => <[name method := method]> index) index methods !! nm
  = match last (filter (fun method => name method = nm) methods) with
    | Some method => Some method
    | None => index !! nm
    end.
Proof.
  induction methods as [|m methods IH]; intros index nm; [reflexivity|].
  cbn [foldl]. rewrite IH. rewrite filter_cons.
  destruct (decide (name m = nm)) as [Hnm|Hnm].
  - rewrite last_cons.
    destruct (last (filter _ methods)); [reflexivity|].
    subst nm. now rewrite lookup_insert_eq.
  - destruct (last (filter _ methods)); [reflexivity|].
    now rewrite lookup_insert_ne.
Qed.

Lemma metod_name_to_ptr__last (c : Class Executable) nm :
  metod_name_to_ptr_ c !! nm = last (filter (fun method => name method = nm) (methods_ c)).
Proof.
  unfold metod_name_to_ptr_. rewrite index_of_methods.
  destruct (last _); [reflexivity|apply lookup_empty].
Qed.

Lemma GetMethod_chain (c : Class Executable) nm :
  GetMethod c nm
  = head (omap (fun d => last (filter (fun method => name method = nm) (methods_ d)))
            (c :: ancestors c)).
Proof.
  induction c as [nm_ ms p IH] using Class_chain_ind.
  rewrite GetMethod_unfold. rewrite metod_name_to_ptr__last.
  cbn [omap list_omap methods_ parent_ ancestors head].
  destruct (last (filter _ ms)) as [m|]; [reflexivity|].
  destruct p as [p|]; [|reflexivity].
  now rewrite (IH p eq_refl).
Qed.

(** X1.  Which method a name resolves to.  The table the constructor of
    [Class] builds holds, for a name, the last of the methods of that
    name in the list the class was made with: of two methods with one
    name the later one wins.  [GetMethod] returns the entry of the
    nearest class, from the class itself upwards, that has a method of
    the name.  So the method found bears the name asked for and is a
    method of the class or of one above it; no method is found exactly
    when no class of the chain has one of that name; and an instance has
    a method of a name with one number of parameters at most: methods
    are not overloaded by their number of parameters. *)
Theorem X1_method_lookup (c : Class Executable) nm :
  metod_name_to_ptr_ c !! nm = last (filter (fun method => name method = nm) (methods_ c))
  /\ GetMethod c nm
     = head (omap (fun d => last (filter (fun method => name method = nm) (methods_ d)))
               (c :: ancestors c))
  /\ (forall method,
        GetMethod c nm = Some method ->
        name method = nm /\ exists d, d ∈ c :: ancestors c /\ method ∈ methods_ d)
  /\ (GetMethod c nm = None <->
      forall d method, d ∈ c :: ancestors c -> method ∈ methods_ d -> name method <> nm)
  /\ (forall n n', HasMethod c nm n = true -> HasMethod c nm n' = true -> n = n').
Proof.
  split; [apply metod_name_to_ptr__last|]. split; [apply GetMethod_chain|].
  assert (Harity : forall n n', HasMethod c nm n = true -> HasMethod c nm n' = true -> n = n').
  { unfold HasMethod. destruct (GetMethod c nm) as [method|]; [|discriminate].
    intros n n' H1 H2. apply Nat.eqb_eq in H1, H2. congruence. }
  rewrite GetMethod_chain. split; [|split; [|exact Harity]].
  - intros method Hhead. apply head_Some_elem_of in Hhead.
    apply list_elem_of_omap in Hhead as (d & Hd & Hlast).
    apply last_Some_elem_of in Hlast. apply list_elem_of_filter in Hlast as [Hnm Hin].
    split; [assumption|]. now exists d.
  - rewrite head_None. split.
    + intros Hnil d method Hd Hin Hnm.
      destruct (last (filter (fun method => name method = nm) (methods_ d))) as [m|] eqn:Hlast.
      * assert (Hm : m ∈ omap (fun d => last (filter (fun method => name method = nm)
                                              (methods_ d))) (c :: ancestors c))
          by (apply list_elem_of_omap; eauto).
        rewrite Hnil in Hm. now apply not_elem_of_nil in Hm.
      * apply last_None in Hlast.
        assert (Hm : method ∈ filter (fun method => name method = nm) (methods_ d))
          by (apply list_elem_of_filter; now split).
        rewrite Hlast in Hm. now apply not_elem_of_nil in Hm.
    + intros Hnone.
      destruct (omap _ _) as [|m l] eqn:Homap; [reflexivity|].
      assert (Hm : m ∈ omap (fun d => last (filter (fun method => name method = nm)
                                              (methods_ d))) (c :: ancestors c))
        by (rewrite Homap; apply list_elem_of_here).
      apply list_elem_of_omap in Hm as (d & Hd & Hlast).
      apply last_Some_elem_of in Hlast. apply list_elem_of_filter in Hlast as [Hnm Hin].
      now destruct (Hnone d m Hd Hin).
Qed.


(** ** Comparing scalars *)

Lemma String_compare_refl (s : string) : String.compare s s = Datatypes.Eq.
Proof.
  pose proof (String.compare_antisym s s) as H.
  destruct (String.compare s s); [reflexivity|discriminate|discriminate].
Qed.

Lemma String_order (a b : string) :
  exactly_one (String.ltb a b) (String.eqb a b) (String.ltb b a) = true.
Proof.
  unfold String.ltb. rewrite (String.compare_antisym a b).
  destruct (String.eqb_spec a b) as [->|Hne].
  - now rewrite String_compare_refl.
  - destruct (String.compare b a) eqn:Hc; [|reflexivity|reflexivity].
    apply String.compare_eq_iff in Hc. congruence.
Qed.

Lemma Z_order (a b : Z) :
  exactly_one (a <? b)%Z (a =? b)%Z (b <? a)%Z = true.
Proof.
  destruct (Z.ltb_spec a b), (Z.eqb_spec a b), (Z.ltb_spec b a); try lia; reflexivity.
Qed.

Lemma bool_order (a b : bool) :
  exactly_one (negb a && b) (Bool.eqb a b) (negb b && a) = true.
Proof. now destruct a, b. Qed.

Lemma comparisons_of_scalars lhs rhs h (less equal greater : bool) :
  Less Execute lhs rhs h = ret less h ->
  Equal Execute lhs rhs h = ret equal h ->
  exactly_one less equal greater = true ->
  Greater Execute lhs rhs h = ret greater h
  /\ LessOrEqual Execute lhs rhs h = ret (negb greater) h
  /\ GreaterOrEqual Execute lhs rhs h = ret (negb less) h
  /\ NotEqual Execute lhs rhs h = ret (negb equal) h.
Proof.
  intros Hless Hequal Hone.
  assert (Hgreater : Greater Execute lhs rhs h = ret greater h).
  { unfold Greater, bind. rewrite Hless. cbn [outcome heap_after written ret].
    destruct less; [now destruct equal, greater|].
    rewrite Hequal. now destruct equal, greater. }
  split; [exact Hgreater|].
  unfold LessOrEqual, GreaterOrEqual, NotEqual, bind.
  rewrite Hgreater, Hless, Hequal. repeat split.
Qed.

Lemma scalar_kind_cases (v : ObjectHolder Executable) k :
  scalar_kind v = Some k ->
  match k with
  | KBool => exists p a, Get v = Some (p, OBool a)
  | KNumber => exists p a, Get v = Some (p, ONumber a)
  | KString => exists p a, Get v = Some (p, OString a)
  end.
Proof.
  unfold scalar_kind. destruct (Get v) as [[p [a|a|a|c|c]]|]; intros [= <-]; eauto.
Qed.

(** X2.  The scalars of one kind are totally ordered by the comparisons:
    for two numbers, two strings or two [Bool]s, [Less], [Equal] and
    [Less] with the sides exchanged all return, exactly one of them with
    true, and [Greater], [LessOrEqual], [GreaterOrEqual] and [NotEqual]
    return what that makes them; no comparison touches the heap or writes
    to the output. *)
Theorem X2_scalars_are_totally_ordered lhs rhs k h :
  scalar_kind lhs = Some k -> scalar_kind rhs = Some k ->
  exists less equal greater : bool,
    exactly_one less equal greater = true
    /\ Less Execute lhs rhs h = ret less h
    /\ Equal Execute lhs rhs h = ret equal h
    /\ Less Execute rhs lhs h = ret greater h
    /\ Greater Execute lhs rhs h = ret greater h
    /\ LessOrEqual Execute lhs rhs h = ret (negb greater) h
    /\ GreaterOrEqual Execute lhs rhs h = ret (negb less) h
    /\ NotEqual Execute lhs rhs h = ret (negb equal) h.
Proof.
  intros Hl Hr. apply scalar_kind_cases in Hl, Hr.
  destruct k; destruct Hl as (p & a & Hl); destruct Hr as (q & b & Hr).
  - assert (Hless : Less Execute lhs rhs h = ret (negb a && b) h)
      by (unfold Less; now rewrite Hl, Hr).
    assert (Hequal : Equal Execute lhs rhs h = ret (Bool.eqb a b) h)
      by (unfold Equal; now rewrite Hl, Hr).
    assert (Hgreater : Less Execute rhs lhs h = ret (negb b && a) h)
      by (unfold Less; now rewrite Hl, Hr).
    exists (negb a && b), (Bool.eqb a b), (negb b && a).
    split; [apply bool_order|]. do 3 (split; [assumption|]).
    apply comparisons_of_scalars; [assumption|assumption|apply bool_order].
  - assert (Hless : Less Execute lhs rhs h = ret (a <? b)%Z h)
      by (unfold Less; now rewrite Hl, Hr).
    assert (Hequal : Equal Execute lhs rhs h = ret (a =? b)%Z h)
      by (unfold Equal; now rewrite Hl, Hr).
    assert (Hgreater : Less Execute rhs lhs h = ret (b <? a)%Z h)
      by (unfold Less; now rewrite Hl, Hr).
    exists (a <? b)%Z, (a =? b)%Z, (b <? a)%Z.
    split; [apply Z_order|]. do 3 (split; [assumption|]).
    apply comparisons_of_scalars; [assumption|assumption|apply Z_order].
  - assert (Hless : Less Execute lhs rhs h = ret (String.ltb a b) h)
      by (unfold Less; now rewrite Hl, Hr).
    assert (Hequal : Equal Execute lhs rhs h = ret (String.eqb a b) h)
      by (unfold Equal; now rewrite Hl, Hr).
    assert (Hgreater : Less Execute rhs lhs h = ret (String.ltb b a) h)
      by (unfold Less; now rewrite Hl, Hr).
    exists (String.ltb a b), (String.eqb a b), (String.ltb b a).
    split; [apply String_order|]. do 3 (split; [assumption|]).
    apply comparisons_of_scalars; [assumption|assumption|apply String_order].
Qed.

(** X3.  The rules of [Less], and what the order comparisons do with
    [None].  For an instance on the left, [Less] is [IsTrue] of what its
    [__lt__] of one parameter returns, and a runtime error when it has
    none.  Otherwise, unless both sides are scalars of one kind, [Less]
    throws a runtime error and calls nothing, and so do [Greater],
    [LessOrEqual] and [GreaterOrEqual].  There is no rule for [None]:
    with [None] on both sides, where [Equal] returns true, [LessOrEqual]
    and [GreaterOrEqual] throw. *)
Theorem X3_Less_rule_order lhs rhs h :
  (forall this cls,
     Get lhs = Some (this, OClassInstance cls) ->
     (HasMethod cls LESS_THAN_METHOD 1 = true ->
        Less Execute lhs rhs h =
        fmap_run IsTrue (Call Execute this cls LESS_THAN_METHOD [rhs] h))
     /\ (HasMethod cls LESS_THAN_METHOD 1 = false ->
         Less Execute lhs rhs h =
         throw (runtime_error "Cannot compare objects for less") h))
  /\ (as_ClassInstance (Get lhs) = None ->
      scalar_kind lhs = None \/ scalar_kind lhs <> scalar_kind rhs ->
      Less Execute lhs rhs h = throw (runtime_error "Cannot compare objects for less") h
      /\ Greater Execute lhs rhs h
         = throw (runtime_error "Cannot compare objects for less") h
      /\ LessOrEqual Execute lhs rhs h
         = throw (runtime_error "Cannot compare objects for less") h
      /\ GreaterOrEqual Execute lhs rhs h
         = throw (runtime_error "Cannot compare objects for less") h)
  /\ (Get lhs = None -> Get rhs = None ->
      Equal Execute lhs rhs h = ret true h
      /\ fails (LessOrEqual Execute lhs rhs h) = true
      /\ fails (GreaterOrEqual Execute lhs rhs h) = true).
Proof.
  split; [|split].
  - intros this cls Hget. unfold Less. rewrite Hget. cbn [as_ClassInstance].
    split; intros ->; [apply bind_ret_fmap|reflexivity].
  - intros Hinst Hkind.
    assert (Hless : Less Execute lhs rhs h
                    = throw (runtime_error "Cannot compare objects for less") h).
    { unfold Less. rewrite Hinst. unfold scalar_kind in Hkind.
      destruct (Get lhs) as [[p [a|a|a|c|c]]|]; destruct (Get rhs) as [[q [b|b|b|d|d]]|];
        cbn in *; try reflexivity; destruct Hkind; congruence. }
    unfold LessOrEqual, GreaterOrEqual, Greater, bind. rewrite !Hless.
    repeat split.
  - intros Hl Hr. unfold LessOrEqual, GreaterOrEqual, Greater, Less, Equal, bind.
    rewrite Hl, Hr. repeat split.
Qed.

End Facts.

Lemma X1_witness :
  name (mkMethod "f" [] (ReturnNumber 2)) = "f"
  /\ exists d, d ∈ class_B :: ancestors class_B
               /\ mkMethod "f" [] (ReturnNumber 2) ∈ methods_ d.
Proof.
  apply (X1_method_lookup class_B "f"). reflexivity.
Defined.

Lemma X2_witness :
  exists less equal greater : bool,
    Less ExecuteBody some_number (HolderOwn 3%positive (ONumber 7)) ∅ = ret less ∅
    /\ Equal ExecuteBody some_number (HolderOwn 3%positive (ONumber 7)) ∅ = ret equal ∅
    /\ Less ExecuteBody (HolderOwn 3%positive (ONumber 7)) some_number ∅ = ret greater ∅.
Proof.
  destruct (X2_scalars_are_totally_ordered ExecuteBody some_number
              (HolderOwn 3%positive (ONumber 7)) KNumber ∅ eq_refl eq_refl)
    as (less & equal & greater & _ & H1 & H2 & H3 & _).
  exists less, equal, greater. repeat split; assumption.
Defined.

Lemma X3_witness :
  Equal ExecuteBody HolderNone HolderNone ∅ = ret true ∅
  /\ fails (LessOrEqual ExecuteBody HolderNone HolderNone ∅) = true
  /\ fails (GreaterOrEqual ExecuteBody HolderNone HolderNone ∅) = true.
Proof.
  apply (X3_Less_rule_order ExecuteBody HolderNone HolderNone ∅); reflexivity.
Defined.

End RuntimeMore.

(** * More of the lexer

    The tokens themselves, then what [ProcessNextToken] does at each kind
    of character, what the constructor keeps all along, and how the
    parser reads the tokens. *)

Module LexerTokens.
Import Lexer.

(** ** Tokens: comparison and printing *)

Lemma operator_eq_refl t : operator_eq t t = true.
Proof.
  destruct t; unfold operator_eq; simpl; auto using Z.eqb_refl, String.eqb_refl, Ascii.eqb_refl.
Qed.

(** X4.  [operator==] on tokens is equality of tokens: it returns true
    exactly when both sides hold the same alternative and, for [Number],
    [Id], [Char] and [String], the same value; [operator!=] is its
    negation.  So [operator==] is reflexive, symmetric and transitive. *)
Theorem X4_operator_eq_is_equality lhs rhs :
  (operator_eq lhs rhs = true <-> lhs = rhs)
  /\ operator_ne lhs rhs = negb (operator_eq lhs rhs)
  /\ (operator_ne lhs rhs = true <-> lhs <> rhs).
Proof.
  assert (Heq : operator_eq lhs rhs = true <-> lhs = rhs).
  { split.
    - destruct lhs, rhs; unfold operator_eq; simpl; try discriminate; try reflexivity;
        intros H.
      + now apply Z.eqb_eq in H; subst.
      + now apply String.eqb_eq in H; subst.
      + now apply Ascii.eqb_eq in H; subst.
      + now apply String.eqb_eq in H; subst.
    - intros ->. apply operator_eq_refl. }
  split; [exact Heq|]. split; [reflexivity|].
  unfold operator_ne. rewrite negb_true_iff, <- not_true_iff_false. now rewrite Heq.
Qed.

Lemma length_append (s1 s2 : string) :
  String.length (s1 +:+ s2) = String.length s1 + String.length s2.
Proof.
  induction s1 as [|a s1 IH]; [reflexivity|].
  change (S (String.length (s1 +:+ s2)) = S (String.length s1 + String.length s2)).
  now rewrite IH.
Qed.

Lemma append_inj_r (s1 s2 t : string) : s1 +:+ t = s2 +:+ t -> s1 = s2.
Proof.
  intros H.
  assert (Hlen : String.length s1 = String.length s2).
  { apply (f_equal String.length) in H. rewrite !length_append in H. lia. }
  revert s2 H Hlen. induction s1 as [|a s1 IH]; intros [|b s2] H Hlen;
    try discriminate; [reflexivity|].
  change (String a (s1 +:+ t) = String b (s2 +:+ t)) in H.
  injection H as -> H. f_equal. apply IH; [assumption|]. simpl in Hlen. lia.
Qed.

(** X5.  [operator<<] writes different texts for different tokens, and
    never the text it keeps for a token it does not know. *)
Theorem X5_operator_lshift_injective lhs rhs :
  (operator_lshift lhs = operator_lshift rhs -> lhs = rhs)
  /\ operator_lshift lhs <> "Unknown token :(".
Proof.
  split.
  - destruct lhs, rhs; unfold operator_lshift; simpl; try discriminate;
      try reflexivity; intros H.
    + change ("Number{" +:+ (pretty value +:+ "}") = "Number{" +:+ (pretty value0 +:+ "}")) in H.
      injection H as H. change (pretty value +:+ "}" = pretty value0 +:+ "}") in H.
      apply append_inj_r in H. now apply (inj pretty) in H; subst.
    + change ("Id{" +:+ (value +:+ "}") = "Id{" +:+ (value0 +:+ "}")) in H.
      injection H as H. change (value +:+ "}" = value0 +:+ "}") in H.
      apply append_inj_r in H. now subst.
    + change ("Char{" +:+ String value "}" = "Char{" +:+ String value0 "}") in H.
      now injection H as ->.
    + change ("String{" +:+ (value +:+ "}") = "String{" +:+ (value0 +:+ "}")) in H.
      injection H as H. change (value +:+ "}" = value0 +:+ "}") in H.
      apply append_inj_r in H. now subst.
  - destruct lhs; unfold operator_lshift; simpl; discriminate.
Qed.

Lemma X5_witness : token_type.Number 7 = token_type.Number 7.
Proof.
  apply (X5_operator_lshift_injective (token_type.Number 7) (token_type.Number 7)).
  reflexivity.
Defined.

End LexerTokens.

Module LexerMore.
Import Lexer LexerSpec LexerLineFeed.

(** ** The stream at a position *)

Lemma good_at_position input :
  good input = true -> input = at_position (consumed input) (remaining input).
Proof. apply good_eta. Qed.

Lemma run_app class text :
  text = (run class text).1 ++ (run class text).2.
Proof.
  induction text as [|c text IH]; [reflexivity|]. simpl.
  destruct (class c); [|reflexivity].
  destruct (run class text) as [w rest]. simpl in *. now f_equal.
Qed.

Lemma run_all class text :
  Forall (fun c => class c = true) (run class text).1.
Proof.
  induction text as [|c text IH]; [constructor|]. simpl.
  destruct (class c) eqn:Hc; [|constructor].
  destruct (run class text) as [w rest]. simpl in *. now constructor.
Qed.

Lemma run_stops class text :
  match (run class text).2 with
  | c :: _ => class c = false
  | [] => True
  end.
Proof.
  induction text as [|c text IH]; [exact I|]. simpl.
  destruct (class c) eqn:Hc; [|exact Hc].
  now destruct (run class text) as [w rest].
Qed.

Lemma run_cons class c text :
  class c = true ->
  run class (c :: text) = (c :: (run class text).1, (run class text).2).
Proof. intros Hc. simpl. rewrite Hc. now destruct (run class text). Qed.

(** ** Words *)

Lemma IsKeyWord_find word :
  IsKeyWord word = true <-> exists t, find KEYWORD_TO_TOKEN word = Some t.
Proof.
  unfold IsKeyWord, USING_KEYWORDS, KEYWORD_TO_TOKEN, existsb, find.
  repeat match goal with
         | |- context [String.eqb word ?k] =>
             rewrite (String.eqb_sym word k); destruct (String.eqb k word)
         end;
    simpl; split; intros H; try discriminate; eauto; now destruct H.
Qed.

Lemma ProcessWord_token word lx :
  (if IsKeyWord word then ProcessKeyWord word lx
   else push_back (token_type.Id word) lx)
  = push_back (word_token word) lx.
Proof.
  unfold ProcessKeyWord, word_token.
  destruct (IsKeyWord word) eqn:Hkey.
  - apply IsKeyWord_find in Hkey as [t ->]. reflexivity.
  - destruct (find KEYWORD_TO_TOKEN word) as [t|] eqn:Hfind; [|reflexivity].
    assert (IsKeyWord word = true) by (apply IsKeyWord_find; eauto). congruence.
Qed.

Lemma ProcessWord_loop_run text : forall fuel before word,
  length text < fuel ->
  ProcessWord_loop fuel (at_position before text) word
  = Some (word ++ (run is_word_char text).1,
          looked_at true (rev (run is_word_char text).1 ++ before)
            (run is_word_char text).2).
Proof.
  induction text as [|c text IH]; intros fuel before word Hfuel.
  - destruct fuel as [|fuel]; [simpl in Hfuel; lia|]. simpl. now rewrite app_nil_r.
  - destruct fuel as [|fuel]; [simpl in Hfuel; lia|].
    destruct (is_word_char c) eqn:Hc.
    + unfold at_position. rewrite ProcessWord_loop_first by assumption.
      fold (at_position (c :: before) text).
      rewrite IH by (simpl in Hfuel; lia).
      rewrite run_cons by assumption. cbn [fst snd rev]. now rewrite <- !app_assoc.
    + assert (Hrun : run is_word_char (c :: text) = ([], c :: text))
        by (simpl; now rewrite Hc).
      rewrite Hrun. cbn [fst snd rev app looked_at]. rewrite app_nil_r.
      unfold is_word_char in Hc. apply orb_false_iff in Hc as [Hc Hus].
      apply orb_false_iff in Hc as [Hal Hdi].
      cbn [ProcessWord_loop]. unfold at_position, peek. cbn.
      now rewrite Hal, Hdi, Hus.
Qed.

Lemma ProcessWord_run lx before text :
  ProcessWord lx (at_position before text)
  = Ok (push_back (word_token (string_of_list_ascii (run is_word_char text).1)) lx,
        looked_at true (rev (run is_word_char text).1 ++ before)
          (run is_word_char text).2).
Proof.
  unfold ProcessWord. cbn [remaining at_position].
  rewrite ProcessWord_loop_run by lia. cbn [app]. rewrite <- ProcessWord_token.
  now destruct (IsKeyWord _).
Qed.

Lemma ProcessNextToken_word lx before c text :
  (Ascii.eqb c "_" || isalpha c) = true ->
  ProcessNextToken lx (at_position before (c :: text))
  = ProcessWord lx (at_position before (c :: text)).
Proof.
  intros Hc.
  assert (HLF : Ascii.eqb c LF = false).
  { destruct (Ascii.eqb_spec c LF) as [->|]; [discriminate Hc|reflexivity]. }
  assert (Hq : Ascii.eqb c DQUOTE || Ascii.eqb c SQUOTE = false).
  { destruct (Ascii.eqb_spec c DQUOTE) as [->|]; [discriminate Hc|].
    destruct (Ascii.eqb_spec c SQUOTE) as [->|]; [discriminate Hc|reflexivity]. }
  unfold ProcessNextToken, at_position. cbn [get good sgetc remaining eofbit failbit badbit
    orb negb sbumpc consumed to_char].
  rewrite HLF, Hq, Hc. now rewrite putback_last.
Qed.

(** X6.  A word is lexed whole: at a letter or an underscore,
    [ProcessNextToken] reads the longest run of letters, digits and
    underscores and pushes exactly one token for it, the keyword's when
    the run is one of the twelve keywords of [IsKeyWord], which are the
    twelve of [ProcessKeyWord], and an [Id] with the run as its value
    otherwise; the stream is left at the first character behind the
    run. *)
Theorem X6_word_is_lexed_whole lx before c text :
  (Ascii.eqb c "_" || isalpha c) = true ->
  let chars := (run is_word_char (c :: text)).1 in
  let rest := (run is_word_char (c :: text)).2 in
  let word := string_of_list_ascii chars in
  c :: text = chars ++ rest
  /\ Forall (fun d => is_word_char d = true) chars
  /\ match rest with d :: _ => is_word_char d = false | [] => True end
  /\ ProcessNextToken lx (at_position before (c :: text))
     = Ok (push_back (word_token word) lx, looked_at true (rev chars ++ before) rest)
  /\ (IsKeyWord word = true ->
      find KEYWORD_TO_TOKEN word = Some (word_token word)
      /\ word_token word <> token_type.Id word)
  /\ (IsKeyWord word = false -> word_token word = token_type.Id word).
Proof.
  intros Hc chars rest word.
  split; [apply run_app|]. split; [apply run_all|]. split; [apply run_stops|].
  split; [rewrite ProcessNextToken_word by assumption; apply ProcessWord_run|].
  unfold word_token. split; intros Hkey.
  - apply IsKeyWord_find in Hkey as [t Ht]. rewrite Ht. split; [reflexivity|].
    intros ->. revert Ht. unfold KEYWORD_TO_TOKEN, find.
    repeat destruct (String.eqb _ word); discriminate.
  - destruct (find KEYWORD_TO_TOKEN word) as [t|] eqn:Hfind; [|reflexivity].
    assert (IsKeyWord word = true) by (apply IsKeyWord_find; eauto). congruence.
Qed.

Lemma X6_witness :
  ProcessNextToken (mkLexer [] 0 0) (at_position [] (list_ascii_of_string "print_1 x"))
  = Ok (mkLexer [token_type.Id "print_1"] 0 0,
        at_position (list_ascii_of_string "1_tnirp") (list_ascii_of_string " x"))
  /\ ProcessNextToken (mkLexer [] 0 0) (at_position [] (list_ascii_of_string "print"))
     = Ok (mkLexer [token_type.Print] 0 0,
           mkIstream (list_ascii_of_string "tnirp") [] true true false).
Proof.
  split.
  - apply (X6_word_is_lexed_whole (mkLexer [] 0 0) [] "p"%char
             (list_ascii_of_string "rint_1 x")). reflexivity.
  - apply (X6_word_is_lexed_whole (mkLexer [] 0 0) [] "p"%char
             (list_ascii_of_string "rint")). reflexivity.
Defined.

(** ** Numbers *)

Lemma ProcessNum_loop_run text : forall fuel before num_str,
  length text < fuel ->
  ProcessNum_loop fuel (at_position before text) num_str
  = Some (num_str ++ (run isdigit text).1,
          looked_at false (rev (run isdigit text).1 ++ before) (run isdigit text).2).
Proof.
  induction text as [|c text IH]; intros fuel before num_str Hfuel.
  - destruct fuel as [|fuel]; [simpl in Hfuel; lia|]. simpl. now rewrite app_nil_r.
  - destruct fuel as [|fuel]; [simpl in Hfuel; lia|].
    destruct (isdigit c) eqn:Hc.
    + unfold at_position. rewrite ProcessNum_loop_first by assumption.
      fold (at_position (c :: before) text).
      rewrite IH by (simpl in Hfuel; lia).
      rewrite run_cons by assumption. cbn [fst snd rev]. now rewrite <- !app_assoc.
    + assert (Hrun : run isdigit (c :: text) = ([], c :: text))
        by (simpl; now rewrite Hc).
      rewrite Hrun. cbn [fst snd rev app looked_at]. rewrite app_nil_r.
      cbn [ProcessNum_loop]. unfold at_position, peek. cbn.
      now rewrite Hc.
Qed.

Lemma ProcessNextToken_digit lx before c text :
  isdigit c = true ->
  ProcessNextToken lx (at_position before (c :: text))
  = ProcessNum lx (at_position before (c :: text)).
Proof.
  intros Hc.
  assert (Hn : 48 <= nat_of_ascii c <= 57).
  { unfold isdigit in Hc. apply andb_true_iff in Hc as [H1 H2].
    apply Nat.leb_le in H1, H2. lia. }
  assert (HLF : Ascii.eqb c LF = false).
  { destruct (Ascii.eqb_spec c LF) as [->|]; [discriminate Hc|reflexivity]. }
  assert (Hq : Ascii.eqb c DQUOTE || Ascii.eqb c SQUOTE = false).
  { destruct (Ascii.eqb_spec c DQUOTE) as [->|]; [discriminate Hc|].
    destruct (Ascii.eqb_spec c SQUOTE) as [->|]; [discriminate Hc|reflexivity]. }
  assert (Hw : Ascii.eqb c "_" || isalpha c = false).
  { destruct (Ascii.eqb_spec c "_") as [->|]; [discriminate Hc|].
    unfold isalpha. cbn [orb].
    destruct (Nat.leb_spec 65 (nat_of_ascii c)), (Nat.leb_spec (nat_of_ascii c) 90),
      (Nat.leb_spec 97 (nat_of_ascii c)), (Nat.leb_spec (nat_of_ascii c) 122);
      simpl; try reflexivity; lia. }
  unfold ProcessNextToken, at_position. cbn [get good sgetc remaining eofbit failbit badbit
    orb negb sbumpc consumed to_char].
  rewrite HLF, Hq, Hw, Hc. now rewrite putback_last.
Qed.

Lemma decimal_snoc digits c :
  decimal (digits ++ [c]) = (decimal digits * 10 + (Z.of_nat (nat_of_ascii c) - 48))%Z.
Proof. unfold decimal. now rewrite fold_left_app. Qed.

Lemma decimal_nonneg digits :
  Forall (fun c => isdigit c = true) digits -> (0 <= decimal digits)%Z.
Proof.
  induction digits as [|c digits IH] using rev_ind; intros Hall; [unfold decimal; simpl; lia|].
  apply Forall_app in Hall as [Hdigits Hc]. apply Forall_inv in Hc.
  rewrite decimal_snoc. specialize (IH Hdigits).
  unfold isdigit in Hc. apply andb_true_iff in Hc as [H1 H2].
  apply Nat.leb_le in H1, H2. lia.
Qed.

(** X7.  A number is lexed whole: at a digit, [ProcessNextToken] reads the
    longest run of digits.  When their decimal value fits an [int] it
    pushes one [Number] with that value, which is not negative, and leaves
    the stream behind the run; a letter right behind the digits starts
    the next token.  When the value does not fit, [std::stoi] throws
    [std::out_of_range], which is not a [std::runtime_error], and no
    token is pushed. *)
Theorem X7_number_is_lexed_whole lx before c text :
  isdigit c = true ->
  let digits := (run isdigit (c :: text)).1 in
  let rest := (run isdigit (c :: text)).2 in
  c :: text = digits ++ rest
  /\ Forall (fun d => isdigit d = true) digits
  /\ match rest with d :: _ => isdigit d = false | [] => True end
  /\ (0 <= decimal digits)%Z
  /\ ((decimal digits <= INT_MAX)%Z ->
      ProcessNextToken lx (at_position before (c :: text))
      = Ok (push_back (token_type.Number (decimal digits)) lx,
            looked_at false (rev digits ++ before) rest))
  /\ ((INT_MAX < decimal digits)%Z ->
      exists e,
        ProcessNextToken lx (at_position before (c :: text)) = Throw e
        /\ e = out_of_range "stoi" /\ is_runtime_error e = false).
Proof.
  intros Hc digits rest.
  assert (Hrun : ProcessNum_loop (S (length (c :: text))) (at_position before (c :: text)) []
                 = Some (digits, looked_at false (rev digits ++ before) rest)).
  { rewrite ProcessNum_loop_run by lia. reflexivity. }
  assert (Hdigits : exists digits', digits = c :: digits').
  { subst digits. rewrite run_cons by assumption. eauto. }
  split; [apply run_app|]. split; [apply run_all|]. split; [apply run_stops|].
  split; [apply decimal_nonneg, run_all|].
  rewrite ProcessNextToken_digit by assumption.
  unfold ProcessNum. cbn [remaining at_position]. rewrite Hrun.
  destruct Hdigits as [digits' Hdigits]. unfold stoi. rewrite Hdigits. rewrite <- Hdigits.
  split; intros Hle.
  - apply Z.leb_le in Hle. now rewrite Hle.
  - apply Z.leb_gt in Hle. rewrite Hle. eexists. split; [reflexivity|]. now split.
Qed.

Lemma X7_witness :
  ProcessNextToken (mkLexer [] 0 0) (at_position [] (list_ascii_of_string "007+x"))
  = Ok (mkLexer [token_type.Number 7] 0 0,
        at_position (list_ascii_of_string "700") (list_ascii_of_string "+x")).
Proof.
  apply (X7_number_is_lexed_whole (mkLexer [] 0 0) [] "0"%char
           (list_ascii_of_string "07+x")); [reflexivity|].
  vm_compute. discriminate.
Defined.

(** ** Comments *)

Lemma ignore_loop_line n : forall body before rest,
  Forall (fun c => c <> LF) body -> length body < n ->
  ignore_loop n LF (at_position before (body ++ LF :: rest))
  = at_position (LF :: rev body ++ before) rest.
Proof.
  induction n as [|n IH]; intros body before rest Hbody Hn; [lia|].
  destruct body as [|c body].
  - reflexivity.
  - apply Forall_cons in Hbody as [Hc Hbody].
    cbn [ignore_loop app at_position sgetc remaining].
    destruct (Ascii.eqb_spec c LF); [contradiction|].
    unfold sbumpc. cbn. fold (at_position (c :: before) (body ++ LF :: rest)).
    rewrite IH by (simpl in Hn; auto with lia). now rewrite <- app_assoc.
Qed.

Lemma ignore_loop_end n : forall body before,
  Forall (fun c => c <> LF) body -> length body < n ->
  ignore_loop n LF (at_position before body)
  = mkIstream (rev body ++ before) [] true false false.
Proof.
  induction n as [|n IH]; intros body before Hbody Hn; [lia|].
  destruct body as [|c body].
  - reflexivity.
  - apply Forall_cons in Hbody as [Hc Hbody].
    cbn [ignore_loop app at_position sgetc remaining].
    destruct (Ascii.eqb_spec c LF); [contradiction|].
    unfold sbumpc. cbn. fold (at_position (c :: before) body).
    rewrite IH by (simpl in Hn; auto with lia). now rewrite <- app_assoc.
Qed.

Lemma ignore_loop_count n : forall body before rest,
  Forall (fun c => c <> LF) body -> length body = n ->
  ignore_loop n LF (at_position before (body ++ rest))
  = at_position (rev body ++ before) rest.
Proof.
  induction n as [|n IH]; intros body before rest Hbody Hn.
  - now destruct body.
  - destruct body as [|c body]; [discriminate|].
    apply Forall_cons in Hbody as [Hc Hbody].
    cbn [ignore_loop app at_position sgetc remaining].
    destruct (Ascii.eqb_spec c LF); [contradiction|].
    unfold sbumpc. cbn. fold (at_position (c :: before) (body ++ rest)).
    rewrite IH by (simpl in Hn; auto with lia). now rewrite <- app_assoc.
Qed.

(** The rest of a line: a line feed and what follows, or the end of the
    text. *)
Lemma IgnoreComment_loop_line fuel : forall body before tail,
  Forall (fun c => c <> LF) body ->
  hd_error tail = Some LF \/ tail = [] ->
  length body < fuel ->
  IgnoreComment_loop fuel (at_position before (body ++ tail))
  = Some (looked_at true (rev body ++ before) tail).
Proof.
  induction fuel as [|fuel IH]; intros body before tail Hbody Htail Hfuel; [lia|].
  cbn [IgnoreComment_loop]. unfold ignore. cbn [good at_position eofbit failbit badbit orb negb].
  destruct (Nat.lt_ge_cases (length body) 1024) as [Hshort|Hlong].
  - destruct Htail as [Htail| ->].
    + destruct tail as [|c rest]; [discriminate|]. injection Htail as ->.
      fold (at_position before (body ++ LF :: rest)).
      rewrite ignore_loop_line by assumption. reflexivity.
    + rewrite app_nil_r. fold (at_position before body).
      rewrite ignore_loop_end by assumption. reflexivity.
  - assert (Hsplit : exists b1 x b2, body = b1 ++ x :: b2 /\ length (b1 ++ [x]) = 1024).
    { exists (take 1023 body).
      destruct (drop 1023 body) as [|x b2] eqn:Hdrop.
      - apply (f_equal length) in Hdrop. rewrite length_drop in Hdrop. cbn [length] in Hdrop. lia.
      - exists x, b2. split.
        + rewrite <- Hdrop. now rewrite take_drop.
        + rewrite length_app, length_take. cbn [length]. lia. }
    destruct Hsplit as (b1 & x & b2 & -> & Hlen).
    apply Forall_app in Hbody as [Hb1 Hb2].
    assert (Hx : x <> LF) by now apply Forall_inv in Hb2.
    replace ((b1 ++ x :: b2) ++ tail) with ((b1 ++ [x]) ++ b2 ++ tail)
      by (now rewrite <- !app_assoc).
    fold (at_position before ((b1 ++ [x]) ++ b2 ++ tail)).
    rewrite ignore_loop_count; [|apply Forall_app; split; [assumption|now constructor]|assumption].
    rewrite rev_app_distr. cbn [rev app at_position eof eofbit negb unget clear_eofbit good
      failbit badbit orb consumed remaining sungetc peek sgetc int_is].
    destruct (Ascii.eqb_spec x LF); [contradiction|]. cbn [negb andb].
    fold (at_position (rev b1 ++ before) (x :: b2 ++ tail)).
    change (x :: b2 ++ tail) with ((x :: b2) ++ tail).
    rewrite IH; [|assumption|assumption|].
    + f_equal. f_equal. rewrite rev_app_distr. now rewrite <- app_assoc.
    + rewrite length_app in Hfuel, Hlen. simpl in *. lia.
Qed.

Lemma ProcessNextToken_hash lx before text :
  ProcessNextToken lx (at_position before ("#"%char :: text))
  = IgnoreComment lx (at_position ("#"%char :: before) text).
Proof. reflexivity. Qed.

Lemma ProcessNextToken_comment lx before body rest :
  Forall (fun c => c <> LF) body ->
  ProcessNextToken lx (at_position before ("#"%char :: body ++ LF :: rest))
  = Ok (lx, at_position (rev body ++ "#"%char :: before) (LF :: rest)).
Proof.
  intros Hbody. rewrite ProcessNextToken_hash. unfold IgnoreComment.
  cbn [remaining at_position].
  fold (at_position ("#"%char :: before) (body ++ LF :: rest)).
  rewrite (IgnoreComment_loop_line _ body ("#"%char :: before) (LF :: rest));
    [reflexivity|assumption|now left|].
  rewrite length_app. lia.
Qed.

(** X8.  A comment goes up to the end of its line, however long it is: at
    a hash, [ProcessNextToken] pushes no token and leaves the stream at
    the line feed that ends the line, which is still to be read, or at
    the end of the text. *)
Theorem X8_comment_is_dropped lx before body :
  Forall (fun c => c <> LF) body ->
  (forall rest,
     ProcessNextToken lx (at_position before ("#"%char :: body ++ LF :: rest))
     = Ok (lx, at_position (rev body ++ "#"%char :: before) (LF :: rest)))
  /\ ProcessNextToken lx (at_position before ("#"%char :: body))
     = Ok (lx, mkIstream (rev body ++ "#"%char :: before) [] true true false).
Proof.
  intros Hbody. split; [intros rest; now apply ProcessNextToken_comment|].
  rewrite ProcessNextToken_hash. unfold IgnoreComment. cbn [remaining at_position].
  fold (at_position ("#"%char :: before) body).
  rewrite <- (app_nil_r body) at 2.
  rewrite (IgnoreComment_loop_line _ body ("#"%char :: before) []);
    [reflexivity|assumption|now right|].
  lia.
Qed.

Lemma X8_witness :
  ProcessNextToken (mkLexer [] 0 0)
    (at_position [] (list_ascii_of_string ("# x = 'a" +:+ nl +:+ "y")))
  = Ok (mkLexer [] 0 0,
        at_position (list_ascii_of_string "a' = x #") (list_ascii_of_string (nl +:+ "y"))).
Proof.
  apply (X8_comment_is_dropped (mkLexer [] 0 0) [] (list_ascii_of_string " x = 'a")).
  repeat constructor; discriminate.
Defined.

(** ** String literals *)

Lemma plain_spec delim c :
  plain delim c = true <-> c <> delim /\ c <> BACKSLASH /\ c <> LF /\ c <> CR.
Proof.
  unfold plain. rewrite negb_true_iff, !orb_false_iff.
  destruct (Ascii.eqb_spec c delim), (Ascii.eqb_spec c BACKSLASH),
    (Ascii.eqb_spec c LF), (Ascii.eqb_spec c CR); intuition congruence.
Qed.

Lemma ProcessString_loop_encodes delim text value :
  encodes delim text value -> is_quote delim = true ->
  forall fuel before rest e f b s,
    length text < fuel ->
    ProcessString_loop fuel delim (mkIstream before (text ++ delim :: rest) e f b) s
    = Ok (s ++ value, mkIstream (delim :: rev text ++ before) rest e f b).
Proof.
  intros Henc Hq. induction Henc as [|c text value Hc Henc IH|e' c text value He Henc IH];
    intros fuel before rest e f b s Hfuel;
    (destruct fuel as [|fuel]; [simpl in Hfuel; lia|]).
  - cbn [ProcessString_loop app sgetc remaining]. rewrite Ascii.eqb_refl.
    now rewrite app_nil_r.
  - apply plain_spec in Hc as (Hd & Hb & Hl & Hr).
    cbn [ProcessString_loop app sgetc remaining].
    destruct (Ascii.eqb_spec c delim); [contradiction|].
    destruct (Ascii.eqb_spec c BACKSLASH); [contradiction|].
    destruct (Ascii.eqb_spec c LF); [contradiction|].
    destruct (Ascii.eqb_spec c CR); [contradiction|].
    cbn [orb sbumpc remaining consumed eofbit failbit badbit].
    rewrite IH by (simpl in Hfuel; lia). cbn [rev]. now rewrite <- !app_assoc.
  - cbn [ProcessString_loop app sgetc remaining].
    rewrite (is_quote_not_BACKSLASH _ Hq), Ascii.eqb_refl.
    cbn [sbumpc remaining consumed eofbit failbit badbit sgetc]. rewrite He.
    rewrite IH by (simpl in Hfuel; lia). cbn [rev]. now rewrite <- !app_assoc.
Qed.

Lemma ProcessString_loop_Ok fuel : forall delim before text e f b s s' input',
  ProcessString_loop fuel delim (mkIstream before text e f b) s = Ok (s', input') ->
  exists body value rest,
    text = body ++ delim :: rest
    /\ encodes delim body value
    /\ s' = s ++ value
    /\ input' = mkIstream (delim :: rev body ++ before) rest e f b.
Proof.
  induction fuel as [|fuel IH]; intros delim before text e f b s s' input' H;
    [discriminate|].
  destruct text as [|ch text]; [discriminate|].
  cbn [ProcessString_loop sgetc remaining] in H. revert H.
  destruct (Ascii.eqb_spec ch delim) as [->|Hd].
  - cbn [sbumpc remaining consumed eofbit failbit badbit].
    intros H. injection H as <- <-. exists [], [], text. rewrite app_nil_r.
    repeat split; constructor.
  - destruct (Ascii.eqb_spec ch BACKSLASH) as [->|Hb].
    + destruct text as [|e' text]; [discriminate|].
      cbn [sbumpc remaining consumed eofbit failbit badbit sgetc].
      destruct (escape e') as [c|] eqn:He; [|discriminate]. intros H.
      apply IH in H as (body & value & rest & -> & Henc & -> & ->).
      exists (BACKSLASH :: e' :: body), (c :: value), rest.
      split; [reflexivity|]. split; [now apply encodes_escape|].
      split; [now rewrite <- app_assoc|]. cbn [rev]. now rewrite <- !app_assoc.
    + destruct (Ascii.eqb_spec ch LF) as [->|Hl]; [discriminate|].
      destruct (Ascii.eqb_spec ch CR) as [->|Hr]; [discriminate|].
      cbn [orb sbumpc remaining consumed eofbit failbit badbit]. intros H.
      apply IH in H as (body & value & rest & -> & Henc & -> & ->).
      exists (ch :: body), (ch :: value), rest.
      split; [reflexivity|]. split; [apply encodes_plain; [now apply plain_spec|assumption]|].
      split; [now rewrite <- app_assoc|]. cbn [rev]. now rewrite <- !app_assoc.
Qed.

Lemma escape_escaped delim c :
  is_quote delim = true ->
  (plain delim c = true /\ escaped c = [c])
  \/ (exists e, escaped c = [BACKSLASH; e] /\ escape e = Some c).
Proof.
  intros Hq. unfold escaped.
  destruct (Ascii.eqb_spec c LF) as [->|Hl]; [right; eexists; split; reflexivity|].
  destruct (Ascii.eqb_spec c CR) as [->|Hr]; [right; eexists; split; reflexivity|].
  destruct (Ascii.eqb_spec c TAB) as [->|Ht]; [right; eexists; split; reflexivity|].
  destruct (Ascii.eqb_spec c DQUOTE) as [->|Hd]; [right; eexists; split; reflexivity|].
  destruct (Ascii.eqb_spec c SQUOTE) as [->|Hs]; [right; eexists; split; reflexivity|].
  destruct (Ascii.eqb_spec c BACKSLASH) as [->|Hb]; [right; eexists; split; reflexivity|].
  left. split; [|reflexivity]. apply plain_spec. repeat split; try assumption.
  intros ->. unfold is_quote in Hq. apply orb_true_iff in Hq as [Hq|Hq];
    apply Ascii.eqb_eq in Hq; contradiction.
Qed.

Lemma encodes_literal delim value :
  is_quote delim = true -> encodes delim (literal value) value.
Proof.
  intros Hq. induction value as [|c value IH]; [constructor|].
  unfold literal. cbn [flat_map]. fold (literal value).
  destruct (escape_escaped delim c Hq) as [[Hp ->]|(e & -> & He)].
  - now apply encodes_plain.
  - now apply encodes_escape.
Qed.

Lemma encodes_plain_text delim value :
  Forall (fun c => plain delim c = true) value -> encodes delim value value.
Proof. induction 1; constructor; assumption. Qed.

(** X9.  What a string literal stands for.  At a quote, [ProcessNextToken]
    returns exactly when the text goes on with characters that encode a
    string and the same quote behind them; it then pushes one [String]
    with the encoded value and leaves the stream behind the closing quote.
    Every string has a literal, between either kind of quotes: its
    characters with the line feed, the carriage return, the tab, the
    quotes and the backslash escaped; and a string that has neither the
    quote in use, nor a backslash, nor a line feed or carriage return is
    its own literal. *)
Theorem X9_string_literal lx before delim :
  is_quote delim = true ->
  (forall text value rest,
     encodes delim text value ->
     ProcessNextToken lx (at_position before (delim :: text ++ delim :: rest))
     = Ok (push_back (token_type.String (string_of_list_ascii value)) lx,
           at_position (delim :: rev text ++ delim :: before) rest))
  /\ (forall body lx' input',
        ProcessNextToken lx (at_position before (delim :: body)) = Ok (lx', input') ->
        exists text value rest,
          body = text ++ delim :: rest
          /\ encodes delim text value
          /\ lx' = push_back (token_type.String (string_of_list_ascii value)) lx
          /\ input' = at_position (delim :: rev text ++ delim :: before) rest)
  /\ (forall value, encodes delim (literal value) value)
  /\ (forall value, Forall (fun c => plain delim c = true) value ->
                    encodes delim value value).
Proof.
  intros Hq. split; [|split; [|split]].
  - intros text value rest Henc. unfold at_position.
    rewrite ProcessNextToken_quote by assumption.
    unfold ProcessString.
    cbn [get good sgetc remaining eofbit failbit badbit orb negb sbumpc consumed to_char].
    rewrite (ProcessString_loop_encodes delim text value Henc Hq)
      by (rewrite length_app; simpl; lia).
    reflexivity.
  - intros body lx' input' H. unfold at_position in H.
    rewrite ProcessNextToken_quote in H by assumption.
    unfold ProcessString in H.
    cbn [get good sgetc remaining eofbit failbit badbit orb negb sbumpc consumed to_char] in H.
    destruct (ProcessString_loop _ _ _ _) as [[s input1]| |] eqn:Hloop; try discriminate.
    injection H as <- <-.
    apply ProcessString_loop_Ok in Hloop as (text & value & rest & -> & Henc & -> & ->).
    exists text, value, rest. repeat split; assumption.
  - intros value. now apply encodes_literal.
  - apply encodes_plain_text.
Qed.

Lemma X9_witness :
  ProcessNextToken (mkLexer [] 0 0)
    (at_position [] (list_ascii_of_string "'it\'s' + x"))
  = Ok (mkLexer [token_type.String "it's"] 0 0,
        at_position (list_ascii_of_string "'s'\ti'") (list_ascii_of_string " + x")).
Proof.
  apply (proj1 (X9_string_literal (mkLexer [] 0 0) [] SQUOTE eq_refl)
           (list_ascii_of_string "it\'s") (list_ascii_of_string "it's")
           (list_ascii_of_string " + x")).
  apply encodes_plain; [reflexivity|]. apply encodes_plain; [reflexivity|].
  apply (encodes_escape SQUOTE SQUOTE SQUOTE); [reflexivity|].
  apply encodes_plain; [reflexivity|]. constructor.
Defined.

(** ** Indentation *)

Lemma ProcessIndent_loop_spaces_end k : forall fuel before n,
  k < fuel ->
  ProcessIndent_loop fuel (at_position before (spaces k)) n
  = Some (n + k, mkIstream (spaces k ++ before) [] true false false).
Proof.
  induction k as [|k IH]; intros fuel before n Hfuel;
    (destruct fuel as [|fuel]; [lia|]).
  - cbn. now rewrite Nat.add_0_r.
  - unfold spaces. cbn [repeat]. fold (spaces k).
    cbn [ProcessIndent_loop at_position fail failbit badbit orb negb peek good eofbit sgetc
         remaining to_char get sbumpc consumed].
    rewrite Ascii.eqb_refl. fold (at_position (SPACE :: before) (spaces k)).
    rewrite IH by lia. rewrite spaces_cons. do 2 f_equal. lia.
Qed.

Lemma adjust_indent_tokens indent lx :
  tokens_ (adjust_indent indent lx) = tokens_ lx ++ indent_tokens (prev_indent lx) indent
  /\ prev_indent (adjust_indent indent lx) = indent
  /\ current_pos (adjust_indent indent lx) = current_pos lx.
Proof.
  unfold adjust_indent, indent_tokens.
  assert (Hpos : forall n t l, current_pos (push_back_n n t l) = current_pos l).
  { induction n as [|n IHn]; intros t l; [reflexivity|]. cbn [push_back_n]. now rewrite IHn. }
  destruct (Nat.ltb_spec (prev_indent lx) indent) as [Hlt|Hge].
  - cbn [tokens_ prev_indent current_pos set_prev_indent].
    destruct (tokens_push_back_n (indent - prev_indent lx) token_type.Indent lx) as [-> _].
    replace (prev_indent lx - indent) with 0 by lia. cbn [repeat]. rewrite app_nil_r.
    now rewrite Hpos.
  - destruct (Nat.ltb_spec indent (prev_indent lx)) as [Hlt|Hge'].
    + cbn [tokens_ prev_indent current_pos set_prev_indent].
      destruct (tokens_push_back_n (prev_indent lx - indent) token_type.Dedent lx) as [-> _].
      replace (indent - prev_indent lx) with 0 by lia. cbn [repeat app].
      now rewrite Hpos.
    + replace (indent - prev_indent lx) with 0 by lia.
      replace (prev_indent lx - indent) with 0 by lia. cbn [repeat app].
      rewrite app_nil_r. repeat split. lia.
Qed.

Lemma ProcessIndent_at_line lx before k c rest :
  c <> SPACE -> c <> LF ->
  ProcessIndent lx (at_position before (spaces k ++ c :: rest))
  = Ok (adjust_indent (k / 2) lx, at_position (spaces k ++ before) (c :: rest)).
Proof.
  intros Hsp HLF. unfold ProcessIndent, at_position. cbn [remaining].
  rewrite ProcessIndent_loop_spaces
    by (try assumption; unfold spaces; rewrite length_app, repeat_length; lia).
  cbn [peek good eofbit failbit badbit orb negb sgetc remaining int_is Nat.add].
  destruct (Ascii.eqb_spec c LF); [contradiction|].
  unfold adjust_indent.
  destruct (prev_indent lx <? k / 2)%nat; [reflexivity|].
  now destruct (k / 2 <? prev_indent lx)%nat.
Qed.

(** X10.  Indentation is counted in pairs of spaces, a single space over
    being ignored.  At the start of a line that is not blank, and the
    spaces at the very end of the text count as one, [ProcessIndent]
    reads the spaces, pushes one [Indent] for each level gained and one
    [Dedent] for each level lost against the level it remembers, several
    when the indentation changes by several levels and none when it is
    the same, and remembers the new level.  The stream is left at the
    first character of the line. *)
Theorem X10_indentation_of_a_line lx before k :
  let lx' := adjust_indent (k / 2) lx in
  (forall c rest,
     c <> SPACE -> c <> LF ->
     ProcessIndent lx (at_position before (spaces k ++ c :: rest))
     = Ok (lx', at_position (spaces k ++ before) (c :: rest)))
  /\ ProcessIndent lx (at_position before (spaces k))
     = Ok (lx', mkIstream (spaces k ++ before) [] true true false)
  /\ tokens_ lx' = tokens_ lx ++ indent_tokens (prev_indent lx) (k / 2)
  /\ prev_indent lx' = (k / 2)%nat
  /\ current_pos lx' = current_pos lx.
Proof.
  intros lx'. split; [|split; [|apply adjust_indent_tokens]].
  - intros c rest Hsp HLF. now apply ProcessIndent_at_line.
  - unfold ProcessIndent. cbn [remaining at_position].
    rewrite ProcessIndent_loop_spaces_end by (unfold spaces; rewrite repeat_length; lia).
    cbn [peek good eofbit failbit badbit orb negb sgetc remaining int_is Nat.add set_failbit
         consumed].
    subst lx'. unfold adjust_indent.
    destruct (prev_indent lx <? k / 2)%nat; [reflexivity|].
    now destruct (k / 2 <? prev_indent lx)%nat.
Qed.

Lemma X10_witness :
  ProcessIndent (mkLexer [token_type.Newline] 0 0)
    (at_position [] (list_ascii_of_string "     x"))
  = Ok (mkLexer [token_type.Newline; token_type.Indent; token_type.Indent] 2 0,
        at_position (list_ascii_of_string "     ") (list_ascii_of_string "x")).
Proof.
  apply (proj1 (X10_indentation_of_a_line (mkLexer [token_type.Newline] 0 0) [] 5)
           "x"%char []); discriminate.
Defined.

(** ** A line that holds a comment only *)

Lemma indent_tokens_same prev : indent_tokens prev prev = [].
Proof. unfold indent_tokens. now rewrite Nat.sub_diag. Qed.

Lemma indent_tokens_last prev indent :
  indent <> prev ->
  exists t, last (indent_tokens prev indent) = Some t /\ Is_Newline t = false.
Proof.
  intros Hne. unfold indent_tokens.
  destruct (Nat.lt_ge_cases prev indent) as [Hlt|Hge].
  - replace (prev - indent) with 0 by lia. cbn [repeat]. rewrite app_nil_r.
    exists token_type.Indent. split; [|reflexivity].
    destruct (indent - prev) as [|n] eqn:Hn; [lia|].
    cbn [repeat]. rewrite repeat_cons. apply last_snoc.
  - replace (indent - prev) with 0 by lia. cbn [repeat app].
    exists token_type.Dedent. split; [|reflexivity].
    destruct (prev - indent) as [|n] eqn:Hn; [lia|].
    cbn [repeat]. rewrite repeat_cons. apply last_snoc.
Qed.

(** X11.  A line that holds a comment only is not a blank line: its
    indentation counts.  At the start of such a line [ProcessIndent]
    meets the hash, not a line feed; when the line is indented to another
    level than the line before, it pushes the [Indent]s or [Dedent]s of
    that level, and the line feed behind the comment pushes a [Newline]
    after them; when it is indented to the same level, the line pushes no
    token at all. *)
Theorem X11_comment_line_is_not_blank lx before k body rest :
  at_line_start lx ->
  Forall (fun c => c <> LF) body ->
  let lx1 := adjust_indent (k / 2) lx in
  let at_hash := at_position (spaces k ++ before) ("#"%char :: body ++ LF :: rest) in
  let at_line_feed :=
    at_position (rev body ++ "#"%char :: spaces k ++ before) (LF :: rest) in
  ProcessIndent lx (at_position before (spaces k ++ "#"%char :: body ++ LF :: rest))
  = Ok (lx1, at_hash)
  /\ ProcessNextToken lx1 at_hash = Ok (lx1, at_line_feed)
  /\ ProcessNextToken lx1 at_line_feed
     = ProcessIndent (ProcessNextLine lx1)
         (at_position (LF :: rev body ++ "#"%char :: spaces k ++ before) rest)
  /\ ((k / 2)%nat = prev_indent lx -> ProcessNextLine lx1 = lx)
  /\ ((k / 2)%nat <> prev_indent lx ->
      tokens_ (ProcessNextLine lx1)
      = tokens_ lx ++ indent_tokens (prev_indent lx) (k / 2) ++ [token_type.Newline]).
Proof.
  intros Hstart Hbody lx1 at_hash at_line_feed.
  destruct (adjust_indent_tokens (k / 2) lx) as (Htok & Hprev & Hpos). fold lx1 in Htok.
  split; [apply ProcessIndent_at_line; discriminate|].
  split; [now apply ProcessNextToken_comment|].
  split; [apply ProcessNextToken_LF|].
  split.
  - intros Hsame.
    assert (Hlx1 : lx1 = lx).
    { subst lx1. unfold adjust_indent. rewrite Hsame.
      now rewrite Nat.ltb_irrefl. }
    rewrite Hlx1. destruct (ProcessNextLine_tokens lx) as (_ & Hnl & Hnil & _).
    destruct Hstart as [Hnone|Hsome]; [|now apply Hnl].
    apply Hnil. unfold back in Hnone. now apply last_None in Hnone.
  - intros Hother.
    destruct (indent_tokens_last (prev_indent lx) (k / 2) Hother) as (t & Hlast & Ht).
    destruct (ProcessNextLine_tokens lx1) as (Hpush & _).
    rewrite (Hpush t).
    + rewrite Htok. now rewrite <- app_assoc.
    + unfold back. rewrite Htok.
      destruct (indent_tokens (prev_indent lx) (k / 2)) as [|t0 ts] eqn:Hts;
        [discriminate Hlast|].
      rewrite last_app_cons. exact Hlast.
    + exact Ht.
Qed.

Lemma X11_witness :
  tokens_ (ProcessNextLine
             (adjust_indent (0 / 2)
                (mkLexer [token_type.Indent; token_type.Id "y"; token_type.Newline] 1 0)))
  = [token_type.Indent; token_type.Id "y"; token_type.Newline]
    ++ indent_tokens 1 (0 / 2) ++ [token_type.Newline].
Proof.
  apply (X11_comment_line_is_not_blank
           (mkLexer [token_type.Indent; token_type.Id "y"; token_type.Newline] 1 0)
           [] 0 (list_ascii_of_string " note") []).
  - now right.
  - repeat constructor; discriminate.
  - discriminate.
Defined.

(** ** Symbols, operators and the characters that are dropped *)

Lemma is_symbol_branches c :
  is_symbol c = true ->
  Ascii.eqb c LF = false
  /\ (Ascii.eqb c DQUOTE || Ascii.eqb c SQUOTE) = false
  /\ (Ascii.eqb c "_" || isalpha c) = false
  /\ isdigit c = false
  /\ Ascii.eqb c "#" = false
  /\ ispunct c = true.
Proof.
  destruct c as [[] [] [] [] [] [] [] []]; vm_compute; intros H;
    try discriminate H; repeat split.
Qed.

Lemma skipped_branches c :
  skipped c = true ->
  Ascii.eqb c LF = false
  /\ (Ascii.eqb c DQUOTE || Ascii.eqb c SQUOTE) = false
  /\ (Ascii.eqb c "_" || isalpha c) = false
  /\ isdigit c = false
  /\ Ascii.eqb c "#" = false
  /\ ispunct c = false.
Proof.
  destruct c as [[] [] [] [] [] [] [] []]; vm_compute; intros H;
    try discriminate H; repeat split.
Qed.

Lemma comparison_token_spec left right lx :
  match comparison_token left right with
  | Some op =>
      IsComparisonOperator left right = true
      /\ ProcessComparisonOperator left right lx = push_back op lx
  | Datatypes.None => IsComparisonOperator left right = false
  end.
Proof.
  unfold comparison_token, IsComparisonOperator, ProcessComparisonOperator.
  cbn [String.eqb].
  destruct (Ascii.eqb_spec right "="%char) as [->|Hr].
  - destruct (Ascii.eqb_spec left ">"%char) as [->|H1]; [now split|].
    destruct (Ascii.eqb_spec left "<"%char) as [->|H2]; [now split|].
    destruct (Ascii.eqb_spec left "="%char) as [->|H3]; [now split|].
    destruct (Ascii.eqb_spec left "!"%char) as [->|H4]; [now split|].
    reflexivity.
  - now repeat destruct (Ascii.eqb left _).
Qed.

Lemma ProcessNextToken_symbol_branch lx before c text :
  is_symbol c = true ->
  ProcessNextToken lx (at_position before (c :: text))
  = let (i2, input2) := get (at_position (c :: before) text) in
    if IsComparisonOperator c (to_char i2)
    then Ok (ProcessComparisonOperator c (to_char i2) lx, input2)
    else Ok (ProcessSymbol c lx, putback (to_char i2) input2).
Proof.
  intros Hc. destruct (is_symbol_branches c Hc) as (H1 & H2 & H3 & H4 & H5 & H6).
  unfold ProcessNextToken, at_position.
  cbn [get good sgetc remaining eofbit failbit badbit orb negb sbumpc consumed to_char].
  now rewrite H1, H2, H3, H4, H5, H6.
Qed.

(** X12.  A symbol is one token, and an operator of two characters is one
    token: at a punctuation character other than the quotes, the
    underscore and the hash, [ProcessNextToken] looks at the next
    character; the pairs [>=], [<=], [==] and [!=] give their operator
    token and both characters are read; otherwise the symbol gives a
    [Char] and the character behind it is given back to the stream, to be
    read again.  A symbol at the very end of the text gives its [Char]
    too. *)
Theorem X12_symbols_and_operators lx before c :
  is_symbol c = true ->
  (forall d rest,
     ProcessNextToken lx (at_position before (c :: d :: rest))
     = match comparison_token c d with
       | Some op => Ok (push_back op lx, at_position (d :: c :: before) rest)
       | Datatypes.None =>
           Ok (push_back (token_type.Char c) lx, at_position (c :: before) (d :: rest))
       end)
  /\ ProcessNextToken lx (at_position before [c])
     = Ok (push_back (token_type.Char c) lx, mkIstream (c :: before) [] false true false).
Proof.
  intros Hc. split; [intros d rest|]; rewrite ProcessNextToken_symbol_branch by assumption.
  - unfold at_position.
    cbn [get good sgetc remaining eofbit failbit badbit orb negb sbumpc consumed to_char].
    pose proof (comparison_token_spec c d lx) as Hop.
    destruct (comparison_token c d) as [op|].
    + destruct Hop as [-> ->]. reflexivity.
    + rewrite Hop. now rewrite putback_last.
  - unfold at_position.
    cbn [get good sgetc remaining eofbit failbit badbit orb negb sbumpc consumed to_char
         set_eofbit set_failbit].
    assert (Hno : IsComparisonOperator c "255" = false).
    { unfold IsComparisonOperator. cbn [String.eqb].
      now repeat destruct (Ascii.eqb c _). }
    rewrite Hno. reflexivity.
Qed.

Lemma X12_witness :
  ProcessNextToken (mkLexer [] 0 0) (at_position [] (list_ascii_of_string "<=1"))
  = Ok (mkLexer [token_type.LessOrEq] 0 0,
        at_position (list_ascii_of_string "=<") (list_ascii_of_string "1"))
  /\ ProcessNextToken (mkLexer [] 0 0) (at_position [] (list_ascii_of_string "=1"))
     = Ok (mkLexer [token_type.Char "="] 0 0,
           at_position (list_ascii_of_string "=") (list_ascii_of_string "1")).
Proof.
  split.
  - apply (proj1 (X12_symbols_and_operators (mkLexer [] 0 0) [] "<"%char eq_refl)
             "="%char (list_ascii_of_string "1")).
  - apply (proj1 (X12_symbols_and_operators (mkLexer [] 0 0) [] "="%char eq_refl)
             "1"%char []).
Defined.

(** X13.  The lexer rejects no character.  The characters that start no
    token, which are the space, the tab, the carriage return and the
    other control characters but the line feed, and every byte above 126,
    are read and dropped: no token, no error. *)
Theorem X13_other_characters_are_dropped lx before c rest :
  (skipped c = true <->
   c <> LF /\ (nat_of_ascii c < 33 \/ 126 < nat_of_ascii c))
  /\ (skipped c = true ->
      ProcessNextToken lx (at_position before (c :: rest))
      = Ok (lx, at_position (c :: before) rest)).
Proof.
  split.
  - destruct c as [[] [] [] [] [] [] [] []]; vm_compute; split;
      try (intros H; discriminate H);
      try (intros _; split; [discriminate|lia]);
      try (intros [H _]; now contradiction H);
      try (intros [_ [H|H]]; lia).
  - intros Hc. destruct (skipped_branches c Hc) as (H1 & H2 & H3 & H4 & H5 & H6).
    unfold ProcessNextToken, at_position.
    cbn [get good sgetc remaining eofbit failbit badbit orb negb sbumpc consumed to_char].
    now rewrite H1, H2, H3, H4, H5, H6.
Qed.

Lemma X13_witness :
  ProcessNextToken (mkLexer [] 0 0) (at_position [] (CR :: [LF]))
  = Ok (mkLexer [] 0 0, at_position [CR] [LF]).
Proof.
  apply (X13_other_characters_are_dropped (mkLexer [] 0 0) [] CR [LF]). reflexivity.
Defined.

(** ** What the lexer keeps from token to token *)

Lemma character_classes c :
  c = LF \/ is_quote c = true \/ (Ascii.eqb c "_" || isalpha c) = true
  \/ isdigit c = true \/ c = "#"%char \/ is_symbol c = true \/ skipped c = true.
Proof.
  destruct c as [[] [] [] [] [] [] [] []]; vm_compute; tauto.
Qed.

Lemma ProcessIndent_no_Throw lx input e : ProcessIndent lx input <> Throw e.
Proof.
  unfold ProcessIndent. destruct (ProcessIndent_loop _ _ _) as [[n input1]|]; [|discriminate].
  destruct (peek input1) as [c input2]. destruct (int_is c LF); [discriminate|].
  destruct (_ <? _)%nat; [discriminate|]. now destruct (_ <? _)%nat.
Qed.

Lemma ProcessIndent_cases lx before text lx' input' :
  ProcessIndent lx (at_position before text) = Ok (lx', input') ->
  lx' = lx \/ exists indent, lx' = adjust_indent indent lx.
Proof.
  intros H. pose proof (ProcessIndent_sound lx before text) as Hs.
  unfold at_position in H. rewrite H in Hs. apply Hs.
Qed.

Lemma ProcessNextToken_number lx before c text :
  isdigit c = true ->
  ProcessNextToken lx (at_position before (c :: text))
  = if (decimal (run isdigit (c :: text)).1 <=? INT_MAX)%Z
    then Ok (push_back (token_type.Number (decimal (run isdigit (c :: text)).1)) lx,
             looked_at false (rev (run isdigit (c :: text)).1 ++ before)
               (run isdigit (c :: text)).2)
    else Throw (out_of_range "stoi").
Proof.
  intros Hc. rewrite ProcessNextToken_digit by assumption.
  unfold ProcessNum. cbn [remaining at_position].
  rewrite ProcessNum_loop_run by lia. cbn [app].
  unfold stoi. rewrite (run_cons isdigit c text Hc) at 1. cbn [fst].
  now destruct (_ <=? _)%Z.
Qed.

Lemma comparison_token_cases left right op :
  comparison_token left right = Some op ->
  well_formed op = true /\ Is_Eof op = false /\ Is_Newline op = false.
Proof.
  unfold comparison_token.
  repeat match goal with
         | |- (if ?b then _ else _) = _ -> _ => destruct b
         end; intros H; try discriminate; injection H as <-; repeat split.
Qed.

Lemma ProcessNextToken_symbol lx before c text lx' input' :
  is_symbol c = true ->
  ProcessNextToken lx (at_position before (c :: text)) = Ok (lx', input') ->
  exists t, lx' = push_back t lx
            /\ well_formed t = true /\ Is_Eof t = false /\ Is_Newline t = false.
Proof.
  intros Hc. rewrite ProcessNextToken_symbol_branch by assumption.
  destruct (get _) as [i2 input2].
  pose proof (comparison_token_spec c (to_char i2) lx) as Hop.
  destruct (comparison_token c (to_char i2)) as [op|] eqn:Hct.
  - destruct Hop as [-> ->]. intros [= <- _]. exists op. split; [reflexivity|].
    eapply comparison_token_cases; eassumption.
  - rewrite Hop. intros [= <- _]. exists (token_type.Char c). now repeat split.
Qed.

Lemma keyword_well_formed word t :
  find KEYWORD_TO_TOKEN word = Some t ->
  well_formed t = true /\ Is_Eof t = false /\ Is_Newline t = false.
Proof.
  unfold KEYWORD_TO_TOKEN, find.
  repeat destruct (String.eqb _ word); intros H; try discriminate;
    injection H as <-; repeat split.
Qed.

Lemma word_start_not_digit c :
  (Ascii.eqb c "_" || isalpha c) = true -> isdigit c = false /\ is_word_char c = true.
Proof.
  destruct c as [[] [] [] [] [] [] [] []]; vm_compute; intros H;
    try discriminate H; now split.
Qed.

Lemma word_token_well_formed c text :
  (Ascii.eqb c "_" || isalpha c) = true ->
  let t := word_token (string_of_list_ascii (run is_word_char (c :: text)).1) in
  well_formed t = true /\ Is_Eof t = false /\ Is_Newline t = false.
Proof.
  intros Hc t. subst t. unfold word_token.
  destruct (find KEYWORD_TO_TOKEN _) as [t|] eqn:Hfind.
  - now apply keyword_well_formed in Hfind.
  - split; [|now split]. cbn [well_formed].
    rewrite list_ascii_of_string_of_list_ascii.
    destruct (word_start_not_digit c Hc) as [Hd Hw].
    pose proof (run_all is_word_char (c :: text)) as Hall.
    rewrite (run_cons is_word_char c text Hw) in *. cbn [fst] in *.
    rewrite Hd. cbn [negb andb].
    apply andb_true_iff. split.
    + apply forallb_forall. intros x Hx. rewrite List.Forall_forall in Hall. now apply Hall.
    + apply negb_true_iff. destruct (IsKeyWord _) eqn:Hkey; [|reflexivity].
      apply IsKeyWord_find in Hkey as [t Ht]. congruence.
Qed.

Lemma under_construction_push_back t lx :
  well_formed t = true -> Is_Eof t = false -> Is_Newline t = false ->
  under_construction lx -> under_construction (push_back t lx).
Proof.
  intros Hwf Heof Hnl (Hall & Hhd & Hpos). unfold under_construction, push_back.
  cbn [tokens_ current_pos]. split; [|split; [|assumption]].
  - apply Forall_app. split; [assumption|]. now repeat constructor.
  - destruct (tokens_ lx) as [|t0 ts]; [|exact Hhd].
    cbn. intros [= ->]. discriminate.
Qed.

Lemma under_construction_ProcessNextLine lx :
  under_construction lx -> under_construction (ProcessNextLine lx).
Proof.
  intros (Hall & Hhd & Hpos). unfold ProcessNextLine, back.
  destruct (last (tokens_ lx)) as [t|] eqn:Hlast; [|now repeat split].
  destruct (Is_Newline t); [now repeat split|]. cbn [negb].
  unfold under_construction, push_back. cbn [tokens_ current_pos].
  split; [|split; [|assumption]].
  - apply Forall_app. split; [assumption|]. now repeat constructor.
  - destruct (tokens_ lx) as [|t0 ts]; [discriminate Hlast|exact Hhd].
Qed.

Lemma under_construction_adjust_indent indent lx :
  under_construction lx -> under_construction (adjust_indent indent lx).
Proof.
  intros (Hall & Hhd & Hpos).
  destruct (adjust_indent_tokens indent lx) as (Htok & _ & Hcur).
  unfold under_construction. rewrite Htok, Hcur.
  split; [|split; [|assumption]].
  - apply Forall_app. split; [assumption|]. unfold indent_tokens.
    apply Forall_app. split; apply Forall_forall; intros t Ht;
      apply list_elem_of_In, repeat_spec in Ht; subst; now split.
  - destruct (tokens_ lx) as [|t0 ts]; [|exact Hhd].
    cbn [app]. unfold indent_tokens.
    destruct (indent - prev_indent lx) as [|n]; cbn [repeat app]; [|discriminate].
    destruct (prev_indent lx - indent) as [|m]; cbn [repeat]; discriminate.
Qed.

Lemma under_construction_ProcessNextToken lx input lx' input' :
  good input = true ->
  under_construction lx ->
  ProcessNextToken lx input = Ok (lx', input') ->
  under_construction lx'.
Proof.
  intros Hgood Hinv. rewrite (good_at_position input Hgood).
  destruct (remaining input) as [|c text].
  - unfold at_position. rewrite ProcessNextToken_at_end. now intros [= <- _].
  - destruct (character_classes c) as [->|[Hq|[Hw|[Hd|[->|[Hs|Hk]]]]]].
    + unfold at_position. rewrite ProcessNextToken_LF. intros H.
      apply (ProcessIndent_cases _ (LF :: consumed input) text) in H as [->|[indent ->]].
      * now apply under_construction_ProcessNextLine.
      * now apply under_construction_adjust_indent, under_construction_ProcessNextLine.
    + unfold at_position. rewrite ProcessNextToken_quote by assumption.
      unfold ProcessString. destruct (get _) as [d input1].
      destruct (ProcessString_loop _ _ _ _) as [[s input2]| |]; try discriminate.
      intros [= <- _]. now apply under_construction_push_back.
    + rewrite ProcessNextToken_word by assumption. rewrite ProcessWord_run.
      intros [= <- _].
      destruct (word_token_well_formed c text Hw) as (H1 & H2 & H3).
      now apply under_construction_push_back.
    + rewrite ProcessNextToken_number by assumption.
      pose proof (run_all isdigit (c :: text)) as Hall.
      remember (run isdigit (c :: text)) as r eqn:Hr. clear Hr.
      destruct (_ <=? _)%Z eqn:Hle; [|discriminate]. intros [= <- _].
      apply under_construction_push_back; try reflexivity; [|assumption].
      cbn [well_formed]. rewrite Hle, andb_true_r. apply Z.leb_le.
      now apply decimal_nonneg.
    + rewrite ProcessNextToken_hash. unfold IgnoreComment.
      destruct (IgnoreComment_loop _ _); [|discriminate]. now intros [= <- _].
    + intros H. apply ProcessNextToken_symbol in H as (t & -> & Ht1 & Ht2 & Ht3);
        [|assumption].
      now apply under_construction_push_back.
    + destruct (skipped_branches c Hk) as (H1 & H2 & H3 & H4 & H5 & H6).
      unfold ProcessNextToken, at_position.
      cbn [get good sgetc remaining eofbit failbit badbit orb negb sbumpc consumed to_char].
      rewrite H1, H2, H3, H4, H5, H6. now intros [= <- _].
Qed.

Lemma ProcessAllTokens_loop_under_construction fuel : forall lx input lx' input',
  under_construction lx ->
  ProcessAllTokens_loop fuel lx input = Ok (lx', input') ->
  under_construction lx'.
Proof.
  induction fuel as [|fuel IH]; intros lx input lx' input' Hinv H; [discriminate|].
  cbn [ProcessAllTokens_loop] in H.
  destruct (good input) eqn:Hgood; [|now injection H as <- _].
  destruct (ProcessNextToken lx input) as [[lx1 input1]| |] eqn:Hstep; try discriminate.
  eapply IH; [|exact H]. eapply under_construction_ProcessNextToken; eassumption.
Qed.

Lemma new_Lexer_under_construction text lx :
  new_Lexer (istream_of text) = Ok lx ->
  exists lx3,
    under_construction lx3
    /\ lx = push_back token_type.Eof lx3
    /\ (tokens_ lx3 = [] \/ back lx3 = Some token_type.Newline
        \/ back lx3 = Some token_type.Dedent).
Proof.
  unfold new_Lexer, ProcessAllTokens. intros H.
  destruct (ProcessIndent _ _) as [[lx1 input1]| |] eqn:Hindent; try discriminate.
  destruct (ProcessAllTokens_loop _ _ _) as [[lx2 input2]| |] eqn:Hloop; try discriminate.
  injection H as <-.
  assert (Hinv0 : under_construction (mkLexer [] 0 0)).
  { repeat split; [constructor|discriminate]. }
  assert (Hinv1 : under_construction lx1).
  { apply (ProcessIndent_cases _ [] text) in Hindent as [->|[indent ->]];
      [assumption|now apply under_construction_adjust_indent]. }
  assert (Hinv2 : under_construction lx2)
    by (eapply ProcessAllTokens_loop_under_construction; eassumption).
  unfold back. destruct (last (tokens_ lx2)) as [t|] eqn:Hlast.
  - destruct (Is_Dedent t) eqn:HD; cbn [negb andb].
    + exists lx2. split; [assumption|]. split; [reflexivity|]. right. right.
      unfold back. rewrite Hlast. now destruct t.
    + destruct (Is_Newline t) eqn:HN; cbn [negb].
      * exists lx2. split; [assumption|]. split; [reflexivity|]. right. left.
        unfold back. rewrite Hlast. now destruct t.
      * exists (ProcessNextLine lx2).
        split; [now apply under_construction_ProcessNextLine|]. split; [reflexivity|].
        right. left. unfold ProcessNextLine, back. rewrite Hlast, HN. cbn [negb push_back tokens_].
        apply last_snoc.
  - exists lx2. split; [assumption|]. split; [reflexivity|]. left.
    now apply last_None in Hlast.
Qed.

(** X14.  The tokens of a lexer are well formed, for every program text
    the constructor accepts: a [Number] holds a value from 0 to
    [INT_MAX]; an [Id] holds a word that is not empty, is made of letters,
    digits and underscores, does not start with a digit and is not one of
    the keywords; a [Char] holds a punctuation character that is neither
    a quote, nor the underscore, nor the hash. *)
Theorem X14_tokens_are_well_formed text lx :
  new_Lexer (istream_of text) = Ok lx ->
  Forall (fun t => well_formed t = true) (tokens_ lx).
Proof.
  intros H. apply new_Lexer_under_construction in H as (lx3 & (Hall & _) & -> & _).
  cbn [push_back tokens_]. apply Forall_app. split; [|now repeat constructor].
  eapply Forall_impl; [exact Hall|]. now intros t [Ht _].
Qed.

Lemma X14_witness :
  Forall (fun t => well_formed t = true)
    [token_type.Id "x1"; token_type.Char "="; token_type.Number 12;
     token_type.Newline; token_type.Eof].
Proof.
  apply (X14_tokens_are_well_formed (list_ascii_of_string "x1 = 12")
           (mkLexer [token_type.Id "x1"; token_type.Char "="; token_type.Number 12;
                     token_type.Newline; token_type.Eof] 0 0)).
  reflexivity.
Defined.

(** X15.  The shape of the token list, for every program text the
    constructor accepts: it ends with [Eof], which stands nowhere else;
    it does not start with a [Newline]; the token before [Eof], when
    there is one, is a [Newline] or a [Dedent]; and the lexer starts at
    its first token. *)
Theorem X15_shape_of_the_token_list text lx :
  new_Lexer (istream_of text) = Ok lx ->
  exists init,
    tokens_ lx = init ++ [token_type.Eof]
    /\ Forall (fun t => Is_Eof t = false) init
    /\ hd_error (tokens_ lx) <> Some token_type.Newline
    /\ (init = [] \/ last init = Some token_type.Newline
        \/ last init = Some token_type.Dedent)
    /\ current_pos lx = 0
    /\ CurrentToken lx = hd token_type.Eof (tokens_ lx).
Proof.
  intros H.
  apply new_Lexer_under_construction in H as (lx3 & (Hall & Hhd & Hpos) & -> & Hlast).
  exists (tokens_ lx3). cbn [push_back tokens_ current_pos].
  split; [reflexivity|]. split; [|split; [|split; [exact Hlast|split; [exact Hpos|]]]].
  - eapply Forall_impl; [exact Hall|]. now intros t [_ Ht].
  - destruct (tokens_ lx3); [discriminate|exact Hhd].
  - unfold CurrentToken, push_back. cbn [tokens_ current_pos]. rewrite Hpos.
    now destruct (tokens_ lx3).
Qed.

Lemma X15_witness :
  exists init,
    [token_type.Id "x"; token_type.Newline; token_type.Eof] = init ++ [token_type.Eof]
    /\ Forall (fun t => Is_Eof t = false) init.
Proof.
  destruct (X15_shape_of_the_token_list (list_ascii_of_string "x")
              (mkLexer [token_type.Id "x"; token_type.Newline; token_type.Eof] 0 0)
              eq_refl) as (init & H1 & H2 & _).
  exists init. split; assumption.
Defined.

(** ** The exceptions of the constructor *)

Lemma ProcessNextToken_Throw lx before c text e :
  ProcessNextToken lx (at_position before (c :: text)) = Throw e ->
  (is_quote c = true /\ Malformed c text /\ is_ParsingError e = true)
  \/ (isdigit c = true /\ e = out_of_range "stoi"
      /\ (INT_MAX < decimal (run isdigit (c :: text)).1)%Z).
Proof.
  destruct (character_classes c) as [->|[Hq|[Hw|[Hd|[->|[Hs|Hk]]]]]].
  - unfold at_position. rewrite ProcessNextToken_LF. intros H.
    now apply ProcessIndent_no_Throw in H.
  - unfold at_position. rewrite ProcessNextToken_quote by assumption. intros H.
    apply ProcessString_Throw in H as [H1 H2]. now left.
  - rewrite ProcessNextToken_word by assumption. rewrite ProcessWord_run. discriminate.
  - rewrite ProcessNextToken_number by assumption.
    destruct (_ <=? _)%Z eqn:Hle; [discriminate|]. intros [= <-].
    right. apply Z.leb_gt in Hle. now repeat split.
  - rewrite ProcessNextToken_hash. unfold IgnoreComment.
    now destruct (IgnoreComment_loop _ _).
  - rewrite ProcessNextToken_symbol_branch by assumption.
    destruct (get _) as [i2 input2]. now destruct (IsComparisonOperator _ _).
  - destruct (skipped_branches c Hk) as (H1 & H2 & H3 & H4 & H5 & H6).
    unfold ProcessNextToken, at_position.
    cbn [get good sgetc remaining eofbit failbit badbit orb negb sbumpc consumed to_char].
    rewrite H1, H2, H3, H4, H5, H6. discriminate.
Qed.

Lemma ProcessAllTokens_loop_Throw text fuel : forall lx input e,
  between_iterations text (lx, input) ->
  ProcessAllTokens_loop fuel lx input = Throw e ->
  exists lx' input',
    between_iterations text (lx', input')
    /\ good input' = true
    /\ ProcessNextToken lx' input' = Throw e.
Proof.
  induction fuel as [|fuel IH]; intros lx input e Hbetween H; [discriminate|].
  cbn [ProcessAllTokens_loop] in H.
  destruct (good input) eqn:Hgood; [|discriminate].
  destruct (ProcessNextToken lx input) as [[lx1 input1]|e'|] eqn:Hstep; try discriminate.
  - eapply IH; [|exact H]. eapply between_iterations_next; eassumption.
  - injection H as ->. eauto.
Qed.

Lemma new_Lexer_Throw text e :
  new_Lexer (istream_of text) = Throw e ->
  exists before c rest,
    text = before ++ c :: rest
    /\ ((is_quote c = true /\ Malformed c rest /\ is_ParsingError e = true)
        \/ (isdigit c = true /\ e = out_of_range "stoi"
            /\ (INT_MAX < decimal (run isdigit (c :: rest)).1)%Z)).
Proof.
  unfold new_Lexer, ProcessAllTokens. intros H.
  destruct (ProcessIndent _ _) as [[lx1 input1]|e1|] eqn:Hindent; try discriminate;
    [|now apply ProcessIndent_no_Throw in Hindent].
  apply between_iterations_start in Hindent.
  destruct (ProcessAllTokens_loop _ _ _) as [[lx2 input2]|e2|] eqn:Hloop; try discriminate.
  injection H as ->.
  apply (ProcessAllTokens_loop_Throw text) in Hloop
    as (lx' & input' & Hbetween & Hgood & Hstep); [|assumption].
  destruct Hbetween as [[chars [_ Hreads]] _]. cbn [snd istream_of remaining] in Hreads.
  rewrite (good_at_position input' Hgood) in Hstep.
  destruct (remaining input') as [|c rest] eqn:Hrem.
  - unfold at_position in Hstep. now rewrite ProcessNextToken_at_end in Hstep.
  - exists chars, c, rest. split; [assumption|].
    eapply ProcessNextToken_Throw; eassumption.
Qed.

Lemma new_Lexer_total text :
  (exists lx, new_Lexer (istream_of text) = Ok lx)
  \/ (exists e, new_Lexer (istream_of text) = Throw e).
Proof.
  pose proof (tokenize_total (string_of_list_ascii text)) as H.
  unfold tokenize in H. rewrite list_ascii_of_string_of_list_ascii in H.
  destruct (new_Lexer (istream_of text)) as [lx|e|]; eauto.
  destruct H as [[ts H]|[e H]]; discriminate.
Qed.

(** X16.  The constructor ends on every program text, with a lexer or
    with an exception, and it throws two exceptions only.  It throws
    [ParsingError] only at a quote that opens a malformed string literal,
    and [std::out_of_range], which [std::stoi] throws and which is no
    [std::runtime_error], only at a run of digits whose value does not fit
    an [int].  It never throws [LexerError].  So a text with no quote in
    it and no digit is always accepted. *)
Theorem X16_exceptions_of_the_constructor text :
  ((exists lx, new_Lexer (istream_of text) = Ok lx)
   \/ (exists e, new_Lexer (istream_of text) = Throw e))
  /\ (forall e,
        new_Lexer (istream_of text) = Throw e ->
        is_LexerError e = false
        /\ exists before c rest,
             text = before ++ c :: rest
             /\ ((is_quote c = true /\ Malformed c rest /\ is_ParsingError e = true)
                 \/ (isdigit c = true /\ e = out_of_range "stoi"
                     /\ is_runtime_error e = false
                     /\ (INT_MAX < decimal (run isdigit (c :: rest)).1)%Z)))
  /\ (Forall (fun c => is_quote c = false /\ isdigit c = false) text ->
      exists lx, new_Lexer (istream_of text) = Ok lx).
Proof.
  split; [apply new_Lexer_total|]. split.
  - intros e H. apply new_Lexer_Throw in H as (before & c & rest & -> & H).
    split.
    + destruct H as [(_ & _ & H)|(_ & -> & _)]; [now destruct e|reflexivity].
    + exists before, c, rest. split; [reflexivity|].
      destruct H as [H|(H1 & -> & H2)]; [now left|right; now repeat split].
  - intros Hall. destruct (new_Lexer_total text) as [H|[e H]]; [assumption|].
    apply new_Lexer_Throw in H as (before & c & rest & -> & H).
    apply Forall_app in Hall as [_ Hall]. apply Forall_inv in Hall as [Hq Hd].
    destruct H as [(H & _)|(H & _)]; congruence.
Qed.

Lemma X16_witness :
  exists lx, new_Lexer (istream_of (list_ascii_of_string "print x")) = Ok lx.
Proof.
  apply (X16_exceptions_of_the_constructor (list_ascii_of_string "print x")).
  repeat constructor.
Defined.

(** ** Reading the tokens *)

Lemma CurrentToken_nth lx :
  CurrentToken lx = nth (current_pos lx) (tokens_ lx) token_type.Eof.
Proof.
  unfold CurrentToken.
  destruct (nth_error (tokens_ lx) (current_pos lx)) as [t|] eqn:Hnth.
  - symmetry. now apply nth_error_nth.
  - symmetry. apply nth_overflow. now apply nth_error_None.
Qed.

Lemma NextToken_CurrentToken lx :
  fst (NextToken lx) = CurrentToken (snd (NextToken lx)).
Proof.
  unfold NextToken. destruct (Nat.ltb_spec (current_pos lx) (length (tokens_ lx))) as [Hlt|Hge].
  - reflexivity.
  - cbn [fst snd]. rewrite CurrentToken_nth. symmetry. now apply nth_overflow.
Qed.

Lemma NextToken_lexer lx :
  tokens_ (snd (NextToken lx)) = tokens_ lx
  /\ prev_indent (snd (NextToken lx)) = prev_indent lx
  /\ current_pos (snd (NextToken lx))
     = (if (current_pos lx <? length (tokens_ lx))%nat
        then S (current_pos lx) else current_pos lx).
Proof. unfold NextToken. now destruct (_ <? _)%nat. Qed.

Lemma advance_lexer k : forall lx,
  current_pos lx <= length (tokens_ lx) ->
  tokens_ (advance k lx) = tokens_ lx
  /\ current_pos (advance k lx) = Nat.min (current_pos lx + k) (length (tokens_ lx)).
Proof.
  induction k as [|k IH]; intros lx Hpos.
  - cbn [advance]. split; [reflexivity|lia].
  - cbn [advance]. destruct (NextToken_lexer lx) as (Htok & _ & Hcur).
    destruct (IH (snd (NextToken lx))) as [IH1 IH2].
    + rewrite Htok, Hcur. destruct (Nat.ltb_spec (current_pos lx) (length (tokens_ lx))); lia.
    + rewrite IH1, IH2, Htok, Hcur. split; [reflexivity|].
      destruct (Nat.ltb_spec (current_pos lx) (length (tokens_ lx))); lia.
Qed.

Lemma advance_S k : forall lx, advance (S k) lx = snd (NextToken (advance k lx)).
Proof.
  induction k as [|k IH]; intros lx; [reflexivity|].
  change (advance (S (S k)) lx) with (advance (S k) (snd (NextToken lx))).
  now rewrite IH.
Qed.

(** X17.  Reading the tokens with [NextToken] and [CurrentToken]: after
    [k] calls of [NextToken], [CurrentToken] is the token [k] places
    further in the list, and [Eof] from the end of the list on, however
    often [NextToken] is called; the position never passes the end of the
    list; the list is never changed; and [NextToken] returns the token
    that [CurrentToken] shows afterwards. *)
Theorem X17_reading_the_tokens lx k :
  current_pos lx <= length (tokens_ lx) ->
  CurrentToken (advance k lx) = nth (current_pos lx + k) (tokens_ lx) token_type.Eof
  /\ fst (NextToken (advance k lx)) = CurrentToken (advance (S k) lx)
  /\ tokens_ (advance k lx) = tokens_ lx
  /\ current_pos (advance k lx) = Nat.min (current_pos lx + k) (length (tokens_ lx)).
Proof.
  intros Hpos. destruct (advance_lexer k lx Hpos) as [Htok Hcur].
  split; [|split; [|split; assumption]].
  - rewrite CurrentToken_nth, Htok, Hcur.
    destruct (Nat.le_gt_cases (current_pos lx + k) (length (tokens_ lx))) as [Hle|Hgt].
    + now rewrite Nat.min_l by assumption.
    + rewrite Nat.min_r by lia. rewrite !nth_overflow by lia. reflexivity.
  - rewrite advance_S. apply NextToken_CurrentToken.
Qed.

Lemma X17_witness :
  CurrentToken (advance 1 (mkLexer [token_type.Id "x"; token_type.Newline; token_type.Eof] 0 0))
  = token_type.Newline
  /\ CurrentToken (advance 5 (mkLexer [token_type.Id "x"; token_type.Newline; token_type.Eof] 0 0))
     = token_type.Eof.
Proof.
  split.
  - apply (X17_reading_the_tokens
             (mkLexer [token_type.Id "x"; token_type.Newline; token_type.Eof] 0 0) 1).
    simpl. lia.
  - apply (X17_reading_the_tokens
             (mkLexer [token_type.Id "x"; token_type.Newline; token_type.Eof] 0 0) 5).
    simpl. lia.
Defined.

Lemma value_is_operator_eq token expected :
  index expected < 4 ->
  Is expected token && value_is token expected = operator_eq token expected.
Proof.
  intros Hvalued.
  destruct expected; cbn [index] in Hvalued; try lia;
    destruct token; reflexivity.
Qed.

(** X18.  [Expect] with a value is [operator==] on tokens: for a type [T]
    that has a value, [Expect<T>(value)] returns exactly when
    [CurrentToken() == Token(T{value})], and throws [LexerError] otherwise.
    [ExpectNext<T>(value)], which looks at the token [NextToken] returned
    where [ExpectNext<T>()] looks at [CurrentToken()], accepts what
    [Expect<T>(value)] accepts after [NextToken]; and the lexer has moved
    to the next token also when [ExpectNext] throws. *)
Theorem X18_Expect_with_a_value expected lx :
  index expected < 4 ->
  (Expect_value expected lx = Ok tt <-> operator_eq (CurrentToken lx) expected = true)
  /\ (operator_eq (CurrentToken lx) expected = false ->
      Expect_value expected lx
      = Throw (LexerError "Incorect type or value in lexer::Expect(value)"))
  /\ (fst (ExpectNext_value expected lx) = Ok tt <->
      Expect_value expected (snd (NextToken lx)) = Ok tt)
  /\ snd (ExpectNext_value expected lx) = snd (NextToken lx)
  /\ (forall T t, fst (ExpectNext T lx) = Ok t <-> Expect T (snd (NextToken lx)) = Ok t)
  /\ (forall T, snd (ExpectNext T lx) = snd (NextToken lx)).
Proof.
  intros Hvalued. unfold Expect_value, ExpectNext_value, ExpectNext, Expect.
  pose proof (NextToken_CurrentToken lx) as Hnext.
  destruct (NextToken lx) as [token lx'] eqn:HNT. cbn [fst snd] in *. subst token.
  rewrite !value_is_operator_eq by assumption.
  repeat split.
  - now destruct (operator_eq _ _).
  - now intros ->.
  - now intros ->.
  - now destruct (operator_eq _ _).
  - now destruct (operator_eq _ _).
  - now destruct (Is T _).
  - now destruct (Is T _).
Qed.

Lemma X18_witness :
  Expect_value (token_type.Id "x")
    (mkLexer [token_type.Id "x"; token_type.Newline; token_type.Eof] 0 0) = Ok tt
  /\ Expect_value (token_type.Id "y")
       (mkLexer [token_type.Id "x"; token_type.Newline; token_type.Eof] 0 0)
     = Throw (LexerError "Incorect type or value in lexer::Expect(value)").
Proof.
  split.
  - apply (X18_Expect_with_a_value (token_type.Id "x")
             (mkLexer [token_type.Id "x"; token_type.Newline; token_type.Eof] 0 0)).
    + simpl. lia.
    + reflexivity.
  - apply (X18_Expect_with_a_value (token_type.Id "y")
             (mkLexer [token_type.Id "x"; token_type.Newline; token_type.Eof] 0 0)).
    + simpl. lia.
    + reflexivity.
Defined.

(** ** Decimal numerals *)

Lemma decimal_fold digits : forall acc,
  fold_left (fun acc c => (acc * 10 + (Z.of_nat (nat_of_ascii c) - 48))%Z) digits acc
  = (acc * 10 ^ Z.of_nat (length digits) + decimal digits)%Z.
Proof.
  unfold decimal. induction digits as [|c digits IH]; intros acc.
  - cbn. lia.
  - cbn [fold_left length]. rewrite IH, (IH (0 * 10 + _)%Z).
    rewrite Nat2Z.inj_succ, Z.pow_succ_r by lia. lia.
Qed.

Lemma decimal_cons c digits :
  decimal (c :: digits)
  = ((Z.of_nat (nat_of_ascii c) - 48) * 10 ^ Z.of_nat (length digits) + decimal digits)%Z.
Proof. unfold decimal at 1. cbn [fold_left]. rewrite decimal_fold. lia. Qed.

Lemma pretty_N_char_digit (d : N) :
  (d < 10)%N ->
  isdigit (pretty_N_char d) = true
  /\ (Z.of_nat (nat_of_ascii (pretty_N_char d)) - 48 = Z.of_N d)%Z.
Proof.
  intros Hd.
  assert (Hcases : d = 0%N \/ d = 1%N \/ d = 2%N \/ d = 3%N \/ d = 4%N \/ d = 5%N
                   \/ d = 6%N \/ d = 7%N \/ d = 8%N \/ d = 9%N) by lia.
  decompose [or] Hcases; subst d; split; reflexivity.
Qed.

Lemma pretty_N_go_decimal (x : N) : forall s,
  Forall (fun c => isdigit c = true) (list_ascii_of_string s) ->
  Forall (fun c => isdigit c = true) (list_ascii_of_string (pretty_N_go x s))
  /\ decimal (list_ascii_of_string (pretty_N_go x s))
     = (Z.of_N x * 10 ^ Z.of_nat (length (list_ascii_of_string s))
        + decimal (list_ascii_of_string s))%Z
  /\ (list_ascii_of_string s <> [] -> list_ascii_of_string (pretty_N_go x s) <> []).
Proof.
  induction (N.lt_wf_0 x) as [x _ IH]. intros s Hs.
  destruct (N.eq_dec x 0%N) as [->|Hx].
  - rewrite pretty_N_go_0. split; [assumption|]. split; [lia|auto].
  - rewrite pretty_N_go_step by lia.
    destruct (pretty_N_char_digit (x mod 10)%N) as [Hdigit Hvalue];
      [apply N.mod_lt; lia|].
    destruct (IH (x / 10)%N) with (s := String (pretty_N_char (x mod 10)%N) s)
      as (H1 & H2 & H3).
    + apply N.div_lt; lia.
    + cbn [list_ascii_of_string]. now constructor.
    + split; [assumption|]. split.
      * rewrite H2. cbn [list_ascii_of_string]. rewrite decimal_cons, Hvalue.
        cbn [length]. rewrite Nat2Z.inj_succ, Z.pow_succ_r by lia.
        pose proof (N.div_mod x 10%N) as Hdm.
        assert (Hx10 : (Z.of_N x = 10 * Z.of_N (x / 10) + Z.of_N (x mod 10))%Z) by lia.
        rewrite Hx10. lia.
      * intros _. apply H3. discriminate.
Qed.

Lemma pretty_Z_decimal (n : Z) :
  (0 <= n)%Z ->
  exists c digits,
    list_ascii_of_string (pretty n) = c :: digits
    /\ Forall (fun d => isdigit d = true) (c :: digits)
    /\ decimal (c :: digits) = n.
Proof.
  intros Hn. destruct n as [|p|p]; [| |lia].
  - exists "0"%char, []. now repeat constructor.
  - unfold pretty, pretty_Z, pretty, pretty_positive, pretty, pretty_N.
    destruct (decide (N.pos p = 0%N)) as [Heq|_]; [discriminate|].
    destruct (pretty_N_go_decimal (N.pos p) "") as (H1 & H2 & _); [constructor|].
    cbn [list_ascii_of_string length] in H2.
    destruct (list_ascii_of_string (pretty_N_go (N.pos p) "")) as [|c digits] eqn:Hds.
    + unfold decimal in H2. cbn in H2. lia.
    + exists c, digits. split; [reflexivity|]. split; [assumption|].
      rewrite H2. unfold decimal. cbn [fold_left]. lia.
Qed.

Lemma run_whole class text :
  Forall (fun c => class c = true) text -> run class text = (text, []).
Proof.
  induction 1 as [|c text Hc _ IH]; [reflexivity|].
  rewrite run_cons by assumption. now rewrite IH.
Qed.

(** ** The text of one token *)

Lemma new_Lexer_one_token text c rest t :
  text = c :: rest -> c <> SPACE -> c <> LF ->
  (forall before,
     ProcessNextToken (mkLexer [] 0 0) (at_position before text)
     = Ok (mkLexer [t] 0 0, mkIstream (rev text ++ before) [] true false false)
     \/ ProcessNextToken (mkLexer [] 0 0) (at_position before text)
        = Ok (mkLexer [t] 0 0, mkIstream (rev text ++ before) [] true true false)) ->
  Is_Dedent t = false -> Is_Newline t = false ->
  new_Lexer (istream_of text)
  = Ok (mkLexer [t; token_type.Newline; token_type.Eof] 0 0).
Proof.
  intros -> Hsp HLF Hstep HD HN. unfold new_Lexer, ProcessAllTokens.
  change (istream_of (c :: rest)) with (at_position [] (spaces 0 ++ c :: rest)).
  rewrite (ProcessIndent_at_line (mkLexer [] 0 0) [] 0 c rest Hsp HLF).
  change (adjust_indent (0 / 2) (mkLexer [] 0 0)) with (mkLexer [] 0 0).
  change (spaces 0 ++ []) with (@nil ascii).
  cbn [remaining at_position ProcessAllTokens_loop good eofbit failbit badbit orb negb].
  fold (at_position [] (c :: rest)).
  destruct (Hstep []) as [-> | ->];
    cbn [ProcessAllTokens_loop good eofbit failbit badbit orb negb length];
    unfold ProcessNextLine, back; cbn [tokens_ last]; rewrite HD, HN; reflexivity.
Qed.

Lemma new_Lexer_number c digits :
  Forall (fun d => isdigit d = true) (c :: digits) ->
  (decimal (c :: digits) <= INT_MAX)%Z ->
  new_Lexer (istream_of (c :: digits))
  = Ok (mkLexer [token_type.Number (decimal (c :: digits)); token_type.Newline;
                 token_type.Eof] 0 0).
Proof.
  intros Hall Hle. assert (Hc : isdigit c = true) by now apply Forall_inv in Hall.
  apply (new_Lexer_one_token _ c digits); try reflexivity.
  - intros ->. discriminate.
  - intros ->. discriminate.
  - intros before. left. rewrite ProcessNextToken_number by assumption.
    rewrite (run_whole isdigit _ Hall). cbn [fst snd looked_at].
    apply Z.leb_le in Hle. now rewrite Hle.
Qed.

End LexerMore.

(** * Printing and lexing

    What the runtime prints for a scalar, read by the lexer. *)

Module PrintAndLex.

Section Facts.

Context {Executable : Type}.
Variable Execute :
  Executable -> Runtime.Closure Executable ->
  Runtime.M Executable (Runtime.ObjectHolder Executable).
Variable show_pointer : Runtime.address -> string.

(** X19.  What [Print] writes for a number that is not negative, and for
    a [Bool], is a literal of the language that the lexer reads back as
    that value: the text of a [Number] from 0 to [INT_MAX] is lexed as one
    [Number] token with the same value, and the text of a [Bool] as the
    keyword [True] or [False]. *)
Theorem X19_printed_scalars_are_literals fuel this (h : Runtime.Heap Executable) :
  (forall n : Z,
     (0 <= n <= Lexer.INT_MAX)%Z ->
     exists text,
       Runtime.Print Execute show_pointer fuel this (Runtime.ONumber n) h
       = Some (Runtime.ret text h)
       /\ Lexer.tokenize text
          = Lexer.Ok [Lexer.token_type.Number n; Lexer.token_type.Newline;
                      Lexer.token_type.Eof])
  /\ (forall b : bool,
        exists text,
          Runtime.Print Execute show_pointer fuel this (Runtime.OBool b) h
          = Some (Runtime.ret text h)
          /\ Lexer.tokenize text
             = Lexer.Ok [if b then Lexer.token_type.True else Lexer.token_type.False;
                         Lexer.token_type.Newline; Lexer.token_type.Eof]).
Proof.
  split.
  - intros n [Hn0 Hmax]. exists (pretty n).
    split; [now destruct fuel|].
    destruct (LexerMore.pretty_Z_decimal n Hn0) as (c & digits & Htext & Hall & Hvalue).
    unfold Lexer.tokenize. rewrite Htext.
    rewrite LexerMore.new_Lexer_number by (try assumption; now rewrite Hvalue).
    now rewrite Hvalue.
  - intros b. exists (if b then "True" else "False").
    split; [now destruct fuel|]. now destruct b.
Qed.

End Facts.

Lemma X19_witness :
  exists text,
    Runtime.Print Runtime.ExecuteBody Runtime.show_address 0 9%positive
      (Runtime.ONumber 5) ∅
    = Some (Runtime.ret text ∅)
    /\ Lexer.tokenize text
       = Lexer.Ok [Lexer.token_type.Number 5; Lexer.token_type.Newline;
                   Lexer.token_type.Eof].
Proof.
  apply (X19_printed_scalars_are_literals Runtime.ExecuteBody Runtime.show_address
           0 9%positive ∅).
  vm_compute. split; discriminate.
Defined.

End PrintAndLex.
